(** * The optimistic Collection (overlay engine) of packages/optimistic

    A shallow embedding of [src/packages/optimistic/src/collection.ts]:
    the synced dataset, the ingestion callbacks [begin]/[write]/[commit],
    the merge gate of [commitPendingTransactions], the derived overlay and
    the mutation API [insert]/[update]/[delete].

    Conventions.
    - A JavaScript [Map] is an insertion-ordered association list ([JsMap]).
    - A record (a plain JavaScript object) is a pair of an identity and its
      fields; the collection never writes to an object after creating it, so
      an identity determines the fields.  Field order is abstracted: the
      fields are a [gmap].
    - Every method runs in a small state-and-exception monad over the
      collection: a [throw] keeps the state reached so far.
    - A function registered with [onFirstCommit] is opaque: it is known by a
      number and by whether it returns or throws when it is called; the
      calls are recorded in a trace.
    - [crypto.randomUUID()] and [new Date()] values (collection id, mutation
      ids, timestamps) are not represented. *)

From Stdlib Require Import ZArith Lia.
From stdpp Require Import base option list gmap strings countable.

Local Open Scope string_scope.
Local Open Scope nat_scope.
Local Open Scope list_scope.

(** ** JavaScript values *)

(** Field values of a record.  The collection treats them as opaque. *)
Inductive Value :=
  | VNull
  | VBool (b : bool)
  | VNum (n : Z)
  | VStr (s : string).

#[global] Instance Value_eq_dec : EqDecision Value.
Proof. solve_decision. Defined.

Abbreviation Key := string (only parsing).
Abbreviation Fields := (gmap string Value) (only parsing).

(** Identity of an object.  [ExtId] objects are created by the callers of the
    collection (application code, the sync source, the schema); [NewId]
    objects are created by the collection itself, numbered by an allocation
    counter. *)
Inductive ObjId :=
  | ExtId (n : nat)
  | NewId (n : nat).

#[global] Instance ObjId_eq_dec : EqDecision ObjId.
Proof. solve_decision. Defined.

#[global] Instance ObjId_countable : Countable ObjId.
Proof.
  apply (inj_countable'
           (λ i, match i with ExtId n => inl n | NewId n => inr n end)
           (λ s, match s with inl n => ExtId n | inr n => NewId n end)).
  by intros [].
Defined.

Record Obj := mkObj { oid : ObjId; fields : Fields }.

#[global] Instance Obj_eq_dec : EqDecision Obj.
Proof. solve_decision. Defined.

(** [{ ...a, ...b }] on fields: the fields of [b] win. *)
Definition spread (a b : Fields) : Fields := b ∪ a.

(** [x || {}] followed by a spread of its fields. *)
Definition or_empty (x : option Obj) : Fields := from_option fields ∅ x.

(** ** Insertion-ordered maps *)

Module JsMap.

Definition t (A : Type) := list (Key * A).

Definition empty {A} : t A := [].

Fixpoint get {A} (k : Key) (m : t A) : option A :=
match m with
| [] => None
| (k', v) :: m' => if decide (k' = k) then Some v else get k m'
end.

(** [m.set(k, v)]: an existing key keeps its position, a new key goes last. *)
Fixpoint set {A} (k : Key) (v : A) (m : t A) : t A :=
match m with
| [] => [(k, v)]
| (k', v') :: m' =>
    if decide (k' = k) then (k, v) :: m' else (k', v') :: set k v m'
end.

Fixpoint delete {A} (k : Key) (m : t A) : t A :=
match m with
| [] => []
| (k', v') :: m' =>
    if decide (k' = k) then delete k m' else (k', v') :: delete k m'
end.

Definition size {A} (m : t A) : nat := length m.

Definition values {A} (m : t A) : list A := m.*2.

(** Values mapped through [f], keys and order kept. *)
Definition map {A B} (f : A → B) (m : t A) : t B := prod_map id f <$> m.

End JsMap.


(** ** Data model (types of [./types]) *)

(** Modelled from the spec: the [TransactionState] type of [./types], whose
    source is not available.  The spec gives the lifecycle states
    pending, persisting, completed and failed; the collection itself only
    compares a state with [`completed`] and [`failed`]. *)
Inductive TransactionState :=
  | pending
  | persisting
  | completed
  | failed.

#[global] Instance TransactionState_eq_dec : EqDecision TransactionState.
Proof. solve_decision. Defined.

Inductive OperationType :=
  | OpInsert
  | OpUpdate
  | OpDelete.

#[global] Instance OperationType_eq_dec : EqDecision OperationType.
Proof. solve_decision. Defined.

(** [ChangeMessage<T>]: [metadata] is optional. *)
Record ChangeMessage := mkChangeMessage {
  type : OperationType;
  key : Key;
  value : Obj;
  metadata : option Fields;
}.

(** [PendingMutation], without [mutationId], [createdAt] and [updatedAt]. *)
Record PendingMutation := mkPendingMutation {
  original : Obj;
  modified : Obj;
  changes : Obj;
  m_key : Key;
  m_metadata : option Fields;
  syncMetadata : Fields;
  m_type : OperationType;
}.

(** The two fields of a [Transaction] that the collection reads. *)
Record Transaction := mkTransaction {
  state : TransactionState;
  mutations : list PendingMutation;
}.

Record PendingSyncedTransaction := mkPendingSyncedTransaction {
  committed : bool;
  operations : list ChangeMessage;
}.

(** An issue of a failed validation; the elements of [path] are already
    strings. *)
Record Issue := mkIssue {
  issue_message : string;
  issue_path : option (list string);
}.

#[global] Instance Issue_eq_dec : EqDecision Issue.
Proof. solve_decision. Defined.

(** Result of [standardSchema[`~standard`].validate(x)]: a value, a list of
    issues, or a promise. *)
Inductive ValidationResult :=
  | VOk (v : Obj)
  | VIssues (issues : list Issue)
  | VPromise.

(** [config.schema]: an object with or without the [~standard] marker. *)
Inductive Schema :=
  | NotStandardSchema
  | StandardSchema (validate : Obj → ValidationResult).

(** [config.sync]: its [sync] function is the environment that calls
    [begin], [write] and [commit]; [getSyncMetadata] is optional. *)
Record SyncConfig := mkSyncConfig {
  getSyncMetadata : option Fields;
}.

Record CollectionConfig := mkCollectionConfig {
  sync : option SyncConfig;
  mutationFn : bool;                    (* is [config.mutationFn] provided *)
  schema : option Schema;
}.

(** A function registered with [onFirstCommit]: a callback of the caller,
    which returns ([UserCallback]) or throws ([ThrowingCallback]) when it is
    called, or the resolver installed by [stateWhenReady] /
    [toArrayWhenReady].  Calling it is recorded in the trace of the
    collection; what a caller's callback then does to the collection is a
    sequence of events of its own. *)
Inductive Callback :=
  | UserCallback (n : nat)
  | ThrowingCallback (n : nat)
  | ResolveState
  | ResolveArray.

#[global] Instance Callback_eq_dec : EqDecision Callback.
Proof. solve_decision. Defined.

Inductive Error :=
  | CollectionRequiresSyncConfig
  | NoPendingSyncTransactionToWrite
  | AlreadyCommittedCannotWrite
  | NoPendingSyncTransactionToCommit
  | AlreadyCommittedCannotCommit
  | SchemaNotStandard
  | ValidationMustBeSynchronous
  | SchemaValidationError (op : OperationType) (issues : list Issue)
  | MutationFnMissing
  | MoreKeysThanItems
  | ObjectNotFoundInCollection
  | NoChangesWereMade
  | CallbackError (n : nat).  (* what the caller's callback [n] throws *)

#[global] Instance Error_eq_dec : EqDecision Error.
Proof. solve_decision. Defined.

(** ** The collection *)

Record Collection := mkCollection {
  transactions : list Transaction;  (* [transactionManager.transactions.state], in order *)
  syncedData : JsMap.t Obj;
  syncedMetadata : JsMap.t (option Fields);
  pendingSyncedTransactions : list PendingSyncedTransaction;
  hasReceivedFirstCommit : bool;
  objectKeyMap : gmap ObjId Key;  (* the [WeakMap], keyed by identity *)
  onFirstCommitCallbacks : list Callback;
  derivedState : JsMap.t Obj;  (* the value held by the [derivedState] store *)
  config : CollectionConfig;
  nextOid : nat;  (* number of objects the collection has created *)
  firedCallbacks : list Callback;  (* trace: the callbacks called so far, oldest first *)
}.

Definition set_transactions (x : list Transaction) (c : Collection) : Collection :=
  mkCollection x (syncedData c) (syncedMetadata c) (pendingSyncedTransactions c) (hasReceivedFirstCommit c) (objectKeyMap c) (onFirstCommitCallbacks c) (derivedState c) (config c) (nextOid c) (firedCallbacks c).

Definition set_syncedData (x : JsMap.t Obj) (c : Collection) : Collection :=
  mkCollection (transactions c) x (syncedMetadata c) (pendingSyncedTransactions c) (hasReceivedFirstCommit c) (objectKeyMap c) (onFirstCommitCallbacks c) (derivedState c) (config c) (nextOid c) (firedCallbacks c).

Definition set_syncedMetadata (x : JsMap.t (option Fields)) (c : Collection) : Collection :=
  mkCollection (transactions c) (syncedData c) x (pendingSyncedTransactions c) (hasReceivedFirstCommit c) (objectKeyMap c) (onFirstCommitCallbacks c) (derivedState c) (config c) (nextOid c) (firedCallbacks c).

Definition set_pendingSyncedTransactions (x : list PendingSyncedTransaction) (c : Collection) : Collection :=
  mkCollection (transactions c) (syncedData c) (syncedMetadata c) x (hasReceivedFirstCommit c) (objectKeyMap c) (onFirstCommitCallbacks c) (derivedState c) (config c) (nextOid c) (firedCallbacks c).

Definition set_hasReceivedFirstCommit (x : bool) (c : Collection) : Collection :=
  mkCollection (transactions c) (syncedData c) (syncedMetadata c) (pendingSyncedTransactions c) x (objectKeyMap c) (onFirstCommitCallbacks c) (derivedState c) (config c) (nextOid c) (firedCallbacks c).

Definition set_objectKeyMap (x : gmap ObjId Key) (c : Collection) : Collection :=
  mkCollection (transactions c) (syncedData c) (syncedMetadata c) (pendingSyncedTransactions c) (hasReceivedFirstCommit c) x (onFirstCommitCallbacks c) (derivedState c) (config c) (nextOid c) (firedCallbacks c).

Definition set_onFirstCommitCallbacks (x : list Callback) (c : Collection) : Collection :=
  mkCollection (transactions c) (syncedData c) (syncedMetadata c) (pendingSyncedTransactions c) (hasReceivedFirstCommit c) (objectKeyMap c) x (derivedState c) (config c) (nextOid c) (firedCallbacks c).

Definition set_derivedState (x : JsMap.t Obj) (c : Collection) : Collection :=
  mkCollection (transactions c) (syncedData c) (syncedMetadata c) (pendingSyncedTransactions c) (hasReceivedFirstCommit c) (objectKeyMap c) (onFirstCommitCallbacks c) x (config c) (nextOid c) (firedCallbacks c).

Definition set_nextOid (x : nat) (c : Collection) : Collection :=
  mkCollection (transactions c) (syncedData c) (syncedMetadata c) (pendingSyncedTransactions c) (hasReceivedFirstCommit c) (objectKeyMap c) (onFirstCommitCallbacks c) (derivedState c) (config c) x (firedCallbacks c).

Definition set_firedCallbacks (x : list Callback) (c : Collection) : Collection :=
  mkCollection (transactions c) (syncedData c) (syncedMetadata c) (pendingSyncedTransactions c) (hasReceivedFirstCommit c) (objectKeyMap c) (onFirstCommitCallbacks c) (derivedState c) (config c) (nextOid c) x.

(** ** The monad of the methods: state and exceptions *)

Inductive Outcome (A : Type) :=
  | Returned (a : A)
  | Thrown (e : Error).
Arguments Returned {A} a.
Arguments Thrown {A} e.

Definition M (A : Type) : Type := Collection → Outcome A * Collection.

Definition ret {A} (a : A) : M A := λ c, (Returned a, c).

Definition throw {A} (e : Error) : M A := λ c, (Thrown e, c).

Definition bind {A B} (m : M A) (f : A → M B) : M B :=
  λ c, match m c with
       | (Returned a, c') => f a c'
       | (Thrown e, c') => (Thrown e, c')
       end.

Notation "x <- m ;; k" := (bind m (λ x, k))
  (at level 100, m at next level, right associativity).
Notation "m ;;; k" := (bind m (λ _, k))
  (at level 100, right associativity).

Definition gets {A} (f : Collection → A) : M A := λ c, (Returned (f c), c).

Definition modify (f : Collection → Collection) : M unit := λ c, (Returned tt, f c).

(** [array.map(f)] / [array.forEach(f)] with an effectful [f], left to right. *)
Fixpoint mapM {A B} (f : A → M B) (l : list A) : M (list B) :=
  match l with
  | [] => ret []
  | x :: l' => y <- f x ;; ys <- mapM f l' ;; ret (y :: ys)
  end.

(** [array.forEach(f)] with an [f] that gives nothing back; a call that
    throws ends the loop. *)
Fixpoint forEach {A} (f : A → M unit) (l : list A) : M unit :=
  match l with
  | [] => ret tt
  | x :: l' => f x ;;; forEach f l'
  end.

(** A computation run for its effect on the collection. *)
Definition exec {A} (m : M A) (c : Collection) : Collection := (m c).2.

(** A fresh object with the given fields (an object literal or spread). *)
Definition alloc (f : Fields) : M Obj :=
  λ c, (Returned (mkObj (NewId (nextOid c)) f), set_nextOid (S (nextOid c)) c).

(** ** The derived stores *)

(** [optimisticOperations]: the mutations of the transactions that are
    neither completed nor failed, as change messages, in transaction order
    then mutation order. *)
Definition is_live (transaction : Transaction) : bool :=
  bool_decide (state transaction ≠ completed) &&
  bool_decide (state transaction ≠ failed).

Definition to_message (mutation : PendingMutation) : ChangeMessage :=
  {| type := m_type mutation;
     key := m_key mutation;
     value := modified mutation;
     metadata := m_metadata mutation |}.

Definition optimisticOperations (transactions : list Transaction) : list ChangeMessage :=
  concat ((λ transaction, to_message <$> mutations transaction)
            <$> filter (λ transaction, is_live transaction = true) transactions).

(** One turn of the loop of [derivedState]; [n] counts the objects created.
    An update reads the existing value from [syncedData], not from
    [combined]. *)
Definition apply_operation (syncedData : JsMap.t Obj)
    (acc : JsMap.t Obj * nat) (operation : ChangeMessage) : JsMap.t Obj * nat :=
  let '(combined, n) := acc in
  match type operation with
  | OpInsert => (JsMap.set (key operation) (value operation) combined, n)
  | OpUpdate =>
      let existingValue := JsMap.get (key operation) syncedData in
      (JsMap.set (key operation)
         (mkObj (NewId n) (spread (or_empty existingValue) (fields (value operation))))
         combined, S n)
  | OpDelete => (JsMap.delete (key operation) combined, n)
  end.

(** [set.add(k)] on a [Set<string>], which iterates in insertion order. *)
Definition set_add (ks : list Key) (k : Key) : list Key :=
  if decide (k ∈ ks) then ks else ks ++ [k].

Definition key_set (operations : list ChangeMessage) : list Key :=
  fold_left set_add (key <$> operations) [].

(** [if (m.has(key)) objectKeyMap.set(m.get(key), key)]. *)
Definition register (m : JsMap.t Obj) (okm : gmap ObjId Key) (k : Key) : gmap ObjId Key :=
  match JsMap.get k m with
  | Some o => <[oid o := k]> okm
  | None => okm
  end.

(** The function of the [derivedState] store: the combined map, the object
    counter and the identity map after the run. *)
Definition derivedState_fn (syncedData : JsMap.t Obj) (operations : list ChangeMessage)
    (n : nat) (okm : gmap ObjId Key) : JsMap.t Obj * nat * gmap ObjId Key :=
  let '(combined, n') := fold_left (apply_operation syncedData) operations (syncedData, n) in
  let optimisticKeys := key_set operations in
  (combined, n', fold_left (register combined) optimisticKeys okm).

(** The store recomputes when [syncedData] or the transactions are set. *)
Definition recompute (c : Collection) : Collection :=
  let '(combined, n, okm) :=
    derivedState_fn (syncedData c) (optimisticOperations (transactions c))
      (nextOid c) (objectKeyMap c) in
  set_derivedState combined (set_objectKeyMap okm (set_nextOid n c)).

(** The getters [state], [toArray], [derivedArray]. *)
Definition get_state (c : Collection) : JsMap.t Obj := derivedState c.

Definition toArray (c : Collection) : list Obj := JsMap.values (derivedState c).

(** ** Merging the synced transactions *)

Definition isNotTerminalState (transaction : Transaction) : bool :=
  negb (bool_decide (state transaction ∈ [completed; failed])).

(** The condition of the [if] in [commitPendingTransactions]. *)
Definition merge_permitted (c : Collection) : bool :=
  bool_decide (length (transactions c) = 0) ||
  negb (existsb isNotTerminalState (transactions c)).

Definition apply_synced_metadata (prevData : JsMap.t (option Fields))
    (operation : ChangeMessage) : JsMap.t (option Fields) :=
  match type operation with
  | OpInsert => JsMap.set (key operation) (metadata operation) prevData
  | OpUpdate =>
      JsMap.set (key operation)
        (Some (spread (default ∅ (mjoin (JsMap.get (key operation) prevData)))
                      (default ∅ (metadata operation))))
        prevData
  | OpDelete => JsMap.delete (key operation) prevData
  end.

Definition apply_synced_data (acc : JsMap.t Obj * nat) (operation : ChangeMessage)
    : JsMap.t Obj * nat :=
  let '(prevData, n) := acc in
  match type operation with
  | OpInsert => (JsMap.set (key operation) (value operation) prevData, n)
  | OpUpdate =>
      (JsMap.set (key operation)
         (mkObj (NewId n)
            (spread (or_empty (JsMap.get (key operation) prevData))
                    (fields (value operation))))
         prevData, S n)
  | OpDelete => (JsMap.delete (key operation) prevData, n)
  end.

(** The body of the inner loop: the key set, the metadata and the data. *)
Definition merge_operation
    (acc : list Key * JsMap.t (option Fields) * (JsMap.t Obj * nat))
    (operation : ChangeMessage)
    : list Key * JsMap.t (option Fields) * (JsMap.t Obj * nat) :=
  let '(keys, md, sd) := acc in
  (set_add keys (key operation),
   apply_synced_metadata md operation,
   apply_synced_data sd operation).

Definition merge_transaction
    (acc : list Key * JsMap.t (option Fields) * (JsMap.t Obj * nat))
    (transaction : PendingSyncedTransaction)
    : list Key * JsMap.t (option Fields) * (JsMap.t Obj * nat) :=
  fold_left merge_operation (operations transaction) acc.

(** [callback()] for a callback of [onFirstCommitCallbacks]: the call is
    recorded in the trace, and a callback that throws does so. *)
Definition call (callback : Callback) : M unit :=
  modify (λ c, set_firedCallbacks (firedCallbacks c ++ [callback]) c) ;;;
  match callback with
  | ThrowingCallback n => throw (CallbackError n)
  | UserCallback _ | ResolveState | ResolveArray => ret tt
  end.

(** The merge.  The callbacks of the first commit are called last, when the
    flag is set and the list is already empty, with nothing to catch what
    they throw: the first callback that throws ends the loop and the call. *)
Definition commitPendingTransactions : M unit := λ c,
  if merge_permitted c then
    let '(keys, md, (sd, n)) :=
      fold_left merge_transaction (pendingSyncedTransactions c)
        ([], syncedMetadata c, (syncedData c, nextOid c)) in
    let c1 := set_syncedMetadata md (set_syncedData sd (set_nextOid n c)) in
    (* the batch ends: [derivedState] recomputes if [syncedData] was set *)
    let c2 :=
      if bool_decide (concat (operations <$> pendingSyncedTransactions c) = [])
      then c1 else recompute c1 in
    let c3 := set_objectKeyMap (fold_left (register (get_state c2)) keys (objectKeyMap c2)) c2 in
    let c4 := set_pendingSyncedTransactions [] c3 in
    if hasReceivedFirstCommit c4 then ret tt c4
    else
      let callbacks := onFirstCommitCallbacks c4 in
      forEach call callbacks
        (set_onFirstCommitCallbacks [] (set_hasReceivedFirstCommit true c4))
  else ret tt c.

(** ** The callbacks handed to the sync source *)

(** The last element of a list replaced by its image. *)
Fixpoint map_last {A} (f : A → A) (l : list A) : list A :=
  match l with
  | [] => []
  | [x] => [f x]
  | x :: l' => x :: map_last f l'
  end.

(** [pendingTransaction.committed = true]. *)
Definition mark_committed (t : PendingSyncedTransaction) : PendingSyncedTransaction :=
  mkPendingSyncedTransaction true (operations t).

(** [pendingTransaction.operations.push(message)]. *)
Definition push_operation (message : ChangeMessage) (t : PendingSyncedTransaction)
    : PendingSyncedTransaction :=
  mkPendingSyncedTransaction (committed t) (operations t ++ [message]).

Definition begin : M unit :=
  modify (λ c, set_pendingSyncedTransactions
                 (pendingSyncedTransactions c ++ [mkPendingSyncedTransaction false []]) c).

Definition write (message : ChangeMessage) : M unit :=
  pendingTransaction <- gets (λ c, list.last (pendingSyncedTransactions c)) ;;
  match pendingTransaction with
  | None => throw NoPendingSyncTransactionToWrite
  | Some pendingTransaction =>
      if committed pendingTransaction then throw AlreadyCommittedCannotWrite
      else
        modify (λ c, set_pendingSyncedTransactions
          (map_last (push_operation message) (pendingSyncedTransactions c)) c)
  end.

Definition commit : M unit :=
  pendingTransaction <- gets (λ c, list.last (pendingSyncedTransactions c)) ;;
  match pendingTransaction with
  | None => throw NoPendingSyncTransactionToCommit
  | Some pendingTransaction =>
      if committed pendingTransaction then throw AlreadyCommittedCannotCommit
      else
        modify (λ c, set_pendingSyncedTransactions
          (map_last mark_committed (pendingSyncedTransactions c)) c) ;;;
        commitPendingTransactions
  end.

Definition onFirstCommit (callback : Callback) : M unit :=
  modify (λ c, set_onFirstCommitCallbacks (onFirstCommitCallbacks c ++ [callback]) c).

(** ** The transaction manager *)

Module TransactionManager.

(** Modelled from the spec: [./TransactionManager], whose source is not
    available.  A change of the transaction set makes the derived stores
    recompute, and "merge is retried whenever the transaction set changes".
    What the manager does with an exception of a first-commit callback called
    by that merge is not specified: the collection is left as the call of
    [commitPendingTransactions] leaves it. *)
Definition transactions_changed : M unit :=
  modify recompute ;;; modify (exec commitPendingTransactions).

(** Modelled from the spec: [applyTransaction(mutations, {type: ordered})]
    "creates the Transaction in pending" and "immediately (synchronously,
    before returning) makes it visible to the overlay"; transactions are kept
    in creation order. *)
Definition applyTransaction (mutations : list PendingMutation) : M Transaction :=
  let transaction := mkTransaction pending mutations in
  modify (λ c, set_transactions (transactions c ++ [transaction]) c) ;;;
  transactions_changed ;;;
  ret transaction.

(** Modelled from the spec: the state machine pending → persisting →
    completed | failed; "a transaction is immutable once it reaches completed
    or failed". *)
Definition may_move (from to : TransactionState) : bool :=
  match from, to with
  | pending, persisting | persisting, completed | persisting, failed => true
  | _, _ => false
  end.

(** Modelled from the spec: the state of the [i]-th transaction moves when the
    persistence function is called, resolves or rejects. *)
Definition setTransactionState (i : nat) (newState : TransactionState) : M unit :=
  txs <- gets transactions ;;
  match txs !! i with
  | Some transaction =>
      if may_move (state transaction) newState then
        modify (set_transactions
                  (<[i := mkTransaction newState (mutations transaction)]> txs)) ;;;
        transactions_changed
      else ret tt
  | None => ret tt
  end.

(** Modelled from the spec: transactions are "removed from the live set on
    reaching a terminal state"; the collection still filters terminal
    transactions, so the removal is a separate, later step. *)
Definition forgetTransaction (i : nat) : M unit :=
  txs <- gets transactions ;;
  match txs !! i with
  | Some transaction =>
      if is_live transaction then ret tt
      else
        modify (set_transactions (take i txs ++ drop (S i) txs)) ;;;
        transactions_changed
  | None => ret tt
  end.

End TransactionManager.

(** ** The change-tracking proxies *)

Module Proxy.

(** Modelled from the spec: [./proxy], whose source is not available.  The
    tracker "returns an object containing only the top-level fields that
    differ from baseline"; the mutator is the function from the baseline to
    the fields of the draft when it returns. *)
Definition diff (baseline mutated : Fields) : Fields :=
  filter (λ kv, baseline !! kv.1 ≠ Some kv.2) mutated.

(** Modelled from the spec: the tracker of a single record,
    [trackSingle(baseline, mutator)] in the spec. *)
Definition withChangeTracking (baseline : Fields) (callback : Fields → Fields) : Fields :=
  diff baseline (callback baseline).

(** Modelled from the spec: "one diff per baseline, in the same order, with
    null/absent entries for baselines the mutator did not touch". *)
Definition withArrayChangeTracking (baselines : list Fields)
    (callback : list Fields → list Fields) : list (option Fields) :=
  let mutated := callback baselines in
  imap (λ i baseline,
          match mutated !! i with
          | Some m => if decide (m = baseline) then None else Some (diff baseline m)
          | None => None
          end) baselines.

End Proxy.

(** ** The schema gate *)

Definition ensureStandardSchema (s : Schema) : M (Obj → ValidationResult) :=
  match s with
  | StandardSchema validate => ret validate
  | NotStandardSchema => throw SchemaNotStandard
  end.

(** The tail of [validateData]: the data validated as it is; the value of the
    result is returned. *)
Definition validate_directly (validate : Obj → ValidationResult) (data : Obj)
    (type : OperationType) : M Obj :=
  match validate data with
  | VPromise => throw ValidationMustBeSynchronous
  | VIssues issues => throw (SchemaValidationError type issues)
  | VOk v => ret v
  end.

(** [key] is the optional third argument; the empty string is falsy. *)
Definition validateData (data : Obj) (type : OperationType) (key : option Key) : M Obj :=
  cfg <- gets config ;;
  match schema cfg with
  | None => ret data
  | Some s =>
      validate <- ensureStandardSchema s ;;
      existingData <- gets (λ c,
        match type, key with
        | OpUpdate, Some k => if decide (k = "") then None else JsMap.get k (get_state c)
        | _, _ => None
        end) ;;
      match existingData with
      | Some existingData =>
          mergedData <- alloc (spread (fields existingData) (fields data)) ;;
          match validate mergedData with
          | VPromise => throw ValidationMustBeSynchronous
          | VIssues issues => throw (SchemaValidationError type issues)
          | VOk _ => ret data
          end
      | None => validate_directly validate data type
      end
  end.

(** ** Key generation *)

(** [x | 0]. *)
Definition to_int32 (z : Z) : Z := ((z + 2 ^ 31) mod 2 ^ 32 - 2 ^ 31)%Z.

(** [h = (Math.imul(31, h) + str.charCodeAt(i)) | 0] over the code units. *)
Definition hash_code_units (str : list Z) : Z :=
  fold_left (λ h code, to_int32 (to_int32 (31 * h) + code)%Z) str 0%Z.

Definition digit36 (d : Z) : string :=
  String.substring (Z.to_nat d) 1 "0123456789abcdefghijklmnopqrstuvwxyz".

(** [n.toString(36)] for an integer [0 ≤ n]; six digits reach [2^31]. *)
Fixpoint toString36_aux (fuel : nat) (n : Z) (acc : string) : string :=
  match fuel with
  | O => acc
  | S fuel' =>
      let acc' := digit36 (n mod 36) +:+ acc in
      if (n <? 36)%Z then acc' else toString36_aux fuel' (n / 36)%Z acc'
  end.

Definition toString36 (n : Z) : string := toString36_aux 7 n "".

(** ** Arguments of the mutation methods *)

(** [T | Array<T>]. *)
Inductive OneOrMany (A : Type) :=
  | One (a : A)
  | Many (l : list A).
Arguments One {A} a.
Arguments Many {A} l.

Definition as_array {A} (x : OneOrMany A) : list A :=
  match x with One a => [a] | Many l => l end.

(** [config.key] of [insert]: absent, a string, or an array that may have
    holes. *)
Inductive InsertKey :=
  | NoKey
  | KeyString (k : Key)
  | KeyArray (ks : list (option Key)).

Record InsertConfig := mkInsertConfig {
  insert_key : InsertKey;
  insert_metadata : option Fields;
}.

(** The arguments of [update]: one item with its mutator, or an array of
    items with a mutator of the array of drafts. *)
Inductive UpdateTarget :=
  | UpdateOne (item : Obj) (callback : Fields → Fields)
  | UpdateMany (items : list Obj) (callback : list Fields → list Fields).

(** An argument of [delete]: a record or a key. *)
Inductive DeleteItem :=
  | ItemObject (o : Obj)
  | ItemKey (k : Key).

(** What a [...WhenReady] call gives back: a promise already resolved, or one
    that the first commit resolves. *)
Inductive Ready (A : Type) :=
  | Resolved (a : A)
  | Waiting.
Arguments Resolved {A} a.
Arguments Waiting {A}.

(** ** The mutation methods *)

Definition require_mutationFn : M unit :=
  cfg <- gets config ;;
  if mutationFn cfg then ret tt else throw MutationFnMissing.

(** [this.objectKeyMap.get(item)], or the error of [update] and [delete]. *)
Definition resolve_item (item : Obj) : M Key :=
  okm <- gets objectKeyMap ;;
  match okm !! oid item with
  | Some k => ret k
  | None => throw ObjectNotFoundInCollection
  end.

(** [this.state.get(key) || {}]. *)
Definition state_or_new (k : Key) : M Obj :=
  existing <- gets (λ c, JsMap.get k (get_state c)) ;;
  match existing with
  | Some o => ret o
  | None => alloc ∅
  end.

(** [this.syncedMetadata.state.get(key) || {}]. *)
Definition syncMetadata_of (k : Key) : M Fields :=
  gets (λ c, default ∅ (mjoin (JsMap.get k (syncedMetadata c)))).

Section with_stringify.

(** [JSON.stringify(data)] as UTF-16 code units: a built-in that depends on
    the order of the fields, which the model does not keep. *)
Variable JSON_stringify : Obj → list Z.

Definition generateKey (data : Obj) : string :=
  toString36 (Z.abs (hash_code_units (JSON_stringify data))).

(** The [keys] array of [insert]. *)
Definition insert_keys (items : list Obj) (k : InsertKey) : M (list Key) :=
  match k with
  | KeyString "" | NoKey => ret (generateKey <$> items)
  | KeyString k =>
      ret (imap (λ i item, default (generateKey item) ([k] !! i)) items)
  | KeyArray configKeys =>
      if bool_decide (length items < length configKeys) then throw MoreKeysThanItems
      else ret (imap (λ i item, default (generateKey item) (mjoin (configKeys !! i))) items)
  end.

Definition insert_mutation (cfg : InsertConfig) (item_key : Obj * Key) : M PendingMutation :=
  let '(item, k) := item_key in
  validatedData <- validateData item OpInsert None ;;
  original <- alloc ∅ ;;
  smd <- gets (λ c, from_option (λ s, default ∅ (getSyncMetadata s)) ∅ (sync (config c))) ;;
  ret {| original := original;
         modified := validatedData;
         changes := validatedData;
         m_key := k;
         m_metadata := insert_metadata cfg;
         syncMetadata := smd;
         m_type := OpInsert |}.

Definition insert (data : OneOrMany Obj) (cfg : InsertConfig) : M Transaction :=
  require_mutationFn ;;;
  let items := as_array data in
  keys <- insert_keys items (insert_key cfg) ;;
  mutations <- mapM (insert_mutation cfg) (zip items keys) ;;
  TransactionManager.applyTransaction mutations.

End with_stringify.

(** The callback of [keys.map] in [update]: [None] for an item without
    changes. *)
Definition update_mutation (md : option Fields) (key_changes : Key * option Obj)
    : M (option PendingMutation) :=
  let '(k, changes) := key_changes in
  match changes with
  | None => ret None
  | Some changes =>
      if decide (fields changes = ∅) then ret None
      else
        validatedData <- validateData changes OpUpdate (Some k) ;;
        original <- state_or_new k ;;
        existing <- gets (λ c, JsMap.get k (get_state c)) ;;
        modified <- alloc (spread (or_empty existing) (fields validatedData)) ;;
        smd <- syncMetadata_of k ;;
        ret (Some {| original := original;
                     modified := modified;
                     changes := validatedData;
                     m_key := k;
                     m_metadata := md;
                     syncMetadata := smd;
                     m_type := OpUpdate |})
  end.

(** The objects that the proxies hand back. *)
Definition alloc_changes (changes : option Fields) : M (option Obj) :=
  match changes with
  | Some f => o <- alloc f ;; ret (Some o)
  | None => ret None
  end.

(** [Array.isArray(items) ? items : [items]]. *)
Definition itemsArray (target : UpdateTarget) : list Obj :=
  match target with UpdateOne item _ => [item] | UpdateMany items _ => items end.

(** [keys.map((key) => ({ ...(this.state.get(key) || {}) }))]: the baselines
    handed to the proxies. *)
Definition currentObjects (c : Collection) (keys : list Key) : list Fields :=
  (λ k, or_empty (JsMap.get k (get_state c))) <$> keys.

(** The fields of [changesArray]: the array tracker for an array of items,
    the single tracker on [currentObjects[0]] otherwise. *)
Definition tracked_changes (target : UpdateTarget) (baselines : list Fields)
    : list (option Fields) :=
  match target with
  | UpdateMany _ callback => Proxy.withArrayChangeTracking baselines callback
  | UpdateOne _ callback =>
      (λ baseline, Some (Proxy.withChangeTracking baseline callback)) <$> take 1 baselines
  end.

Definition update (target : UpdateTarget) (md : option Fields) : M Transaction :=
  require_mutationFn ;;;
  keys <- mapM resolve_item (itemsArray target) ;;
  baselines <- gets (λ c, currentObjects c keys) ;;
  changesArray <- mapM alloc_changes (tracked_changes target baselines) ;;
  mutations <- mapM (update_mutation md)
                 (imap (λ i k, (k, mjoin (changesArray !! i))) keys) ;;
  let mutations := omap id mutations in
  if bool_decide (length mutations = 0) then throw NoChangesWereMade
  else TransactionManager.applyTransaction mutations.

(** [{ _deleted: true }]. *)
Definition tombstone : Fields := {[ "_deleted" := VBool true ]}.

Definition delete_mutation (md : option Fields) (item : DeleteItem) : M PendingMutation :=
  k <- match item with
       | ItemObject o => resolve_item o
       | ItemKey k => ret k
       end ;;
  original <- state_or_new k ;;
  modified <- alloc tombstone ;;
  changes <- alloc tombstone ;;
  smd <- syncMetadata_of k ;;
  ret {| original := original;
         modified := modified;
         changes := changes;
         m_key := k;
         m_metadata := md;
         syncMetadata := smd;
         m_type := OpDelete |}.

(** [const curValue = this.state.get(mutation.key);
     if (curValue) this.objectKeyMap.delete(curValue)]. *)
Definition forget_current (c : Collection) (mutation : PendingMutation) : Collection :=
  match JsMap.get (m_key mutation) (get_state c) with
  | Some curValue => set_objectKeyMap (base.delete (oid curValue) (objectKeyMap c)) c
  | None => c
  end.

Definition delete (items : OneOrMany DeleteItem) (md : option Fields) : M Transaction :=
  require_mutationFn ;;;
  mutations <- mapM (delete_mutation md) (as_array items) ;;
  modify (λ c, fold_left forget_current mutations c) ;;;
  TransactionManager.applyTransaction mutations.

(** ** Waiting for the first commit *)

Definition stateWhenReady : M (Ready (JsMap.t Obj)) :=
  ready <- gets (λ c, bool_decide (0 < JsMap.size (get_state c)) || hasReceivedFirstCommit c) ;;
  if ready : bool then st <- gets get_state ;; ret (Resolved st)
  else onFirstCommit ResolveState ;;; ret Waiting.

Definition toArrayWhenReady : M (Ready (list Obj)) :=
  ready <- gets (λ c, bool_decide (0 < length (toArray c)) || hasReceivedFirstCommit c) ;;
  if ready : bool then a <- gets toArray ;; ret (Resolved a)
  else onFirstCommit ResolveArray ;;; ret Waiting.

(** ** Construction *)

(** The collection at the end of the constructor, before the sync source
    has called anything. *)
Definition new_collection (cfg : CollectionConfig) : Collection :=
  {| transactions := [];
     syncedData := JsMap.empty;
     syncedMetadata := JsMap.empty;
     pendingSyncedTransactions := [];
     hasReceivedFirstCommit := false;
     objectKeyMap := ∅;
     onFirstCommitCallbacks := [];
     derivedState := JsMap.empty;
     config := cfg;
     nextOid := 0;
     firedCallbacks := [] |}.

Definition constructor (cfg : option CollectionConfig) : Outcome Collection :=
  match cfg with
  | Some cfg =>
      match sync cfg with
      | Some _ => Returned (new_collection cfg)
      | None => Thrown CollectionRequiresSyncConfig
      end
  | None => Thrown CollectionRequiresSyncConfig
  end.

(** ** The collection as a transition system *)

(** What can happen to a collection: calls of the sync source, calls of the
    application, and moves of the transaction manager. *)
Inductive Event :=
  | EBegin
  | EWrite (message : ChangeMessage)
  | ECommit
  | EOnFirstCommit (callback : nat)
  | EOnFirstCommitThrowing (callback : nat)
  | EInsert (data : OneOrMany Obj) (cfg : InsertConfig)
  | EUpdate (target : UpdateTarget) (md : option Fields)
  | EDelete (items : OneOrMany DeleteItem) (md : option Fields)
  | EStateWhenReady
  | EToArrayWhenReady
  | ECommitPendingTransactions
  | ESetTransactionState (i : nat) (newState : TransactionState)
  | EForgetTransaction (i : nat).

Section transition_system.

Variable JSON_stringify : Obj → list Z.

Definition step (c : Collection) (e : Event) : Collection :=
  match e with
  | EBegin => exec begin c
  | EWrite message => exec (write message) c
  | ECommit => exec commit c
  | EOnFirstCommit callback => exec (onFirstCommit (UserCallback callback)) c
  | EOnFirstCommitThrowing callback => exec (onFirstCommit (ThrowingCallback callback)) c
  | EInsert data cfg => exec (insert JSON_stringify data cfg) c
  | EUpdate target md => exec (update target md) c
  | EDelete items md => exec (delete items md) c
  | EStateWhenReady => exec stateWhenReady c
  | EToArrayWhenReady => exec toArrayWhenReady c
  | ECommitPendingTransactions => exec commitPendingTransactions c
  | ESetTransactionState i newState =>
      exec (TransactionManager.setTransactionState i newState) c
  | EForgetTransaction i => exec (TransactionManager.forgetTransaction i) c
  end.

Definition run (events : list Event) (c : Collection) : Collection :=
  fold_left step events c.

(** The states a collection built with [cfg] can be in. *)
Definition reachable (cfg : CollectionConfig) (c : Collection) : Prop :=
  ∃ c0 events, constructor (Some cfg) = Returned c0 ∧ run events c0 = c.

End transition_system.

(** ** Preloading: the store of collections *)

(** [m.has(k)]. *)
Definition has {A} (k : Key) (m : JsMap.t A) : bool :=
  bool_decide (is_Some (JsMap.get k m)).

(** The promise created by [preloadCollection] for the first commit of the
    collection stored under [promise_collection]; [promise_resolved] tells
    whether [resolveFirstCommit] has been called.  A resolved promise holds
    that collection. *)
Record FirstCommitPromise := mkFirstCommitPromise {
  promise_collection : Key;
  promise_resolved : bool;
}.

(** The module state: [collectionsStore] (collections are mutable objects,
    the store holds the current state of each under its config id),
    [loadingCollections] (config id to promise, promises being numbered in
    the order of their creation) and the promises created so far. *)
Record Registry := mkRegistry {
  collectionsStore : JsMap.t Collection;
  loadingCollections : JsMap.t nat;
  promises : list FirstCommitPromise;
}.

Definition empty_registry : Registry :=
  {| collectionsStore := JsMap.empty; loadingCollections := JsMap.empty; promises := [] |}.

(** What [preloadCollection] returns: [Promise.resolve(collection)] for the
    collection stored under the id, or a promise of [loadingCollections]. *)
Inductive Preloaded :=
  | ResolvedWith (id : Key)
  | FirstCommit (promise : nat).

(** The listener that [preloadCollection] registers with [onFirstCommit]: it
    is the callback numbered by the promise that it resolves. *)
Definition firstCommitListener (id : Key) (promise : nat) (r : Registry) : Registry :=
  if has id (loadingCollections r) then
    {| collectionsStore := collectionsStore r;
       loadingCollections := JsMap.delete id (loadingCollections r);
       promises := <[promise := mkFirstCommitPromise id true]> (promises r) |}
  else r.

(** [preloadCollection(config)], with [id] for [config.id].  [start] is what
    [config.sync.sync] does to the new collection before it returns, inside
    the constructor: the state it leaves, or the error it throws.  An error
    of the constructor leaves the store as it was.  After the third [if] the
    store holds the id, so the lookup marked [!] in the source finds the
    collection. *)
Definition preloadCollection (id : Key) (cfg : CollectionConfig)
    (start : Collection → Outcome Collection) (r : Registry) : Outcome Preloaded * Registry :=
  if has id (collectionsStore r) && negb (has id (loadingCollections r)) then
    (Returned (ResolvedWith id), r)
  else
    match JsMap.get id (loadingCollections r) with
    | Some promise => (Returned (FirstCommit promise), r)
    | None =>
        let created :=
          if negb (has id (collectionsStore r)) then
            match constructor (Some cfg) with
            | Returned c0 =>
                match start c0 with
                | Returned c1 => Returned (JsMap.set id c1 (collectionsStore r))
                | Thrown e => Thrown e
                end
            | Thrown e => Thrown e
            end
          else Returned (collectionsStore r) in
        match created with
        | Thrown e => (Thrown e, r)
        | Returned store =>
            match JsMap.get id store with
            | Some collection =>
                let promise := length (promises r) in
                (Returned (FirstCommit promise),
                 {| collectionsStore :=
                      JsMap.set id (exec (onFirstCommit (UserCallback promise)) collection) store;
                    loadingCollections := JsMap.set id promise (loadingCollections r);
                    promises := promises r ++ [mkFirstCommitPromise id false] |})
            | None => (Returned (FirstCommit (length (promises r))), r)
            end
        end
    end.

(** Something happens to the collection stored under [id] (a call of its sync
    source, of the application or of the transaction manager).  The callbacks
    that the collection calls on the way run when it calls them: a listener
    of [preloadCollection] for this collection does its work, other callbacks
    do nothing to the store. *)
Definition run_callback (id : Key) (r : Registry) (callback : Callback) : Registry :=
  match callback with
  | UserCallback promise =>
      match promises r !! promise with
      | Some p =>
          if decide (promise_collection p = id) then firstCommitListener id promise r else r
      | None => r
      end
  | _ => r
  end.

Section registry_events.

Variable JSON_stringify : Obj → list Z.

Definition collection_event (id : Key) (e : Event) (r : Registry) : Registry :=
  match JsMap.get id (collectionsStore r) with
  | Some c =>
      let c' := step JSON_stringify c e in
      let called := drop (length (firedCallbacks c)) (firedCallbacks c') in
      fold_left (run_callback id) called
        {| collectionsStore := JsMap.set id c' (collectionsStore r);
           loadingCollections := loadingCollections r;
           promises := promises r |}
  | None => r
  end.

Inductive RegistryEvent :=
  | Preload (id : Key) (cfg : CollectionConfig) (start : Collection → Outcome Collection)
  | OnCollection (id : Key) (e : Event).

Definition registry_step (r : Registry) (ev : RegistryEvent) : Registry :=
  match ev with
  | Preload id cfg start => (preloadCollection id cfg start r).2
  | OnCollection id e => collection_event id e r
  end.

Definition registry_run (events : list RegistryEvent) (r : Registry) : Registry :=
  fold_left registry_step events r.

End registry_events.

(** ** Views and reference definitions *)

(** Whether the callback throws when it is called. *)
Definition throws (callback : Callback) : bool :=
  match callback with ThrowingCallback _ => true | _ => false end.

(** The callbacks of a list that a [forEach] over it calls: those up to and
    including the first one that throws. *)
Fixpoint called_callbacks (callbacks : list Callback) : list Callback :=
  match callbacks with
  | [] => []
  | callback :: rest =>
      callback :: (if throws callback then [] else called_callbacks rest)
  end.

(** The fields of the records of a map, identities forgotten. *)
Definition view (m : JsMap.t Obj) : JsMap.t Fields := JsMap.map fields m.

Definition is_terminal (s : TransactionState) : Prop := s = completed ∨ s = failed.

#[global] Instance is_terminal_dec s : Decision (is_terminal s).
Proof. unfold is_terminal. apply _. Defined.

(** The pending mutations of the transactions that are not terminal, in
    transaction order then mutation order. *)
Definition live_mutations (txs : list Transaction) : list PendingMutation :=
  concat (mutations <$> filter (λ tx, ¬ is_terminal (state tx)) txs).

(** The overlay in the words of the specification: the mutations applied one
    after the other, an update merging into the record that the map being
    built holds for the key. *)
Definition spec_apply_mutation (overlay : JsMap.t Fields) (m : PendingMutation)
    : JsMap.t Fields :=
  match m_type m with
  | OpInsert => JsMap.set (m_key m) (fields (modified m)) overlay
  | OpUpdate =>
      JsMap.set (m_key m)
        (spread (default ∅ (JsMap.get (m_key m) overlay)) (fields (modified m)))
        overlay
  | OpDelete => JsMap.delete (m_key m) overlay
  end.

Definition spec_overlay (synced : JsMap.t Fields) (txs : list Transaction)
    : JsMap.t Fields :=
  fold_left spec_apply_mutation (live_mutations txs) synced.

(** The overlay as the code builds it: an update merges into the record that
    the synced dataset holds for the key. *)
Definition synced_base_apply (synced : JsMap.t Fields) (overlay : JsMap.t Fields)
    (m : PendingMutation) : JsMap.t Fields :=
  match m_type m with
  | OpInsert => JsMap.set (m_key m) (fields (modified m)) overlay
  | OpUpdate =>
      JsMap.set (m_key m)
        (spread (default ∅ (JsMap.get (m_key m) synced)) (fields (modified m)))
        overlay
  | OpDelete => JsMap.delete (m_key m) overlay
  end.

Definition synced_base_overlay (synced : JsMap.t Fields) (txs : list Transaction)
    : JsMap.t Fields :=
  fold_left (synced_base_apply synced) (live_mutations txs) synced.

(** No update mutation comes after another mutation of the same key. *)
Fixpoint updates_first (seen : list Key) (ms : list PendingMutation) : Prop :=
  match ms with
  | [] => True
  | m :: ms' =>
      (m_type m = OpUpdate → m_key m ∉ seen) ∧ updates_first (m_key m :: seen) ms'
  end.

(** The merge in the words of the specification, on fields. *)
Definition spec_merge_data (sd : JsMap.t Fields) (change : ChangeMessage) : JsMap.t Fields :=
  match type change with
  | OpInsert => JsMap.set (key change) (fields (value change)) sd
  | OpUpdate =>
      JsMap.set (key change)
        (spread (default ∅ (JsMap.get (key change) sd)) (fields (value change))) sd
  | OpDelete => JsMap.delete (key change) sd
  end.

Definition spec_merge_metadata (md : JsMap.t (option Fields)) (change : ChangeMessage)
    : JsMap.t (option Fields) :=
  match type change with
  | OpInsert => JsMap.set (key change) (metadata change) md
  | OpUpdate =>
      JsMap.set (key change)
        (Some (spread (default ∅ (mjoin (JsMap.get (key change) md)))
                      (default ∅ (metadata change)))) md
  | OpDelete => JsMap.delete (key change) md
  end.

(** The changes of a queue of buffers, in buffer order then in the order of
    each buffer. *)
Definition buffered_changes (buffers : list PendingSyncedTransaction) : list ChangeMessage :=
  concat (operations <$> buffers).

Definition all_terminal (txs : list Transaction) : Prop :=
  Forall (λ tx, is_terminal (state tx)) txs.

(** The number that a string of the digits [0-9a-z] denotes in base 36, as
    [parseInt(s, 36)] reads it back. *)
Definition digit_value (a : Ascii.ascii) : Z :=
  let n := Z.of_nat (Ascii.nat_of_ascii a) in
  if (n <? 58)%Z then (n - 48)%Z else (n - 87)%Z.

Fixpoint parseInt36_from (acc : Z) (s : string) : Z :=
  match s with
  | EmptyString => acc
  | String a s' => parseInt36_from (36 * acc + digit_value a)%Z s'
  end.

Definition parseInt36 (s : string) : Z := parseInt36_from 0 s.

(** The key that the caller gave for the item at index [i], if any: the
    empty key string counts as no key, a key string names the first item, an
    array names the items by position and may have holes. *)
Definition given_key (k : InsertKey) (i : nat) : option Key :=
  match k with
  | NoKey => None
  | KeyString k => if decide (k = "") then None else [k] !! i
  | KeyArray configKeys => mjoin (configKeys !! i)
  end.

(** The keys of a map in its iteration order. *)
Definition keys_of {A} (m : JsMap.t A) : list Key := m.*1.

(** What an operation of the given type on the key [k] does to the order of
    the keys of a [Map]: [set] keeps the place of a key that is present and
    puts a new key last, [delete] takes the key out. *)
Definition reorder (order : list Key) (type : OperationType) (k : Key) : list Key :=
  match type with
  | OpDelete => filter (λ k', k' ≠ k) order
  | _ => set_add order k
  end.

(** ** Predicates used in the statements *)

(** The buffers of the queue that are still open. *)
Definition open_buffers (c : Collection) : list PendingSyncedTransaction :=
  filter (λ t, committed t = false) (pendingSyncedTransactions c).

(** The fields stored as [changes] by the mutations of a returned
    transaction. *)
Definition stored_changes (r : Outcome Transaction) : list Fields :=
  match r with
  | Returned tx => (λ m, fields (changes m)) <$> mutations tx
  | Thrown _ => []
  end.

(** The records that an [update] changes: the key and the diff of every item
    whose diff is present and not empty, in the order of the items;
    [changesArray] holds the diffs by index. *)
Definition changed_of (pairs : list (Key * option Fields)) : list (Key * Fields) :=
  omap (λ key_changes : Key * option Fields,
          match key_changes.2 with
          | Some diff => if decide (diff = ∅) then None else Some (key_changes.1, diff)
          | None => None
          end) pairs.

Definition changed_records (keys : list Key) (changesArray : list (option Fields))
    : list (Key * Fields) :=
  changed_of (imap (λ i k, (k, mjoin (changesArray !! i))) keys).

(** The record onto which the schema gate merges the diff of the key [k]: the
    record that the overlay holds for the key, unless the key is the empty
    string. *)
Definition merge_base (c : Collection) (k : Key) : option Obj :=
  if decide (k = "") then None else JsMap.get k (get_state c).

(** The fields of the record that the schema gate is given for a changed
    record: the diff on top of the merge base, or the diff alone. *)
Definition gate_input (c : Collection) (record : Key * Fields) : Fields :=
  match merge_base c record.1 with
  | Some existing => spread (fields existing) record.2
  | None => record.2
  end.

(** The schema accepts, or rejects with the error [e], the record that the
    gate is given for a changed record. *)
Definition accepted (c : Collection) (validate : Obj → ValidationResult)
    (record : Key * Fields) : Prop :=
  ∃ o v, fields o = gate_input c record ∧ validate o = VOk v.

Definition rejected (c : Collection) (validate : Obj → ValidationResult)
    (record : Key * Fields) (e : Error) : Prop :=
  ∃ o, fields o = gate_input c record ∧
       match validate o with
       | VOk _ => False
       | VIssues issues => e = SchemaValidationError OpUpdate issues
       | VPromise => e = ValidationMustBeSynchronous
       end.

(** The pending mutation [m] is the one of a changed record that has passed
    the schema gate.  With a merge base the merged record was validated and
    the diff is stored as [changes]; without one the diff was validated as
    it is and the value that the schema returned is stored. *)
Definition gated (c : Collection) (validate : Obj → ValidationResult) (md : option Fields)
    (record : Key * Fields) (m : PendingMutation) : Prop :=
  m_key m = record.1 ∧ m_type m = OpUpdate ∧ m_metadata m = md ∧
  fields (original m) = or_empty (JsMap.get record.1 (get_state c)) ∧
  fields (modified m) =
    spread (or_empty (JsMap.get record.1 (get_state c))) (fields (changes m)) ∧
  match merge_base c record.1 with
  | Some existing =>
      (∃ o v, fields o = spread (fields existing) record.2 ∧ validate o = VOk v) ∧
      fields (changes m) = record.2
  | None => ∃ o, fields o = record.2 ∧ validate o = VOk (changes m)
  end.

(** The object exists: a caller made it, or the collection has already
    created it. *)
Definition allocated (c : Collection) (o : Obj) : Prop :=
  match oid o with
  | ExtId _ => True
  | NewId j => j < nextOid c
  end.

(** The keys that a transaction of [delete] removes. *)
Definition removed_keys (tx : Transaction) : list Key := m_key <$> mutations tx.

(** ** Invariants *)

(** A computation keeps [I], whether it returns or throws. *)
Definition preserves (I : Collection → Prop) {A} (m : M A) : Prop :=
  ∀ c, I c → I (m c).2.

(** The overlay held by the store is the one the synced dataset and the
    transactions determine. *)
Definition coherent (c : Collection) : Prop :=
  view (derivedState c) = synced_base_overlay (view (syncedData c)) (transactions c).

(** The first commit has happened and the trace of callbacks is [trace]. *)
Definition first_commit_done (trace : list Callback) (c : Collection) : Prop :=
  hasReceivedFirstCommit c = true ∧ firedCallbacks c = trace.

(** The callbacks in [registered] are still waiting in the list. *)
Definition still_registered (registered : list Callback) (c : Collection) : Prop :=
  registered `prefix_of` onFirstCommitCallbacks c.

(** The map that [derivedState] builds from the synced data and the
    transactions of [c] when the object counter is [n]. *)
Definition overlay_at (c : Collection) (n : nat) : JsMap.t Obj :=
  (fold_left (apply_operation (syncedData c)) (optimisticOperations (transactions c))
     (syncedData c, n)).1.

(** The [derivedState] store is up to date. *)
Definition derived (c : Collection) : Prop := ∃ n, derivedState c = overlay_at c n.

(** The identity map sends the identity [i] to a key under which the map [m]
    holds a record of that identity. *)
Definition in_place (m : JsMap.t Obj) (okm : gmap ObjId Key) (i : ObjId) : Prop :=
  ∃ k o, okm !! i = Some k ∧ JsMap.get k m = Some o ∧ oid o = i.

(** The record can be resolved in the overlay of [c]. *)
Definition tracked_in_place (c : Collection) (o : Obj) : Prop :=
  in_place (get_state c) (objectKeyMap c) (oid o).

(** A computation that throws has kept [I]. *)
Definition throws_in (I : Collection → Prop) {A} (m : M A) : Prop :=
  ∀ c e, I c → (m c).1 = Thrown e → I (m c).2.

(** Every record that the overlay shows under a key with a pending mutation
    can be resolved. *)
Definition resolvable (c : Collection) : Prop :=
  ∀ k o, k ∈ m_key <$> live_mutations (transactions c) →
         JsMap.get k (get_state c) = Some o → tracked_in_place c o.

(** The event is a call of [delete]. *)
Definition is_delete (e : Event) : bool :=
  match e with EDelete _ _ => true | _ => false end.

(** Every record of SyncedDataset and of the overlay has an entry in the
    identity map. *)
Definition all_tracked (c : Collection) : Prop :=
  ∀ k o, JsMap.get k (syncedData c) = Some o ∨ JsMap.get k (get_state c) = Some o →
         is_Some (objectKeyMap c !! oid o).

(** A computation that returns [a] has ended in a state that [J a] holds
    of. *)
Definition returns_in (I : Collection → Prop) {A} (J : A → Collection → Prop) (m : M A)
    : Prop :=
  ∀ c a, I c → (m c).1 = Returned a → J a (m c).2.

(** What a mutation call with the outcome [r] may have done to [c]: the
    stores and the queue of the sync side and the first-commit state are as
    before, and the transactions are as before or, if the call returned, have
    the returned transaction, pending, as their new last one. *)
Definition optimistic_only (c : Collection) (r : Outcome Transaction) (c' : Collection)
    : Prop :=
  syncedData c' = syncedData c ∧
  syncedMetadata c' = syncedMetadata c ∧
  pendingSyncedTransactions c' = pendingSyncedTransactions c ∧
  hasReceivedFirstCommit c' = hasReceivedFirstCommit c ∧
  onFirstCommitCallbacks c' = onFirstCommitCallbacks c ∧
  firedCallbacks c' = firedCallbacks c ∧
  config c' = config c ∧
  match r with
  | Returned tx => state tx = pending ∧ transactions c' = transactions c ++ [tx]
  | Thrown _ => transactions c' = transactions c
  end.

(** The states that differ from [c0] in the object counter and the identity
    map only. *)
Definition prepared (c0 c : Collection) : Prop :=
  ∃ n okm, c = set_objectKeyMap okm (set_nextOid n c0).

(** The states in which a transaction has been applied in a prepared state
    and has been returned as [tx]. *)
Definition applied (c0 : Collection) (tx : Transaction) (c' : Collection) : Prop :=
  ∃ c mutations,
    prepared c0 c ∧ TransactionManager.applyTransaction mutations c = (Returned tx, c').

(** The callbacks [registered] wait while the first commit has not happened,
    and have been called, in the order of the list and up to the first one
    that throws, once it has; [called] is the trace from before, and nothing
    is called behind a callback that throws. *)
Definition waiting_or_called (called registered : list Callback) (c : Collection) : Prop :=
  (hasReceivedFirstCommit c = false ∧ firedCallbacks c = called ∧
   registered `prefix_of` onFirstCommitCallbacks c) ∨
  (hasReceivedFirstCommit c = true ∧
   ∃ later, firedCallbacks c = called ++ called_callbacks registered ++ later ∧
            (forallb (λ callback, negb (throws callback)) registered = false → later = [])).

(** The trace [trace'] after the first commit, for a callback registered
    behind the callbacks [waiting] when the trace was [trace]: the callback
    has been called if none of [waiting] throws; if one of them throws, the
    trace ends with the first of them that does. *)
Definition called_behind (trace waiting : list Callback) (callback : Callback)
    (trace' : list Callback) : Prop :=
  (Forall (λ callback, throws callback = false) waiting → callback ∈ trace') ∧
  (∀ before thrower after,
     waiting = before ++ thrower :: after →
     Forall (λ callback, throws callback = false) before →
     throws thrower = true →
     trace' = trace ++ before ++ [thrower]).

(** Every promise was created for a collection of the store, and only the
    collections of the store are loading. *)
Definition registry_wf (r : Registry) : Prop :=
  (∀ promise p, promises r !! promise = Some p →
                has (promise_collection p) (collectionsStore r) = true) ∧
  (∀ id, has id (loadingCollections r) = true → has id (collectionsStore r) = true).

(** What the registry holds for the collection stored under [id] and its
    promise: the state of the collection, the entry of [loadingCollections]
    and whether the promise is resolved; no other promise is for [id]. *)
Definition holds (id : Key) (promise : nat) (c : Collection) (loading : option nat)
    (resolved : bool) (r : Registry) : Prop :=
  JsMap.get id (collectionsStore r) = Some c ∧
  JsMap.get id (loadingCollections r) = loading ∧
  promises r !! promise = Some (mkFirstCommitPromise id resolved) ∧
  ∀ q p, promises r !! q = Some p → promise_collection p = id → q = promise.






(** The first commit has happened without a call of the listener. *)
Definition preload_stuck (id : Key) (promise : nat) (r : Registry) : Prop :=
  ∃ c, holds id promise c (Some promise) false r ∧ hasReceivedFirstCommit c = true.

(** ** Example collections *)

Definition example_config : CollectionConfig :=
  {| sync := Some {| getSyncMetadata := None |}; mutationFn := true; schema := None |}.

(** [JSON.stringify] is irrelevant when every insert names its keys. *)
Definition no_stringify (o : Obj) : list Z := [].

Definition record_a1 : Obj := mkObj (ExtId 1) {[ "a" := VNum 1 ]}.

Definition record_x1 : Obj := mkObj (ExtId 2) {[ "x" := VNum 1 ]}.

Definition insert_k_a1 : ChangeMessage :=
  {| type := OpInsert; key := "k"; value := record_a1; metadata := None |}.

Definition delete_k : ChangeMessage :=
  {| type := OpDelete; key := "k"; value := record_a1; metadata := None |}.

(** A mutator that assigns one field of the draft. *)
Definition assign (field : string) (v : Value) (draft : Fields) : Fields :=
  <[field := v]> draft.

(** A collection after its first commit: [record_a1] synced under ["k"]. *)
Definition synced_once : Collection :=
  Eval vm_compute in
    run no_stringify [EBegin; EWrite insert_k_a1; ECommit] (new_collection example_config).

(** Two buffers opened one after the other; the first holds a change. *)
Definition two_open_buffers : Collection :=
  Eval vm_compute in
    run no_stringify [EBegin; EWrite insert_k_a1; EBegin] (new_collection example_config).

(** [synced_once] with a second buffer open and a pending update of the
    record. *)
Definition gated_collection : Collection :=
  Eval vm_compute in
    run no_stringify
      [EBegin; EWrite insert_k_a1;
       EUpdate (UpdateOne record_a1 (assign "a" (VNum 2))) None]
      synced_once.

(** [gated_collection] after a [commit()] that the pending update defers,
    with the update then in flight. *)
Definition deferred_collection : Collection :=
  Eval vm_compute in
    run no_stringify [ECommit; ESetTransactionState 0 persisting] gated_collection.

(** [gated_collection] once its update has failed. *)
Definition failed_collection : Collection :=
  Eval vm_compute in
    run no_stringify [ESetTransactionState 0 persisting; ESetTransactionState 0 failed]
      gated_collection.

(** [synced_once] with an update pending and a sync round open: [begin()]
    and one [write] for the key ["k2"], no [commit()] yet. *)
Definition insert_k2_x1 : ChangeMessage :=
  {| type := OpInsert; key := "k2"; value := record_x1; metadata := None |}.

Definition open_round : Collection :=
  Eval vm_compute in
    run no_stringify
      [EUpdate (UpdateOne record_a1 (assign "a" (VNum 2))) None;
       EBegin; EWrite insert_k2_x1]
      synced_once.

(** A record synced under ["k"]; another record inserted under the same key;
    the inserted record updated. *)
Definition insert_then_update_events : list Event :=
  [EBegin;
   EWrite {| type := OpInsert; key := "k"; value := record_x1; metadata := None |};
   ECommit;
   EInsert (One record_a1) {| insert_key := KeyString "k"; insert_metadata := None |};
   EUpdate (UpdateOne record_a1 (assign "b" (VNum 2))) None].

Definition insert_then_update : Collection :=
  Eval vm_compute in
    run no_stringify insert_then_update_events (new_collection example_config).


(** The record synced under ["k"]; a pending update of it; a delete through
    the reference first synced. *)
Definition stale_reference_events : list Event :=
  [EBegin; EWrite insert_k_a1; ECommit;
   EUpdate (UpdateOne record_a1 (assign "a" (VNum 2))) None;
   EDelete (One (ItemObject record_a1)) None].

Definition after_delete : Collection :=
  Eval vm_compute in run no_stringify stale_reference_events (new_collection example_config).

(** A second update through the same reference. *)
Definition after_second_update : Collection :=
  Eval vm_compute in
    step no_stringify after_delete
      (EUpdate (UpdateOne record_a1 (assign "b" (VNum 2))) None).

(** The transaction that [delete("k")] returns on [synced_once]. *)
Definition example_delete_tx : Transaction :=
  Eval vm_compute in
    match (delete (One (ItemKey "k")) None synced_once).1 with
    | Returned tx => tx
    | Thrown _ => mkTransaction failed []
    end.

(** A schema that accepts every record and fills in a default field. *)
Definition defaulting_schema : Schema :=
  StandardSchema (λ o, VOk (mkObj (oid o) (<["done" := VBool false]> (fields o)))).

Definition schema_config : CollectionConfig :=
  {| sync := Some {| getSyncMetadata := None |};
     mutationFn := true;
     schema := Some defaulting_schema |}.

(** With a schema: [record_a1] synced under ["k"]. *)
Definition synced_with_schema : Collection :=
  Eval vm_compute in
    run no_stringify [EBegin; EWrite insert_k_a1; ECommit] (new_collection schema_config).

(** With a schema: [record_a1] synced under ["k"], then removed by the sync
    source. *)
Definition removed_by_sync : Collection :=
  Eval vm_compute in
    run no_stringify [EBegin; EWrite delete_k; ECommit] synced_with_schema.

(** Two records synced under ["k"] and ["k2"], with a schema that adds the
    field [done] to what it validates. *)
Definition two_records : Collection :=
  Eval vm_compute in
    run no_stringify [EBegin; EWrite insert_k_a1; EWrite insert_k2_x1; ECommit]
      (new_collection schema_config).

(** An update of both records with one mutator of the array of drafts. *)
Definition update_both : UpdateTarget :=
  UpdateMany [record_a1; record_x1] (λ drafts, assign "b" (VNum 2) <$> drafts).

(** A callback of the caller, one that throws and one [stateWhenReady] wait
    for the first commit. *)
Definition throwing_collection : Collection :=
  Eval vm_compute in
    run no_stringify [EOnFirstCommit 7; EOnFirstCommitThrowing 8; EStateWhenReady]
      (new_collection example_config).

(** [synced_once] after [delete("k")] and the failure of that transaction. *)
Definition rolled_back_delete : Collection :=
  Eval vm_compute in
    run no_stringify
      [EDelete (One (ItemKey "k")) None;
       ESetTransactionState 0 persisting; ESetTransactionState 0 failed]
      synced_once.

(** Two records synced under ["k"] and ["k2"]; the first is deleted and a
    record is inserted under its key again. *)
Definition reordering_events : list Event :=
  [EBegin; EWrite insert_k_a1; EWrite insert_k2_x1; ECommit;
   EDelete (One (ItemKey "k")) None;
   EInsert (One record_a1) {| insert_key := KeyString "k"; insert_metadata := None |}].

Definition reordered_collection : Collection :=
  Eval vm_compute in run no_stringify reordering_events (new_collection example_config).

(** A sync source that commits one record before [sync()] returns. *)
Definition eager_start (c : Collection) : Outcome Collection :=
  Returned (run no_stringify [EBegin; EWrite insert_k_a1; ECommit] c).

(** A sync source that does nothing before [sync()] returns. *)
Definition lazy_start (c : Collection) : Outcome Collection := Returned c.

(** A schema that requires the field ["a"]. *)
Definition needs_a (o : Obj) : ValidationResult :=
  match fields o !! "a" with
  | Some _ => VOk o
  | None => VIssues [mkIssue "a is required" (Some ["a"])]
  end.

Definition needs_a_config : CollectionConfig :=
  {| sync := Some {| getSyncMetadata := None |};
     mutationFn := true;
     schema := Some (StandardSchema needs_a) |}.

(** * Proofs *)

(** ** Facts about insertion-ordered maps *)

Module JsMapFacts.
Import JsMap.

Section lemmas.
Context {A B : Type}.
Implicit Types (m : t A) (k : Key) (v : A).

Lemma get_set_eq k v m : get k (set k v m) = Some v.
Proof.
  induction m as [|[k' v'] m IH]; simpl.
  - by rewrite decide_True.
  - destruct (decide (k' = k)) as [->|Hne]; simpl.
    + by rewrite decide_True.
    + by rewrite decide_False.
Qed.

Lemma get_set_ne k k' v m : k ≠ k' → get k' (set k v m) = get k' m.
Proof.
  intros Hne. induction m as [|[k0 v0] m IH]; simpl.
  - by rewrite decide_False.
  - destruct (decide (k0 = k)) as [->|Hne0]; simpl.
    + by rewrite !decide_False.
    + destruct (decide (k0 = k')); auto.
Qed.

Lemma get_delete_eq k m : get k (delete k m) = None.
Proof.
  induction m as [|[k' v'] m IH]; simpl; [done|].
  destruct (decide (k' = k)) as [->|Hne]; simpl; [done|].
  by rewrite decide_False.
Qed.

Lemma get_delete_ne k k' m : k ≠ k' → get k' (delete k m) = get k' m.
Proof.
  intros Hne. induction m as [|[k0 v0] m IH]; simpl; [done|].
  destruct (decide (k0 = k)) as [->|Hne0]; simpl.
  - by rewrite decide_False.
  - destruct (decide (k0 = k')); auto.
Qed.

Lemma get_map (f : A → B) k m : get k (map f m) = f <$> get k m.
Proof.
  induction m as [|[k' v'] m IH]; simpl; [done|].
  destruct (decide (k' = k)); auto.
Qed.

Lemma map_set (f : A → B) k v m : map f (set k v m) = set k (f v) (map f m).
Proof.
  induction m as [|[k' v'] m IH]; simpl; [done|].
  destruct (decide (k' = k)); simpl; [done|]. by rewrite <- IH.
Qed.

Lemma map_delete (f : A → B) k m : map f (delete k m) = delete k (map f m).
Proof.
  induction m as [|[k' v'] m IH]; simpl; [done|].
  destruct (decide (k' = k)); simpl; [done|]. by rewrite <- IH.
Qed.

Lemma values_map (f : A → B) m : values (map f m) = f <$> values m.
Proof.
  unfold values, map. induction m as [|[k' v'] m IH]; simpl; [done|].
  by f_equal.
Qed.

End lemmas.

End JsMapFacts.

(** ** The model on small inputs *)

Example toString36_values :
  toString36 0 = "0" ∧ toString36 35 = "z" ∧ toString36 36 = "10" ∧
  toString36 2147483647 = "zik0zj" ∧ toString36 2147483648 = "zik0zk".
Proof. by vm_compute. Qed.

(** The code units of ["abc"]: the hash is that of Java's [String.hashCode]. *)
Example hash_code_units_abc : hash_code_units [97; 98; 99]%Z = 96354%Z.
Proof. reflexivity. Qed.

(** [JSON.stringify({a: 1})] is [{"a":1}]: the hash wraps to a negative
    number, whose absolute value is printed in base 36. *)
Example generateKey_wraps :
  let json := [123; 34; 97; 34; 58; 49; 125]%Z in
  hash_code_units json = (-1442153986)%Z ∧
  generateKey (λ _, json) record_a1 = "numd4y".
Proof. by vm_compute. Qed.

(** A committed buffer with one insert, no transaction: the record is read
    back, it is tracked, and the first commit is recorded. *)
Example round_trip :
  JsMap.get "k" (get_state synced_once) = Some record_a1 ∧
  objectKeyMap synced_once !! oid record_a1 = Some "k" ∧
  hasReceivedFirstCommit synced_once = true ∧
  pendingSyncedTransactions synced_once = [].
Proof. by vm_compute. Qed.

(** An insert without a key is filed under the generated key; the overlay
    shows it at once and SyncedDataset does not have it. *)
Example insert_is_optimistic :
  let c := exec (insert no_stringify (One record_a1)
                   {| insert_key := NoKey; insert_metadata := None |})
             (new_collection example_config) in
  JsMap.get "0" (get_state c) = Some record_a1 ∧
  syncedData c = [] ∧
  state <$> transactions c = [pending].
Proof. by vm_compute. Qed.

(** ** The merge gate *)

Lemma is_live_spec tx : is_live tx = true ↔ ¬ is_terminal (state tx).
Proof.
  unfold is_live, is_terminal. rewrite andb_true_iff, !bool_decide_eq_true. tauto.
Qed.

Lemma isNotTerminalState_spec tx :
  isNotTerminalState tx = true ↔ ¬ is_terminal (state tx).
Proof.
  unfold isNotTerminalState, is_terminal.
  rewrite negb_true_iff, bool_decide_eq_false.
  rewrite elem_of_cons, list_elem_of_singleton. tauto.
Qed.

Lemma merge_permitted_spec c :
  merge_permitted c = true ↔ transactions c = [] ∨ all_terminal (transactions c).
Proof.
  unfold merge_permitted, all_terminal.
  rewrite orb_true_iff, bool_decide_eq_true, negb_true_iff, Forall_forall.
  split.
  - intros [Hlen | Hno]; [left; by apply length_zero_iff_nil|].
    right. intros tx Hin. destruct (decide (is_terminal (state tx))); [done|].
    exfalso. apply not_true_iff_false in Hno. apply Hno.
    apply existsb_exists. exists tx. split; [first [done | by apply list_elem_of_In]|].
    by apply isNotTerminalState_spec.
  - intros [-> | Hall]; [by left|]. right. apply not_true_iff_false.
    intros (tx & Hin & Hnt)%existsb_exists.
    apply isNotTerminalState_spec in Hnt. apply Hnt, Hall.
    first [done | by apply list_elem_of_In].
Qed.

Lemma merge_gated c :
  Exists (λ tx, ¬ is_terminal (state tx)) (transactions c) →
  merge_permitted c = false.
Proof.
  intros Hex. apply not_true_iff_false. rewrite merge_permitted_spec.
  intros [Hnil | Hall].
  - rewrite Hnil in Hex. by apply Exists_nil in Hex.
  - apply Exists_exists in Hex as (tx & Hin & Hnt).
    apply Hnt. unfold all_terminal in Hall. rewrite Forall_forall in Hall. auto.
Qed.

(** ** Frame properties of the recomputation *)

Ltac unfold_recompute :=
  unfold recompute;
  repeat match goal with
  | |- context [derivedState_fn ?sd ?ops ?n ?okm] =>
      destruct (derivedState_fn sd ops n okm) as [[? ?] ?]
  end; simpl.

Lemma recompute_frame c :
  transactions (recompute c) = transactions c ∧
  syncedData (recompute c) = syncedData c ∧
  syncedMetadata (recompute c) = syncedMetadata c ∧
  pendingSyncedTransactions (recompute c) = pendingSyncedTransactions c ∧
  hasReceivedFirstCommit (recompute c) = hasReceivedFirstCommit c ∧
  onFirstCommitCallbacks (recompute c) = onFirstCommitCallbacks c ∧
  config (recompute c) = config c ∧
  firedCallbacks (recompute c) = firedCallbacks c.
Proof. unfold_recompute. repeat split. Qed.

(** ** The merge loop *)

Lemma fold_left_concat {A B} (f : A → B → A) (ls : list (list B)) (a : A) :
  fold_left (λ acc l, fold_left f l acc) ls a = fold_left f (concat ls) a.
Proof.
  revert a. induction ls as [|l ls IH]; intros a; simpl; [done|].
  by rewrite IH, fold_left_app.
Qed.

Lemma fold_merge_transaction pend acc :
  fold_left merge_transaction pend acc =
  fold_left merge_operation (buffered_changes pend) acc.
Proof.
  unfold buffered_changes, merge_transaction.
  rewrite <- fold_left_concat. revert acc.
  induction pend as [|t pend IH]; intros acc; simpl; [done|]. by rewrite IH.
Qed.

Lemma fold_merge_operation ops keys md sd :
  fold_left merge_operation ops (keys, md, sd) =
  (fold_left set_add (key <$> ops) keys,
   fold_left apply_synced_metadata ops md,
   fold_left apply_synced_data ops sd).
Proof.
  revert keys md sd. induction ops as [|op ops IH]; intros keys md sd; simpl; [done|].
  by rewrite IH.
Qed.

Lemma or_empty_view k (m : JsMap.t Obj) :
  or_empty (JsMap.get k m) = default ∅ (JsMap.get k (view m)).
Proof. unfold view. rewrite JsMapFacts.get_map. by destruct (JsMap.get k m). Qed.

Lemma view_apply_synced_data ops (sd : JsMap.t Obj) (n : nat) :
  view (fold_left apply_synced_data ops (sd, n)).1 =
  fold_left spec_merge_data ops (view sd).
Proof.
  revert sd n. induction ops as [|op ops IH]; intros sd n; simpl; [done|].
  unfold spec_merge_data at 2. destruct (type op); rewrite IH; f_equal; unfold view.
  - by rewrite JsMapFacts.map_set.
  - rewrite JsMapFacts.map_set. simpl. f_equal. by rewrite or_empty_view.
  - by rewrite JsMapFacts.map_delete.
Qed.

Lemma fold_no_operations pend acc :
  buffered_changes pend = [] → fold_left merge_transaction pend acc = acc.
Proof. intros H. by rewrite fold_merge_transaction, H. Qed.

(** ** The callbacks of the first commit *)

Lemma called_callbacks_all callbacks :
  Forall (λ callback, throws callback = false) callbacks →
  called_callbacks callbacks = callbacks.
Proof. induction 1 as [|callback rest H _ IH]; simpl; [done|]. by rewrite H, IH. Qed.

Lemma called_callbacks_until before callback after :
  Forall (λ callback, throws callback = false) before →
  throws callback = true →
  called_callbacks (before ++ callback :: after) = before ++ [callback].
Proof.
  intros Hbefore Hthrows. induction Hbefore as [|b before H _ IH]; simpl.
  - by rewrite Hthrows.
  - by rewrite H, IH.
Qed.

Lemma called_callbacks_app l1 l2 :
  called_callbacks (l1 ++ l2) =
  if forallb (λ callback, negb (throws callback)) l1
  then l1 ++ called_callbacks l2 else called_callbacks l1.
Proof.
  induction l1 as [|callback l1 IH]; simpl; [done|].
  destruct (throws callback); simpl; [done|].
  rewrite IH. by destruct (forallb _ l1).
Qed.

(** The state after the loop over the callbacks. *)
Lemma exec_forEach_call callbacks c :
  exec (forEach call callbacks) c =
  set_firedCallbacks (firedCallbacks c ++ called_callbacks callbacks) c.
Proof.
  revert c. induction callbacks as [|callback rest IH]; intros c.
  - simpl. rewrite app_nil_r. by destruct c.
  - specialize (IH (set_firedCallbacks (firedCallbacks c ++ [callback]) c)).
    unfold exec in *. cbn [forEach]. unfold bind at 1.
    destruct callback; simpl in *;
      rewrite ?IH; simpl; by rewrite <- ?app_assoc.
Qed.

(** The loop throws what the first throwing callback throws. *)
Lemma forEach_call_returns callbacks c :
  Forall (λ callback, throws callback = false) callbacks →
  (forEach call callbacks c).1 = Returned tt.
Proof.
  intros H. revert c. induction H as [|callback rest Hc _ IH]; intros c; [done|].
  cbn [forEach]. unfold bind at 1.
  destruct callback; try discriminate Hc; simpl; apply IH.
Qed.

Lemma forEach_call_throws before n after c :
  Forall (λ callback, throws callback = false) before →
  (forEach call (before ++ ThrowingCallback n :: after) c).1 = Thrown (CallbackError n).
Proof.
  intros H. revert c. induction H as [|callback rest Hc _ IH]; intros c; [done|].
  cbn [forEach app]. unfold bind at 1.
  destruct callback; try discriminate Hc; simpl; apply IH.
Qed.

(** The state after [commitPendingTransactions]. *)
Lemma exec_commitPendingTransactions c :
  exec commitPendingTransactions c =
  if merge_permitted c then
    let '(keys, md, (sd, n)) :=
      fold_left merge_transaction (pendingSyncedTransactions c)
        ([], syncedMetadata c, (syncedData c, nextOid c)) in
    let c1 := set_syncedMetadata md (set_syncedData sd (set_nextOid n c)) in
    let c2 :=
      if bool_decide (concat (operations <$> pendingSyncedTransactions c) = [])
      then c1 else recompute c1 in
    let c3 := set_objectKeyMap (fold_left (register (get_state c2)) keys (objectKeyMap c2)) c2 in
    let c4 := set_pendingSyncedTransactions [] c3 in
    if hasReceivedFirstCommit c4 then c4
    else
      set_firedCallbacks (firedCallbacks c4 ++ called_callbacks (onFirstCommitCallbacks c4))
        (set_onFirstCommitCallbacks [] (set_hasReceivedFirstCommit true c4))
  else c.
Proof.
  unfold exec, commitPendingTransactions.
  destruct (merge_permitted c); [|done].
  destruct (fold_left merge_transaction _ _) as [[keys md] [sd n]].
  cbv zeta. destruct (hasReceivedFirstCommit _) eqn:Hflag; [done|].
  match goal with |- (forEach call ?l ?c).2 = _ => apply (exec_forEach_call l c) end.
Qed.

(** What a permitted merge does to the synced stores and to the queue. *)
Lemma commitPendingTransactions_permitted c :
  merge_permitted c = true →
  let c' := exec commitPendingTransactions c in
  pendingSyncedTransactions c' = [] ∧
  view (syncedData c') =
    fold_left spec_merge_data (buffered_changes (pendingSyncedTransactions c))
      (view (syncedData c)) ∧
  syncedMetadata c' =
    fold_left spec_merge_metadata (buffered_changes (pendingSyncedTransactions c))
      (syncedMetadata c) ∧
  hasReceivedFirstCommit c' = true ∧
  transactions c' = transactions c.
Proof.
  intros Hgate. rewrite exec_commitPendingTransactions; cbv zeta. rewrite Hgate.
  rewrite fold_merge_transaction, fold_merge_operation.
  pose proof (view_apply_synced_data (buffered_changes (pendingSyncedTransactions c))
                (syncedData c) (nextOid c)) as Hview.
  destruct (fold_left apply_synced_data _ _) as [sd n] eqn:Hsd. simpl in Hview.
  fold (buffered_changes (pendingSyncedTransactions c)).
  set (c1 := set_syncedMetadata _ _).
  assert (Hc2 : ∀ c2, c2 = c1 ∨ c2 = recompute c1 →
    syncedData c2 = sd ∧
    syncedMetadata c2 = fold_left apply_synced_metadata
      (buffered_changes (pendingSyncedTransactions c)) (syncedMetadata c) ∧
    transactions c2 = transactions c).
  { intros c2 [-> | ->].
    - done.
    - destruct (recompute_frame c1) as (-> & -> & -> & _). done. }
  simpl. case_bool_decide.
  - destruct (Hc2 c1 (or_introl eq_refl)) as (H1 & H2 & H3).
    destruct (hasReceivedFirstCommit c) eqn:Hflag; simpl; rewrite ?Hflag; simpl; done.
  - destruct (Hc2 (recompute c1) (or_intror eq_refl)) as (H1 & H2 & H3).
    destruct (recompute_frame c1) as (_ & _ & _ & _ & Hf & _).
    simpl in Hf. rewrite Hf.
    destruct (hasReceivedFirstCommit c) eqn:Hflag; simpl; rewrite ?H1, ?H2, ?H3; done.
Qed.

Lemma commitPendingTransactions_gated c :
  merge_permitted c = false → exec commitPendingTransactions c = c.
Proof. intros H. rewrite exec_commitPendingTransactions; cbv zeta. by rewrite H. Qed.

(** ** C1: the merge is gated by the transactions *)

Lemma buffered_changes_map_last f l :
  (∀ t, operations (f t) = operations t) →
  buffered_changes (map_last f l) = buffered_changes l.
Proof.
  intros Hf. unfold buffered_changes. f_equal.
  induction l as [|t l IH]; [done|].
  destruct l as [|t' l]; [simpl; by rewrite Hf|].
  change (map_last f (t :: t' :: l)) with (t :: map_last f (t' :: l)).
  rewrite (fmap_cons _ t), IH. done.
Qed.

Lemma length_map_last {A} (f : A → A) l : length (map_last f l) = length l.
Proof.
  induction l as [|t l IH]; [done|].
  destruct l as [|t' l]; [done|].
  change (map_last f (t :: t' :: l)) with (t :: map_last f (t' :: l)).
  simpl in *. by rewrite IH.
Qed.

(** A gated [commit] changes nothing but the flag of the last buffer. *)
Lemma commit_gated c :
  merge_permitted c = false →
  exec commit c = c ∨
  exec commit c =
    set_pendingSyncedTransactions
      (map_last mark_committed (pendingSyncedTransactions c)) c.
Proof.
  intros Hgate. unfold exec, commit, bind, gets, modify, throw. simpl.
  destruct (list.last (pendingSyncedTransactions c)) as [t|]; simpl; [|by left].
  destruct (committed t); simpl; [by left|]. right.
  apply commitPendingTransactions_gated. by rewrite <- Hgate.
Qed.

(** C1. For every [commit()] of the sync source: the merge branch is taken
    exactly when the transaction set is empty or holds terminal transactions
    only; and if some transaction is not terminal, the commit leaves
    SyncedDataset and SyncedMetadata (and the overlay, and the first-commit
    state) as they were and every buffer stays in the queue with its
    changes. *)
Theorem commit_merge_gate (c : Collection) :
  (merge_permitted c = true ↔ transactions c = [] ∨ all_terminal (transactions c)) ∧
  (Exists (λ tx, ¬ is_terminal (state tx)) (transactions c) →
   let c' := exec commit c in
   syncedData c' = syncedData c ∧
   syncedMetadata c' = syncedMetadata c ∧
   length (pendingSyncedTransactions c') = length (pendingSyncedTransactions c) ∧
   buffered_changes (pendingSyncedTransactions c') =
     buffered_changes (pendingSyncedTransactions c) ∧
   derivedState c' = derivedState c ∧
   hasReceivedFirstCommit c' = hasReceivedFirstCommit c ∧
   firedCallbacks c' = firedCallbacks c).
Proof.
  split; [apply merge_permitted_spec|].
  intros Hex c'. subst c'.
  destruct (commit_gated c (merge_gated c Hex)) as [-> | ->]; [done|]. simpl.
  by rewrite length_map_last, buffered_changes_map_last.
Qed.

Lemma commit_merge_gate_witness :
  Exists (λ tx, ¬ is_terminal (state tx)) (transactions gated_collection) ∧
  syncedData (exec commit gated_collection) = syncedData gated_collection ∧
  length (pendingSyncedTransactions (exec commit gated_collection)) = 1.
Proof.
  assert (Hex : Exists (λ tx, ¬ is_terminal (state tx)) (transactions gated_collection)).
  { apply Exists_cons_hd. simpl. intros [H | H]; discriminate H. }
  split; [exact Hex|].
  destruct (commit_merge_gate gated_collection) as [_ H].
  destruct (H Hex) as (H1 & _ & H3 & _). split; [exact H1|].
  rewrite H3. reflexivity.
Defined.

(** ** C5: [begin] *)

(** C5 as stated fails: a second [begin()] while a buffer is open returns
    normally, and two uncommitted buffers are then queued. *)
Lemma begin_while_open_succeeds :
  let c := exec begin (new_collection example_config) in
  length (open_buffers c) = 1 ∧
  (begin c).1 = Returned tt ∧
  length (open_buffers (exec begin c)) = 2.
Proof. vm_compute. done. Qed.

(** C5, amended. [begin()] never fails: it appends a new open, empty buffer
    to the queue whatever the queue holds, so every call adds one to the
    number of uncommitted buffers. *)
Theorem begin_always_opens (c : Collection) :
  (begin c).1 = Returned tt ∧
  pendingSyncedTransactions (exec begin c) =
    (pendingSyncedTransactions c ++ [mkPendingSyncedTransaction false []])%list ∧
  length (open_buffers (exec begin c)) = S (length (open_buffers c)).
Proof.
  unfold exec, begin, modify, open_buffers. simpl. split; [done|]. split; [done|].
  rewrite list.filter_app, length_app. simpl. lia.
Qed.

(** ** C6: what a permitted merge folds *)

(** C6.  The merge folds buffers that were never committed.  (1) After
    [begin(); write(insert k); begin(); commit()] only the second, empty
    buffer is committed, and the change of the first buffer is in
    SyncedDataset.  (2) With a sync round open ([begin(); write(insert k2)],
    no [commit()]) and an update in flight, the merge retried when the update
    completes folds the open buffer and clears the queue: [k2] is in
    SyncedDataset, and the next [write] of the round throws "No pending sync
    transaction to write to". *)
Lemma uncommitted_buffer_is_merged :
  (let c := two_open_buffers in
   let queue := map_last mark_committed (pendingSyncedTransactions c) in
   (commit c).1 = Returned tt ∧
   committed <$> queue = [false; true] ∧
   view (syncedData (exec commit c)) ≠
     fold_left spec_merge_data
       (buffered_changes (filter (λ t, committed t = true) queue))
       (view (syncedData c)) ∧
   JsMap.get "k" (view (syncedData (exec commit c))) = Some {[ "a" := VNum 1 ]}) ∧
  (let c := open_round in
   let c' := run no_stringify
               [ESetTransactionState 0 persisting; ESetTransactionState 0 completed] c in
   committed <$> pendingSyncedTransactions c = [false] ∧
   JsMap.get "k2" (view (syncedData c)) = None ∧
   JsMap.get "k2" (view (syncedData c')) = Some {[ "x" := VNum 1 ]} ∧
   pendingSyncedTransactions c' = [] ∧
   (write insert_k2_x1 c').1 = Thrown NoPendingSyncTransactionToWrite).
Proof. vm_compute. repeat split; try done. Qed.

(** X3.  What a permitted merge does, whatever the flags of the buffers.  The changes of
    the buffers in the queue are folded into SyncedDataset and SyncedMetadata
    in buffer order then in the order of each buffer (an insert overwrites the
    value of the key, an update merges onto the existing value or onto
    nothing, a delete removes the key), and the queue is cleared; the
    [committed] flag of a buffer is not consulted.  A successful [commit()]
    attempts the merge on the queue it has just marked. *)
Theorem permitted_merge_folds_queue (c : Collection) :
  merge_permitted c = true →
  (let c' := exec commitPendingTransactions c in
   view (syncedData c') =
     fold_left spec_merge_data (buffered_changes (pendingSyncedTransactions c))
       (view (syncedData c)) ∧
   syncedMetadata c' =
     fold_left spec_merge_metadata (buffered_changes (pendingSyncedTransactions c))
       (syncedMetadata c) ∧
   pendingSyncedTransactions c' = []) ∧
  ((commit c).1 = Returned tt →
   let c' := exec commit c in
   view (syncedData c') =
     fold_left spec_merge_data (buffered_changes (pendingSyncedTransactions c))
       (view (syncedData c)) ∧
   syncedMetadata c' =
     fold_left spec_merge_metadata (buffered_changes (pendingSyncedTransactions c))
       (syncedMetadata c) ∧
   pendingSyncedTransactions c' = []).
Proof.
  intros Hgate. split.
  - destruct (commitPendingTransactions_permitted c Hgate) as (H1 & H2 & H3 & _).
    simpl. auto.
  - unfold exec, commit, bind, gets, modify, throw. simpl.
    destruct (list.last (pendingSyncedTransactions c)) as [t|]; simpl; [|done].
    destruct (committed t); simpl; [done|]. intros _.
    set (c1 := set_pendingSyncedTransactions _ c).
    assert (Hgate1 : merge_permitted c1 = true) by (by rewrite <- Hgate).
    destruct (commitPendingTransactions_permitted c1 Hgate1) as (H1 & H2 & H3 & _).
    simpl in H2, H3.
    rewrite buffered_changes_map_last in H2, H3 by done. auto.
Qed.

Lemma permitted_merge_folds_queue_witness :
  merge_permitted two_open_buffers = true ∧
  pendingSyncedTransactions (exec commitPendingTransactions two_open_buffers) = [].
Proof.
  split; [reflexivity|].
  destruct (permitted_merge_folds_queue two_open_buffers eq_refl) as [(_ & _ & H) _].
  exact H.
Defined.

(** ** C4: a deferred merge is retried *)

Lemma exec_setTransactionState c i newState tx :
  transactions c !! i = Some tx →
  TransactionManager.may_move (state tx) newState = true →
  exec (TransactionManager.setTransactionState i newState) c =
  exec commitPendingTransactions
    (recompute (set_transactions
                  (<[i := mkTransaction newState (mutations tx)]> (transactions c)) c)).
Proof.
  intros Hi Hmove.
  unfold exec, TransactionManager.setTransactionState, bind, gets. simpl.
  rewrite Hi, Hmove. done.
Qed.

(** C4.  When the transaction manager moves a transaction and every
    transaction is terminal afterwards, the merge it retries folds the
    changes of the queued buffers into SyncedDataset and SyncedMetadata and
    clears the queue, without any call of the sync source. *)
Theorem deferred_merge_is_retried (c : Collection) (i : nat)
    (newState : TransactionState) (tx : Transaction) :
  transactions c !! i = Some tx →
  TransactionManager.may_move (state tx) newState = true →
  all_terminal (<[i := mkTransaction newState (mutations tx)]> (transactions c)) →
  let c' := exec (TransactionManager.setTransactionState i newState) c in
  pendingSyncedTransactions c' = [] ∧
  view (syncedData c') =
    fold_left spec_merge_data (buffered_changes (pendingSyncedTransactions c))
      (view (syncedData c)) ∧
  syncedMetadata c' =
    fold_left spec_merge_metadata (buffered_changes (pendingSyncedTransactions c))
      (syncedMetadata c).
Proof.
  intros Hi Hmove Hall c'. subst c'.
  rewrite (exec_setTransactionState c i newState tx Hi Hmove).
  set (c1 := set_transactions _ c).
  destruct (recompute_frame c1) as (Ht & Hsd & Hmd & Hp & _).
  assert (Hgate : merge_permitted (recompute c1) = true).
  { apply merge_permitted_spec. right. by rewrite Ht. }
  destruct (commitPendingTransactions_permitted _ Hgate) as (H1 & H2 & H3 & _).
  rewrite Hsd, Hp in H2. rewrite Hmd, Hp in H3. done.
Qed.

Lemma deferred_merge_is_retried_witness :
  let c := deferred_collection in
  length (pendingSyncedTransactions c) = 1 ∧
  JsMap.get "k" (view (syncedData c)) = Some {[ "a" := VNum 1 ]} ∧
  pendingSyncedTransactions
    (exec (TransactionManager.setTransactionState 0 failed) c) = [].
Proof.
  split; [reflexivity|]. split; [reflexivity|].
  refine (proj1 (deferred_merge_is_retried deferred_collection 0 failed _ eq_refl eq_refl _)).
  unfold all_terminal. simpl. constructor; [by right | constructor].
Defined.

(** ** Invariants of the transition system *)

Section preserves.
Context {I : Collection → Prop}.

Lemma preserves_ret {A} (a : A) : preserves I (ret a).
Proof. by intros c. Qed.

Lemma preserves_throw {A} e : preserves I (@throw A e).
Proof. by intros c. Qed.

Lemma preserves_gets {A} (f : Collection → A) : preserves I (gets f).
Proof. by intros c. Qed.

Lemma preserves_modify f : (∀ c, I c → I (f c)) → preserves I (modify f).
Proof. intros Hf c Hc. by apply Hf. Qed.

Lemma preserves_bind {A B} (m : M A) (k : A → M B) :
  preserves I m → (∀ a, preserves I (k a)) → preserves I (bind m k).
Proof.
  intros Hm Hk c Hc. unfold bind. specialize (Hm c Hc).
  destruct (m c) as [[a|e] c']; simpl in *; [by apply Hk | done].
Qed.

Lemma preserves_mapM {A B} (f : A → M B) l :
  (∀ a, preserves I (f a)) → preserves I (mapM f l).
Proof.
  intros Hf. induction l as [|x l IH]; simpl; [apply preserves_ret|].
  apply preserves_bind; [done|]. intros y.
  apply preserves_bind; [done|]. intros ys. apply preserves_ret.
Qed.

End preserves.

Ltac preserves_step :=
  match goal with
  | |- preserves _ (bind _ _) => apply preserves_bind; [|intros ?]
  | |- preserves _ (ret _) => apply preserves_ret
  | |- preserves _ (throw _) => apply preserves_throw
  | |- preserves _ (gets _) => apply preserves_gets
  | |- preserves _ (mapM _ _) => apply preserves_mapM; intros ?
  | |- preserves _ (match ?x with _ => _ end) => destruct x
  end.

Section step_invariant.
Variable I : Collection → Prop.
Hypothesis I_nextOid : ∀ n c, I c → I (set_nextOid n c).
Hypothesis I_objectKeyMap : ∀ m c, I c → I (set_objectKeyMap m c).
Hypothesis I_pending : ∀ p c, I c → I (set_pendingSyncedTransactions p c).
Hypothesis I_register : ∀ l c,
  I c → I (set_onFirstCommitCallbacks (onFirstCommitCallbacks c ++ l) c).
Hypothesis I_merge : ∀ c, I c → I (exec commitPendingTransactions c).
Hypothesis I_transactions : ∀ txs c,
  I c → I (exec commitPendingTransactions (recompute (set_transactions txs c))).

Lemma preserves_alloc f : preserves I (alloc f).
Proof. intros c Hc. by apply I_nextOid. Qed.

Lemma preserves_applyTransaction mutations :
  preserves I (TransactionManager.applyTransaction mutations).
Proof. intros c Hc. simpl. by apply I_transactions. Qed.

Lemma preserves_setTransactionState i s :
  preserves I (TransactionManager.setTransactionState i s).
Proof.
  intros c Hc. unfold TransactionManager.setTransactionState, bind, gets. simpl.
  destruct (transactions c !! i) as [tx|]; simpl; [|done].
  destruct (TransactionManager.may_move _ _); simpl; [|done]. by apply I_transactions.
Qed.

Lemma preserves_forgetTransaction i :
  preserves I (TransactionManager.forgetTransaction i).
Proof.
  intros c Hc. unfold TransactionManager.forgetTransaction, bind, gets. simpl.
  destruct (transactions c !! i) as [tx|]; simpl; [|done].
  destruct (is_live tx); simpl; [done|]. by apply I_transactions.
Qed.

Ltac preserves_method :=
  lazymatch goal with
  | |- preserves _ (alloc _) => apply preserves_alloc
  | |- preserves _ (TransactionManager.applyTransaction _) =>
      apply preserves_applyTransaction
  | |- _ => preserves_step
  end.

Lemma preserves_validateData data type key : preserves I (validateData data type key).
Proof.
  unfold validateData, ensureStandardSchema, validate_directly.
  repeat preserves_method.
Qed.

Lemma preserves_resolve_item item : preserves I (resolve_item item).
Proof. unfold resolve_item. repeat preserves_method. Qed.

Lemma preserves_state_or_new k : preserves I (state_or_new k).
Proof. unfold state_or_new. repeat preserves_method. Qed.

Ltac preserves_call :=
  lazymatch goal with
  | |- preserves _ (validateData _ _ _) => apply preserves_validateData
  | |- preserves _ (resolve_item _) => apply preserves_resolve_item
  | |- preserves _ (state_or_new _) => apply preserves_state_or_new
  | |- _ => preserves_method
  end.

Lemma preserves_insert stringify data cfg : preserves I (insert stringify data cfg).
Proof.
  unfold insert, require_mutationFn, insert_keys, insert_mutation.
  repeat preserves_call.
Qed.

Lemma preserves_update target md : preserves I (update target md).
Proof.
  unfold update, require_mutationFn, update_mutation, alloc_changes, syncMetadata_of.
  repeat preserves_call.
Qed.

Lemma fold_forget_current_objectKeyMap mutations c :
  ∃ m, fold_left forget_current mutations c = set_objectKeyMap m c.
Proof.
  revert c. induction mutations as [|mu mus IH]; intros c; simpl.
  - exists (objectKeyMap c). by destruct c.
  - destruct (IH (forget_current c mu)) as [m ->]. unfold forget_current.
    destruct (JsMap.get _ _); eauto.
Qed.

Lemma preserves_delete items md : preserves I (delete items md).
Proof.
  unfold delete, require_mutationFn, delete_mutation, syncMetadata_of.
  repeat preserves_call.
  apply preserves_modify. intros c Hc.
  match goal with
  | |- I (fold_left forget_current ?ms c) =>
      destruct (fold_forget_current_objectKeyMap ms c) as [m ->]
  end.
  by apply I_objectKeyMap.
Qed.

Lemma step_invariant stringify c e : I c → I (step stringify c e).
Proof.
  intros Hc.
  destruct e as [|message| |callback|callback|data cfg|target md|items md| | | |i newState|i];
    simpl; unfold exec.
  - by apply I_pending.
  - revert c Hc. change (preserves I (write message)). unfold write.
    repeat preserves_step. apply preserves_modify. intros; by apply I_pending.
  - revert c Hc. change (preserves I commit). unfold commit.
    repeat preserves_step; [apply preserves_modify; auto | exact I_merge].
  - by apply I_register.
  - by apply I_register.
  - by apply preserves_insert.
  - by apply preserves_update.
  - by apply preserves_delete.
  - revert c Hc. change (preserves I stateWhenReady). unfold stateWhenReady, onFirstCommit.
    repeat preserves_step. apply preserves_modify. intros; by apply I_register.
  - revert c Hc. change (preserves I toArrayWhenReady). unfold toArrayWhenReady, onFirstCommit.
    repeat preserves_step. apply preserves_modify. intros; by apply I_register.
  - by apply I_merge.
  - by apply preserves_setTransactionState.
  - by apply preserves_forgetTransaction.
Qed.

Lemma run_invariant stringify events c : I c → I (run stringify events c).
Proof.
  revert c. induction events as [|e events IH]; intros c Hc; simpl; [done|].
  apply IH. by apply step_invariant.
Qed.

End step_invariant.

(** ** The overlay that [derivedState] computes *)

Lemma optimisticOperations_live_mutations txs :
  optimisticOperations txs = to_message <$> live_mutations txs.
Proof.
  unfold optimisticOperations, live_mutations.
  rewrite (list_filter_iff (λ tx, is_live tx = true) (λ tx, ¬ is_terminal (state tx)))
    by (intros tx; apply is_live_spec).
  induction (filter _ txs) as [|tx l IH]; [done|].
  rewrite !fmap_cons. simpl concat. rewrite fmap_app. by f_equal.
Qed.

Lemma view_apply_operations (sd : JsMap.t Obj) ms (combined : JsMap.t Obj) (n : nat) :
  view (fold_left (apply_operation sd) (to_message <$> ms) (combined, n)).1 =
  fold_left (synced_base_apply (view sd)) ms (view combined).
Proof.
  revert combined n. induction ms as [|m ms IH]; intros combined n; simpl; [done|].
  unfold synced_base_apply at 2. destruct (m_type m); rewrite IH; f_equal; unfold view.
  - by rewrite JsMapFacts.map_set.
  - rewrite JsMapFacts.map_set. simpl. f_equal. by rewrite or_empty_view.
  - by rewrite JsMapFacts.map_delete.
Qed.

Lemma derivedState_recompute c :
  derivedState (recompute c) =
  (fold_left (apply_operation (syncedData c)) (optimisticOperations (transactions c))
     (syncedData c, nextOid c)).1.
Proof.
  unfold recompute, derivedState_fn.
  destruct (fold_left _ _ _) as [combined n]. done.
Qed.

Lemma view_recompute c :
  view (derivedState (recompute c)) =
  synced_base_overlay (view (syncedData c)) (transactions c).
Proof.
  rewrite derivedState_recompute, optimisticOperations_live_mutations.
  apply view_apply_operations.
Qed.

Lemma coherent_recompute c : coherent (recompute c).
Proof.
  unfold coherent. rewrite view_recompute.
  by destruct (recompute_frame c) as (-> & -> & _).
Qed.

Lemma coherent_frame c c' :
  derivedState c' = derivedState c →
  syncedData c' = syncedData c →
  transactions c' = transactions c →
  coherent c → coherent c'.
Proof. unfold coherent. by intros -> -> ->. Qed.

Lemma coherent_commitPendingTransactions c :
  coherent c → coherent (exec commitPendingTransactions c).
Proof.
  intros Hc. rewrite exec_commitPendingTransactions; cbv zeta.
  destruct (merge_permitted c); [|done].
  destruct (fold_left merge_transaction _ _) as [[keys md] [sd n]] eqn:Hfold.
  set (c1 := set_syncedMetadata md (set_syncedData sd (set_nextOid n c))).
  assert (Hc2 : coherent
    (if bool_decide (concat (operations <$> pendingSyncedTransactions c) = [])
     then c1 else recompute c1)).
  { case_bool_decide as Hops; [|apply coherent_recompute].
    rewrite fold_no_operations in Hfold by done. injection Hfold as _ <- <- _.
    by apply (coherent_frame c). }
  revert Hc2. generalize (if bool_decide (concat (operations <$> pendingSyncedTransactions c) = [])
     then c1 else recompute c1). intros c2 Hc2. simpl.
  destruct (hasReceivedFirstCommit c2); by apply (coherent_frame c2).
Qed.

Lemma coherent_run stringify events c :
  coherent c → coherent (run stringify events c).
Proof.
  apply run_invariant.
  - intros n c0. by apply coherent_frame.
  - intros m c0. by apply coherent_frame.
  - intros p c0. by apply coherent_frame.
  - intros l c0. by apply coherent_frame.
  - apply coherent_commitPendingTransactions.
  - intros txs c0 _. apply coherent_commitPendingTransactions, coherent_recompute.
Qed.

Lemma coherent_reachable stringify cfg c : reachable stringify cfg c → coherent c.
Proof.
  intros (c0 & events & Hc0 & <-). apply coherent_run.
  unfold constructor in Hc0. destruct (sync cfg); [|done].
  injection Hc0 as <-. done.
Qed.

(** ** C2: the overlay and the sequential application of the mutations *)

Lemma synced_base_is_sequential (synced : JsMap.t Fields) ms overlay seen :
  (∀ k, k ∉ seen → JsMap.get k overlay = JsMap.get k synced) →
  updates_first seen ms →
  fold_left (synced_base_apply synced) ms overlay =
  fold_left spec_apply_mutation ms overlay.
Proof.
  revert overlay seen. induction ms as [|m ms IH]; intros overlay seen Hsame Hfirst;
    simpl; [done|].
  destruct Hfirst as [Hm Hfirst].
  assert (Heq : synced_base_apply synced overlay m = spec_apply_mutation overlay m).
  { unfold synced_base_apply, spec_apply_mutation.
    destruct (m_type m); [done| |done]. by rewrite Hsame by auto. }
  rewrite Heq. apply (IH _ (m_key m :: seen)); [|done].
  intros k Hk. apply not_elem_of_cons in Hk as [Hne Hk].
  rewrite <- Hsame by done. unfold spec_apply_mutation.
  destruct (m_type m).
  - by apply JsMapFacts.get_set_ne.
  - by apply JsMapFacts.get_set_ne.
  - by apply JsMapFacts.get_delete_ne.
Qed.

Lemma NoDup_updates_first seen ms :
  (∀ k, k ∈ seen → k ∉ m_key <$> ms) →
  NoDup (m_key <$> ms) →
  updates_first seen ms.
Proof.
  revert seen. induction ms as [|m ms IH]; intros seen Hseen Hnd; simpl; [done|].
  rewrite fmap_cons in Hnd, Hseen. apply list.NoDup_cons in Hnd as [Hm Hnd]. split.
  - intros _ Hin. apply (Hseen _ Hin). by left.
  - apply IH; [|done]. intros k [->|Hk]%elem_of_cons; [done|].
    intros Hin. apply (Hseen k Hk). by right.
Qed.

(** C2 as stated fails: with a record synced under a key, another record
    inserted under the same key and that record then updated, the overlay
    shows the synced field [x] again, which the sequential application of
    the insert and the update does not contain. *)
Lemma overlay_differs_from_sequential_application :
  let c := insert_then_update in
  c = run no_stringify insert_then_update_events (new_collection example_config) ∧
  (m_type <$> live_mutations (transactions c) = [OpInsert; OpUpdate] ∧
   m_key <$> live_mutations (transactions c) = ["k"; "k"]) ∧
  JsMap.get "k" (view (get_state c)) =
    Some {[ "x" := VNum 1; "a" := VNum 1; "b" := VNum 2 ]} ∧
  JsMap.get "k" (spec_overlay (view (syncedData c)) (transactions c)) =
    Some {[ "a" := VNum 1; "b" := VNum 2 ]} ∧
  view (get_state c) ≠ spec_overlay (view (syncedData c)) (transactions c).
Proof.
  split; [by vm_compute|]. split; [by vm_compute|].
  split; [by vm_compute|]. split; [by vm_compute|].
  intros H. apply (f_equal (λ m, JsMap.get "k" m ≫= (.!! "x"))) in H.
  vm_compute in H. discriminate H.
Qed.

(** C2, amended.  In every reachable state the overlay ([state], and
    [toArray] in the order of the map) is SyncedDataset with the pending
    mutations of the non-terminal transactions applied in transaction order
    then mutation order, where an insert sets the key to the record of the
    mutation, a delete removes the key, and an update sets the key to the
    record of the mutation merged onto the record that SyncedDataset (not the
    overlay built so far) holds for the key, or onto nothing.  This is the
    sequential application of the mutations whenever no update comes after
    another pending mutation of its key, in particular when the keys are
    pairwise distinct. *)
Theorem overlay_of_reachable_state stringify cfg (c : Collection) :
  reachable stringify cfg c →
  view (get_state c) = synced_base_overlay (view (syncedData c)) (transactions c) ∧
  fields <$> toArray c = JsMap.values (view (get_state c)) ∧
  (updates_first [] (live_mutations (transactions c)) →
   view (get_state c) = spec_overlay (view (syncedData c)) (transactions c)) ∧
  (NoDup (m_key <$> live_mutations (transactions c)) →
   view (get_state c) = spec_overlay (view (syncedData c)) (transactions c)).
Proof.
  intros Hreach. pose proof (coherent_reachable _ _ _ Hreach) as Hc.
  unfold coherent in Hc. unfold get_state, toArray.
  assert (Hseq : updates_first [] (live_mutations (transactions c)) →
    view (derivedState c) = spec_overlay (view (syncedData c)) (transactions c)).
  { intros Hfirst. rewrite Hc. unfold synced_base_overlay, spec_overlay.
    by apply (synced_base_is_sequential _ _ _ []). }
  split; [done|]. split; [|split; [done|]].
  - unfold view. by rewrite JsMapFacts.values_map.
  - intros Hnd. apply Hseq. apply NoDup_updates_first; [|done].
    intros k Hk. by apply elem_of_nil in Hk.
Qed.

Lemma overlay_of_reachable_state_witness :
  view (get_state gated_collection) =
    spec_overlay (view (syncedData gated_collection)) (transactions gated_collection).
Proof.
  assert (Hreach : reachable no_stringify example_config gated_collection).
  { exists (new_collection example_config),
      [EBegin; EWrite insert_k_a1; ECommit; EBegin; EWrite insert_k_a1;
       EUpdate (UpdateOne record_a1 (assign "a" (VNum 2))) None].
    split; [reflexivity | by vm_compute]. }
  destruct (overlay_of_reachable_state no_stringify example_config gated_collection Hreach)
    as (_ & _ & _ & H).
  apply H. vm_compute. constructor; [|constructor].
  intros Hin. inversion Hin.
Defined.

(** ** C3: terminal transactions and the overlay *)








(** ** C10: callbacks registered after the first commit *)

Lemma first_commit_done_merge trace c :
  first_commit_done trace c → first_commit_done trace (exec commitPendingTransactions c).
Proof.
  intros [Hflag Htrace]. rewrite exec_commitPendingTransactions; cbv zeta.
  destruct (merge_permitted c); [|done].
  destruct (fold_left merge_transaction _ _) as [[keys md] [sd n]].
  set (c1 := set_syncedMetadata md (set_syncedData sd (set_nextOid n c))).
  assert (Hc2 : first_commit_done trace
    (if bool_decide (concat (operations <$> pendingSyncedTransactions c) = [])
     then c1 else recompute c1)).
  { case_bool_decide; [done|].
    destruct (recompute_frame c1) as (_ & _ & _ & _ & H1 & _ & _ & H2).
    unfold first_commit_done. by rewrite H1, H2. }
  revert Hc2. generalize (if bool_decide (concat (operations <$> pendingSyncedTransactions c) = [])
     then c1 else recompute c1). intros c2 [Hflag2 Htrace2]. simpl.
  by rewrite Hflag2.
Qed.

Lemma first_commit_done_recompute trace c :
  first_commit_done trace c → first_commit_done trace (recompute c).
Proof.
  intros [Hflag Htrace].
  destruct (recompute_frame c) as (_ & _ & _ & _ & H1 & _ & _ & H2).
  unfold first_commit_done. by rewrite H1, H2.
Qed.

Lemma callbacks_kept_after_first_commit c :
  hasReceivedFirstCommit c = true →
  onFirstCommitCallbacks (exec commitPendingTransactions c) = onFirstCommitCallbacks c.
Proof.
  intros Hflag. rewrite exec_commitPendingTransactions; cbv zeta.
  destruct (merge_permitted c); [|done].
  destruct (fold_left merge_transaction _ _) as [[keys md] [sd n]].
  set (c1 := set_syncedMetadata md (set_syncedData sd (set_nextOid n c))).
  assert (Hc2 : ∀ c2, c2 = c1 ∨ c2 = recompute c1 →
    hasReceivedFirstCommit c2 = true ∧
    onFirstCommitCallbacks c2 = onFirstCommitCallbacks c).
  { intros c2 [-> | ->]; [done|].
    by destruct (recompute_frame c1) as (_ & _ & _ & _ & -> & -> & _). }
  case_bool_decide.
  - destruct (Hc2 c1 (or_introl eq_refl)) as [H1 H2]. simpl. by rewrite Hflag.
  - destruct (Hc2 (recompute c1) (or_intror eq_refl)) as [H1 H2]. simpl.
    by rewrite H1.
Qed.

Lemma merge_runs_or_not c :
  exec commitPendingTransactions c = c ∨
  hasReceivedFirstCommit (exec commitPendingTransactions c) = true.
Proof.
  destruct (merge_permitted c) eqn:Hgate.
  - right. by destruct (commitPendingTransactions_permitted c Hgate) as (_ & _ & _ & ? & _).
  - left. by apply commitPendingTransactions_gated.
Qed.

(** After the first commit a registered callback stays in the list and the
    trace does not grow. *)
Lemma registered_after_first_commit stringify trace registered events c :
  first_commit_done trace c ∧ still_registered registered c →
  let c' := run stringify events c in
  first_commit_done trace c' ∧ still_registered registered c'.
Proof.
  apply (run_invariant (λ c, first_commit_done trace c ∧ still_registered registered c));
    try done.
  - intros l c0 [H1 H2]. split; [done|]. unfold still_registered in *. simpl.
    by apply prefix_app_r.
  - intros c0 [H1 H2]. split; [by apply first_commit_done_merge|].
    unfold still_registered. rewrite callbacks_kept_after_first_commit; [done|apply H1].
  - intros txs c0 [H1 H2].
    assert (H1' : first_commit_done trace (recompute (set_transactions txs c0)))
      by (by apply first_commit_done_recompute).
    split; [by apply first_commit_done_merge|].
    unfold still_registered. rewrite callbacks_kept_after_first_commit by apply H1'.
    by destruct (recompute_frame (set_transactions txs c0)) as (_ & _ & _ & _ & _ & -> & _).
Qed.

(** Until the first commit nothing is taken from the list or called. *)
Lemma drained_at_first_commit_only stringify trace registered events c :
  hasReceivedFirstCommit c = true ∨
    (still_registered registered c ∧ firedCallbacks c = trace) →
  let c' := run stringify events c in
  hasReceivedFirstCommit c' = true ∨
    (still_registered registered c' ∧ firedCallbacks c' = trace).
Proof.
  apply (run_invariant (λ c, hasReceivedFirstCommit c = true ∨
                             (still_registered registered c ∧ firedCallbacks c = trace)));
    try done.
  - intros l c0 [H | [H1 H2]]; [by left|]. right. split; [|done].
    unfold still_registered in *. simpl. by apply prefix_app_r.
  - intros c0 H. destruct (merge_runs_or_not c0) as [-> | Hrun]; [done | by left].
  - intros txs c0 H.
    destruct (merge_runs_or_not (recompute (set_transactions txs c0))) as [-> | Hrun];
      [|by left].
    unfold still_registered in *.
    by destruct (recompute_frame (set_transactions txs c0))
      as (_ & _ & _ & _ & -> & -> & _ & ->).
Qed.

(** C10.  Once the first merge has happened ([hasReceivedFirstCommit]), a
    callback registered with [onFirstCommit] is never called, whatever
    happens next: it stays in the list and the trace of called callbacks does
    not grow.  The list is only emptied together with the flag going from
    false to true: as long as the flag is false, everything registered is
    still waiting and nothing has been called.  [stateWhenReady] and
    [toArrayWhenReady] resolve at once when the flag is set and register
    nothing. *)
Theorem late_callback_never_fires stringify (c : Collection) (callback : nat)
    (events : list Event) :
  hasReceivedFirstCommit c = true →
  (let c' := run stringify (EOnFirstCommit callback :: events) c in
   firedCallbacks c' = firedCallbacks c ∧
   UserCallback callback ∈ onFirstCommitCallbacks c' ∧
   hasReceivedFirstCommit c' = true) ∧
  (∀ d : Collection,
     let d' := run stringify events d in
     hasReceivedFirstCommit d' = true ∨
     (onFirstCommitCallbacks d `prefix_of` onFirstCommitCallbacks d' ∧
      firedCallbacks d' = firedCallbacks d)) ∧
  stateWhenReady c = (Returned (Resolved (get_state c)), c) ∧
  toArrayWhenReady c = (Returned (Resolved (toArray c)), c).
Proof.
  intros Hflag. split; [|split; [|split]].
  - simpl.
    set (c1 := exec (onFirstCommit (UserCallback callback)) c).
    destruct (registered_after_first_commit stringify (firedCallbacks c)
                (onFirstCommitCallbacks c ++ [UserCallback callback]) events c1)
      as [[H1 H2] H3].
    { split; [by split|]. unfold still_registered. done. }
    split; [done|]. split; [|done].
    destruct H3 as [l ->]. rewrite !elem_of_app, list_elem_of_singleton. auto.
  - intros d.
    apply (drained_at_first_commit_only stringify (firedCallbacks d)
             (onFirstCommitCallbacks d) events d).
    right. split; [unfold still_registered; reflexivity | done].
  - unfold stateWhenReady, bind, gets. simpl. rewrite Hflag, orb_true_r. done.
  - unfold toArrayWhenReady, bind, gets. simpl. rewrite Hflag, orb_true_r. done.
Qed.

Lemma late_callback_never_fires_witness :
  hasReceivedFirstCommit synced_once = true ∧
  firedCallbacks
    (run no_stringify [EOnFirstCommit 7; EBegin; EWrite insert_k_a1; ECommit] synced_once) =
  firedCallbacks synced_once.
Proof.
  split; [reflexivity|].
  exact (proj1 (proj1 (late_callback_never_fires no_stringify synced_once 7
                         [EBegin; EWrite insert_k_a1; ECommit] eq_refl))).
Defined.

(** ** Running the methods *)

Lemma bind_returned {A B} (m : M A) (k : A → M B) c a c' :
  m c = (Returned a, c') → bind m k c = k a c'.
Proof. intros H. unfold bind. by rewrite H. Qed.

Lemma bind_thrown {A B} (m : M A) (k : A → M B) c e c' :
  m c = (Thrown e, c') → bind m k c = (Thrown e, c').
Proof. intros H. unfold bind. by rewrite H. Qed.

Lemma set_nextOid_same c : set_nextOid (nextOid c) c = c.
Proof. by destruct c. Qed.

Lemma require_mutationFn_ok c :
  mutationFn (config c) = true → require_mutationFn c = (Returned tt, c).
Proof. intros H. unfold require_mutationFn, bind, gets. simpl. by rewrite H. Qed.

Lemma resolve_item_ok c item k :
  objectKeyMap c !! oid item = Some k → resolve_item item c = (Returned k, c).
Proof. intros H. unfold resolve_item, bind, gets. simpl. by rewrite H. Qed.

Lemma resolve_item_unknown c item :
  objectKeyMap c !! oid item = None →
  resolve_item item c = (Thrown ObjectNotFoundInCollection, c).
Proof. intros H. unfold resolve_item, bind, gets. simpl. by rewrite H. Qed.

Lemma mapM_resolve_item_ok c items keys :
  Forall2 (λ item k, objectKeyMap c !! oid item = Some k) items keys →
  mapM resolve_item items c = (Returned keys, c).
Proof.
  induction 1 as [|item k items keys Hk _ IH]; simpl; [done|].
  rewrite (bind_returned _ _ _ _ _ (resolve_item_ok _ _ _ Hk)).
  by rewrite (bind_returned _ _ _ _ _ IH).
Qed.

(** [mapM resolve_item] throws as soon as an item is not tracked. *)
Lemma mapM_resolve_item_unknown c items item :
  item ∈ items → objectKeyMap c !! oid item = None →
  mapM resolve_item items c = (Thrown ObjectNotFoundInCollection, c).
Proof.
  intros Hin Hnone. induction items as [|x items IH]; [by apply elem_of_nil in Hin|].
  simpl. destruct (objectKeyMap c !! oid x) as [k|] eqn:Hx.
  - rewrite (bind_returned _ _ _ _ _ (resolve_item_ok _ _ _ Hx)).
    apply elem_of_cons in Hin as [-> | Hin]; [congruence|].
    by rewrite (bind_thrown _ _ _ _ _ (IH Hin)).
  - by rewrite (bind_thrown _ _ _ _ _ (resolve_item_unknown _ _ Hx)).
Qed.

Lemma mapM_alloc_changes_spec l c :
  ∃ objs n,
    mapM alloc_changes l c = (Returned objs, set_nextOid n c) ∧
    nextOid c ≤ n ∧
    (λ o : option Obj, fields <$> o) <$> objs = l.
Proof.
  revert c. induction l as [|ch l IH]; intros c; simpl.
  - exists [], (nextOid c). by rewrite set_nextOid_same.
  - destruct ch as [f|]; unfold alloc_changes at 1.
    + destruct (IH (set_nextOid (S (nextOid c)) c)) as (objs & n & Hrun & Hn & Hobjs).
      exists (Some (mkObj (NewId (nextOid c)) f) :: objs), n.
      split; [|split; [simpl in Hn; lia | by rewrite fmap_cons, Hobjs]].
      unfold bind at 1 2, alloc. simpl. by rewrite (bind_returned _ _ _ _ _ Hrun).
    + destruct (IH c) as (objs & n & Hrun & Hn & Hobjs).
      exists (None :: objs), n.
      split; [|split; [done | by rewrite fmap_cons, Hobjs]].
      unfold bind at 1, ret at 1. by rewrite (bind_returned _ _ _ _ _ Hrun).
Qed.

(** The three ways through [validateData]. *)
Lemma validateData_no_schema data type key c :
  schema (config c) = None → validateData data type key c = (Returned data, c).
Proof. intros H. unfold validateData, bind, gets. simpl. by rewrite H. Qed.

Lemma validateData_merged validate data k existing c :
  schema (config c) = Some (StandardSchema validate) →
  k ≠ "" →
  JsMap.get k (get_state c) = Some existing →
  validateData data OpUpdate (Some k) c =
  (match validate (mkObj (NewId (nextOid c)) (spread (fields existing) (fields data))) with
   | VOk _ => Returned data
   | VIssues issues => Thrown (SchemaValidationError OpUpdate issues)
   | VPromise => Thrown ValidationMustBeSynchronous
   end, set_nextOid (S (nextOid c)) c).
Proof.
  intros Hs Hk Hex. unfold validateData, bind, gets, alloc. simpl.
  rewrite Hs. simpl. rewrite decide_False by done. rewrite Hex.
  by destruct (validate _).
Qed.

Lemma validateData_directly validate data type key c :
  schema (config c) = Some (StandardSchema validate) →
  match type, key with
  | OpUpdate, Some k => k = "" ∨ JsMap.get k (get_state c) = None
  | _, _ => True
  end →
  validateData data type key c =
  (match validate data with
   | VOk v => Returned v
   | VIssues issues => Thrown (SchemaValidationError type issues)
   | VPromise => Thrown ValidationMustBeSynchronous
   end, c).
Proof.
  intros Hs Hkey. unfold validateData, validate_directly, bind, gets. simpl.
  rewrite Hs. simpl.
  assert (Hnone : match type with
                  | OpUpdate => match key with
                                | Some k => if decide (k = "") then None
                                            else JsMap.get k (get_state c)
                                | None => None
                                end
                  | _ => None
                  end = None).
  { destruct type; try done. destruct key as [k|]; [|done].
    destruct (decide (k = "")); [done|]. by destruct Hkey. }
  rewrite Hnone. by destruct (validate data).
Qed.

(** ** C7: an update without changes *)

Lemma mapM_update_mutation_nothing md pairs c :
  Forall (λ kc : Key * option Obj, from_option fields ∅ kc.2 = ∅) pairs →
  mapM (update_mutation md) pairs c = (Returned ((λ _, None) <$> pairs), c).
Proof.
  induction 1 as [|[k ch] pairs Hch _ IH]; simpl; [done|].
  assert (Hone : update_mutation md (k, ch) c = (Returned None, c)).
  { unfold update_mutation. destruct ch as [o|]; [|done]. simpl in Hch.
    by rewrite decide_True. }
  rewrite (bind_returned _ _ _ _ _ Hone).
  assert (IH' : mapM (update_mutation md) pairs c =
                (Returned ((λ _, None) <$> pairs), c)) by exact IH.
  by rewrite (bind_returned _ _ _ _ _ IH').
Qed.

Lemma omap_nothing {A B} (l : list A) :
  omap id ((λ _, @None B) <$> l) = [].
Proof. induction l; simpl; auto. Qed.

Lemma diff_unchanged (baseline : Fields) : Proxy.diff baseline baseline = ∅.
Proof.
  unfold Proxy.diff. apply map_eq. intros f. rewrite lookup_empty.
  apply map_lookup_filter_None. right. intros v Hv. simpl. by intros H.
Qed.

(** A mutator that leaves every baseline as it is yields no diff. *)
Lemma unchanged_baselines_have_no_diff target baselines :
  match target with
  | UpdateOne _ callback => ∀ b, b ∈ baselines → callback b = b
  | UpdateMany _ callback => callback baselines = baselines
  end →
  Forall (λ changes, default ∅ changes = ∅) (tracked_changes target baselines).
Proof.
  destruct target as [item callback | items callback]; simpl; intros Hsame.
  - apply list.Forall_forall. intros ch (b & -> & Hb)%list_elem_of_fmap.
    simpl. unfold Proxy.withChangeTracking. rewrite Hsame; [apply diff_unchanged|].
    by eapply subseteq_take.
  - unfold Proxy.withArrayChangeTracking. rewrite Hsame.
    apply list.Forall_forall. intros ch Hch.
    apply elem_of_lookup_imap in Hch as (i & b & -> & Hb).
    rewrite Hb. by rewrite decide_True.
Qed.

(** C7.  When the persistence function is configured, every item is tracked
    and every diff that the trackers report is absent or empty, [update]
    throws "No changes were made to any of the objects" and leaves the
    collection as it was (up to the count of objects created on the way): no
    transaction is created and the transaction set is unchanged. *)
Theorem update_without_changes_throws (c : Collection) (target : UpdateTarget)
    (md : option Fields) (keys : list Key) :
  mutationFn (config c) = true →
  Forall2 (λ item k, objectKeyMap c !! oid item = Some k) (itemsArray target) keys →
  Forall (λ changes, default ∅ changes = ∅)
    (tracked_changes target (currentObjects c keys)) →
  (update target md c).1 = Thrown NoChangesWereMade ∧
  (∃ n, (update target md c).2 = set_nextOid n c) ∧
  transactions (update target md c).2 = transactions c.
Proof.
  intros Hfn Hkeys Hempty.
  assert (Hrun : ∃ n, update target md c = (Thrown NoChangesWereMade, set_nextOid n c)).
  { unfold update.
    rewrite (bind_returned _ _ _ _ _ (require_mutationFn_ok c Hfn)).
    rewrite (bind_returned _ _ _ _ _ (mapM_resolve_item_ok c _ keys Hkeys)).
    unfold bind at 1, gets at 1.
    destruct (mapM_alloc_changes_spec (tracked_changes target (currentObjects c keys)) c)
      as (objs & n & Halloc & _ & Hobjs).
    rewrite (bind_returned _ _ _ _ _ Halloc). exists n.
    erewrite bind_returned; [|apply mapM_update_mutation_nothing].
    - by rewrite omap_nothing.
    - apply list.Forall_forall. intros [k ch] Hin.
      apply elem_of_lookup_imap in Hin as (i & k' & Heq & _).
      injection Heq as -> ->. simpl.
      destruct (objs !! i) as [[o|]|] eqn:Hi; simpl; try done.
      rewrite list.Forall_forall in Hempty.
      apply (Hempty (Some (fields o))). rewrite <- Hobjs.
      apply list_elem_of_fmap. exists (Some o). split; [done|].
      by apply list_elem_of_lookup_2 in Hi. }
  destruct Hrun as [n ->]. simpl. eauto.
Qed.

Lemma update_without_changes_throws_witness :
  (update (UpdateOne record_a1 (assign "a" (VNum 1))) None synced_once).1 =
  Thrown NoChangesWereMade.
Proof.
  refine (proj1 (update_without_changes_throws synced_once
                   (UpdateOne record_a1 (assign "a" (VNum 1))) None ["k"] eq_refl _ _)).
  - simpl. constructor; [reflexivity | constructor].
  - vm_compute. constructor; [reflexivity | constructor].
Defined.

(** ** C8: what the schema gate sees and what the mutation stores *)

(** One item of an update with a schema, when the overlay holds a record for
    the key: the merged record is validated, the changes are stored. *)
Lemma update_mutation_existing validate md k changed existing c :
  schema (config c) = Some (StandardSchema validate) →
  k ≠ "" →
  JsMap.get k (get_state c) = Some existing →
  fields changed ≠ ∅ →
  update_mutation md (k, Some changed) c =
  match validate (mkObj (NewId (nextOid c)) (spread (fields existing) (fields changed))) with
  | VOk _ =>
      (Returned (Some {| original := existing;
                         modified := mkObj (NewId (S (nextOid c)))
                                       (spread (fields existing) (fields changed));
                         changes := changed;
                         m_key := k;
                         m_metadata := md;
                         syncMetadata := default ∅ (mjoin (JsMap.get k (syncedMetadata c)));
                         m_type := OpUpdate |}),
       set_nextOid (S (S (nextOid c))) c)
  | VIssues issues =>
      (Thrown (SchemaValidationError OpUpdate issues), set_nextOid (S (nextOid c)) c)
  | VPromise => (Thrown ValidationMustBeSynchronous, set_nextOid (S (nextOid c)) c)
  end.
Proof.
  intros Hs Hk Hex Hch. unfold update_mutation. rewrite decide_False by done.
  pose proof (validateData_merged validate changed k existing c Hs Hk Hex) as Hv.
  destruct (validate _) as [v|issues|].
  - rewrite (bind_returned _ _ _ _ _ Hv).
    unfold state_or_new, syncMetadata_of, bind, gets, alloc, ret, get_state in *.
    simpl. rewrite Hex. simpl. rewrite ?Hex. done.
  - by rewrite (bind_thrown _ _ _ _ _ Hv).
  - by rewrite (bind_thrown _ _ _ _ _ Hv).
Qed.

(** The same when the overlay holds no record for the key: the changes are
    validated as they are, and the value that the schema returns is stored. *)
Lemma update_mutation_absent validate md k changed c :
  schema (config c) = Some (StandardSchema validate) →
  JsMap.get k (get_state c) = None →
  fields changed ≠ ∅ →
  update_mutation md (k, Some changed) c =
  match validate changed with
  | VOk v =>
      (Returned (Some {| original := mkObj (NewId (nextOid c)) ∅;
                         modified := mkObj (NewId (S (nextOid c))) (spread ∅ (fields v));
                         changes := v;
                         m_key := k;
                         m_metadata := md;
                         syncMetadata := default ∅ (mjoin (JsMap.get k (syncedMetadata c)));
                         m_type := OpUpdate |}),
       set_nextOid (S (S (nextOid c))) c)
  | VIssues issues => (Thrown (SchemaValidationError OpUpdate issues), c)
  | VPromise => (Thrown ValidationMustBeSynchronous, c)
  end.
Proof.
  intros Hs Hex Hch. unfold update_mutation. rewrite decide_False by done.
  pose proof (validateData_directly validate changed OpUpdate (Some k) c Hs
                (or_intror Hex)) as Hv.
  destruct (validate _) as [v|issues|].
  - rewrite (bind_returned _ _ _ _ _ Hv).
    unfold state_or_new, syncMetadata_of, bind, gets, alloc, ret, get_state in *.
    simpl. rewrite Hex. simpl. rewrite ?Hex. done.
  - by rewrite (bind_thrown _ _ _ _ _ Hv).
  - by rewrite (bind_thrown _ _ _ _ _ Hv).
Qed.

(** An update of one tracked item whose diff is not empty comes down to the
    mutation of that item. *)
Lemma update_one_run c item callback md k :
  mutationFn (config c) = true →
  objectKeyMap c !! oid item = Some k →
  let diff := Proxy.withChangeTracking (or_empty (JsMap.get k (get_state c))) callback in
  update (UpdateOne item callback) md c =
  bind (update_mutation md (k, Some (mkObj (NewId (nextOid c)) diff)))
    (λ mutation,
       match mutation with
       | Some mutation => TransactionManager.applyTransaction [mutation]
       | None => throw NoChangesWereMade
       end)
    (set_nextOid (S (nextOid c)) c).
Proof.
  intros Hfn Hk diff. unfold update.
  rewrite (bind_returned _ _ _ _ _ (require_mutationFn_ok c Hfn)).
  assert (Hkeys : Forall2 (λ item k, objectKeyMap c !! oid item = Some k) [item] [k])
    by (by constructor).
  rewrite (bind_returned _ _ _ _ _ (mapM_resolve_item_ok c _ _ Hkeys)).
  unfold bind at 1, gets at 1.
  change (tracked_changes (UpdateOne item callback) (currentObjects c [k]))
    with [Some diff].
  assert (Halloc : mapM alloc_changes [Some diff] c =
    (Returned [Some (mkObj (NewId (nextOid c)) diff)], set_nextOid (S (nextOid c)) c))
    by done.
  rewrite (bind_returned _ _ _ _ _ Halloc).
  change (imap _ [k]) with [(k, Some (mkObj (NewId (nextOid c)) diff))].
  generalize (set_nextOid (S (nextOid c)) c). intros c1.
  unfold mapM, bind, ret.
  destruct (update_mutation md _ c1) as [[[mutation|]|e] c2]; done.
Qed.

Lemma applyTransaction_returns mutations c :
  (TransactionManager.applyTransaction mutations c).1 =
  Returned (mkTransaction pending mutations).
Proof. done. Qed.

(** C8 as stated fails: a record that the sync source has removed is still
    tracked; an update of it has nothing to merge with, the schema gate is
    given the bare diff, and the mutation stores the value that the schema
    returned (here with a default field added), not the diff. *)
Lemma update_stores_value_of_schema :
  let c := removed_by_sync in
  let callback := assign "b" (VNum 2) in
  schema (config c) = Some defaulting_schema ∧
  objectKeyMap c !! oid record_a1 = Some "k" ∧
  JsMap.get "k" (get_state c) = None ∧
  Proxy.withChangeTracking ∅ callback = {[ "b" := VNum 2 ]} ∧
  stored_changes (update (UpdateOne record_a1 callback) None c).1 =
    [ {[ "b" := VNum 2; "done" := VBool false ]} ].
Proof. vm_compute. repeat split. Qed.

(** The update of one record with a schema configured and a diff that is not
    empty, with the objects that it creates: if the key is not the empty string and the overlay
    holds a record for it, the schema gate validates the merged record (the
    overlay record with the fields of the diff on top), and on success the
    pending mutation stores the diff itself in [changes] and the merged fields
    in [modified]; if the overlay holds no record for the key, the gate
    validates the diff as it is and the mutation stores the value that the
    schema returns. *)
Lemma update_of_one_record (c : Collection) (item : Obj)
    (callback : Fields → Fields) (md : option Fields) (k : Key)
    (validate : Obj → ValidationResult) :
  mutationFn (config c) = true →
  schema (config c) = Some (StandardSchema validate) →
  objectKeyMap c !! oid item = Some k →
  let diff := Proxy.withChangeTracking (or_empty (JsMap.get k (get_state c))) callback in
  diff ≠ ∅ →
  let changed := mkObj (NewId (nextOid c)) diff in
  let n := S (nextOid c) in
  let smd := default ∅ (mjoin (JsMap.get k (syncedMetadata c))) in
  (∀ existing,
     k ≠ "" → JsMap.get k (get_state c) = Some existing →
     (update (UpdateOne item callback) md c).1 =
     match validate (mkObj (NewId n) (spread (fields existing) diff)) with
     | VOk _ =>
         Returned (mkTransaction pending
           [ {| original := existing;
                modified := mkObj (NewId (S n)) (spread (fields existing) diff);
                changes := changed;
                m_key := k;
                m_metadata := md;
                syncMetadata := smd;
                m_type := OpUpdate |} ])
     | VIssues issues => Thrown (SchemaValidationError OpUpdate issues)
     | VPromise => Thrown ValidationMustBeSynchronous
     end) ∧
  (JsMap.get k (get_state c) = None →
   (update (UpdateOne item callback) md c).1 =
   match validate changed with
   | VOk v =>
       Returned (mkTransaction pending
         [ {| original := mkObj (NewId n) ∅;
              modified := mkObj (NewId (S n)) (spread ∅ (fields v));
              changes := v;
              m_key := k;
              m_metadata := md;
              syncMetadata := smd;
              m_type := OpUpdate |} ])
   | VIssues issues => Thrown (SchemaValidationError OpUpdate issues)
   | VPromise => Thrown ValidationMustBeSynchronous
   end).
Proof.
  intros Hfn Hs Hk diff Hdiff changed n smd.
  pose proof (update_one_run c item callback md k Hfn Hk) as Hrun.
  simpl in Hrun. fold diff in Hrun. fold changed in Hrun. rewrite Hrun. clear Hrun.
  set (c1 := set_nextOid (S (nextOid c)) c).
  split.
  - intros existing Hne Hex.
    pose proof (update_mutation_existing validate md k changed existing c1 Hs Hne Hex Hdiff)
      as Hm. simpl in Hm. fold n in Hm.
    destruct (validate _) as [v|issues|].
    + rewrite (bind_returned _ _ _ _ _ Hm). apply applyTransaction_returns.
    + by rewrite (bind_thrown _ _ _ _ _ Hm).
    + by rewrite (bind_thrown _ _ _ _ _ Hm).
  - intros Hex.
    pose proof (update_mutation_absent validate md k changed c1 Hs Hex Hdiff) as Hm.
    simpl in Hm. fold n in Hm.
    destruct (validate _) as [v|issues|].
    + rewrite (bind_returned _ _ _ _ _ Hm). apply applyTransaction_returns.
    + by rewrite (bind_thrown _ _ _ _ _ Hm).
    + by rewrite (bind_thrown _ _ _ _ _ Hm).
Qed.

(** One changed record of an update with a schema. *)
Lemma update_mutation_gated validate md k changed c :
  schema (config c) = Some (StandardSchema validate) →
  fields changed ≠ ∅ →
  match update_mutation md (k, Some changed) c with
  | (Returned (Some m), c') =>
      (∃ n, c' = set_nextOid n c) ∧ gated c validate md (k, fields changed) m
  | (Returned None, c') => False
  | (Thrown e, c') =>
      (∃ n, c' = set_nextOid n c) ∧ rejected c validate (k, fields changed) e
  end.
Proof.
  intros Hs Hch. unfold update_mutation. rewrite decide_False by done.
  unfold gated, rejected, gate_input, merge_base, get_state. cbn [fst snd].
  destruct (decide (k = "")) as [Hk | Hk].
  - assert (Hv := validateData_directly validate changed OpUpdate (Some k) c Hs
                   (or_introl Hk : k = "" ∨ JsMap.get k (get_state c) = None)).
    destruct (validate changed) as [v|issues|] eqn:Hval.
    + rewrite (bind_returned _ _ _ _ _ Hv).
      unfold state_or_new, syncMetadata_of, bind, gets, alloc, ret, get_state.
      destruct (JsMap.get k (derivedState c)) as [existing|] eqn:Hex; simpl;
        rewrite ?Hex; simpl; rewrite ?Hex.
      * split; [by eexists|]. repeat (split; [done|]). by exists changed.
      * split; [by eexists|]. repeat (split; [done|]). by exists changed.
    + rewrite (bind_thrown _ _ _ _ _ Hv). split; [exists (nextOid c); by rewrite set_nextOid_same|].
      exists changed. by rewrite Hval.
    + rewrite (bind_thrown _ _ _ _ _ Hv). split; [exists (nextOid c); by rewrite set_nextOid_same|].
      exists changed. by rewrite Hval.
  - destruct (JsMap.get k (derivedState c)) as [existing|] eqn:Hex.
    + pose proof (validateData_merged validate changed k existing c Hs Hk Hex) as Hv.
      destruct (validate _) as [v|issues|] eqn:Hval.
      * rewrite (bind_returned _ _ _ _ _ Hv).
        unfold state_or_new, syncMetadata_of, bind, gets, alloc, ret, get_state. simpl.
        rewrite ?Hex. simpl. rewrite ?Hex.
        split; [by eexists|]. repeat (split; [done|]). split; [|done].
        by exists (mkObj (NewId (nextOid c)) (spread (fields existing) (fields changed))), v.
      * rewrite (bind_thrown _ _ _ _ _ Hv). split; [by eexists|].
        exists (mkObj (NewId (nextOid c)) (spread (fields existing) (fields changed))).
        by rewrite Hval.
      * rewrite (bind_thrown _ _ _ _ _ Hv). split; [by eexists|].
        exists (mkObj (NewId (nextOid c)) (spread (fields existing) (fields changed))).
        by rewrite Hval.
    + pose proof (validateData_directly validate changed OpUpdate (Some k) c Hs
                    (or_intror Hex)) as Hv.
      destruct (validate changed) as [v|issues|] eqn:Hval.
      * rewrite (bind_returned _ _ _ _ _ Hv).
        unfold state_or_new, syncMetadata_of, bind, gets, alloc, ret, get_state. simpl.
        rewrite ?Hex. simpl. rewrite ?Hex.
        split; [by eexists|]. repeat (split; [done|]). by exists changed.
      * rewrite (bind_thrown _ _ _ _ _ Hv).
        split; [exists (nextOid c); by rewrite set_nextOid_same|].
        exists changed. by rewrite Hval.
      * rewrite (bind_thrown _ _ _ _ _ Hv).
        split; [exists (nextOid c); by rewrite set_nextOid_same|].
        exists changed. by rewrite Hval.
Qed.

Lemma gated_accepted c validate md record m :
  gated c validate md record m → accepted c validate record.
Proof.
  intros (_ & _ & _ & _ & _ & H). unfold accepted, gate_input.
  destruct (merge_base c record.1) as [existing|].
  - by destruct H as [H _].
  - destruct H as [o H]. by exists o, (changes m).
Qed.

Lemma changed_of_cons k d pairs :
  changed_of ((k, d) :: pairs) =
  match d with
  | Some diff => if decide (diff = ∅) then changed_of pairs else (k, diff) :: changed_of pairs
  | None => changed_of pairs
  end.
Proof.
  unfold changed_of. simpl. destruct d as [diff|]; [|done]. by destruct (decide (diff = ∅)).
Qed.

(** The changed records of an update with a schema, one after the other:
    the mutations of those that pass the gate, or the error of the first one
    that the schema rejects. *)
Lemma mapM_update_mutation_gated validate md l c0 c :
  schema (config c0) = Some (StandardSchema validate) →
  (∃ n, c = set_nextOid n c0) →
  let records := changed_of ((λ kc : Key * option Obj, (kc.1, fields <$> kc.2)) <$> l) in
  match mapM (update_mutation md) l c with
  | (Returned ms, c') =>
      (∃ n, c' = set_nextOid n c0) ∧ Forall2 (gated c0 validate md) records (omap id ms)
  | (Thrown e, c') =>
      (∃ n, c' = set_nextOid n c0) ∧
      ∃ passed record rest,
        records = passed ++ record :: rest ∧
        Forall (accepted c0 validate) passed ∧
        rejected c0 validate record e
  end.
Proof.
  intros Hs. revert c. induction l as [|[k ch] l IH]; intros c Hc; cbn zeta.
  - simpl. split; [done | constructor].
  - cbn [mapM]. rewrite fmap_cons. cbn [fst snd]. rewrite changed_of_cons.
    assert (Hskip : update_mutation md (k, ch) c = (Returned None, c) →
      match (y <- update_mutation md (k, ch) ;;
             ys <- mapM (update_mutation md) l ;; ret (y :: ys)) c with
      | (Returned ms, c') =>
          (∃ n, c' = set_nextOid n c0) ∧
          Forall2 (gated c0 validate md)
            (changed_of ((λ kc : Key * option Obj, (kc.1, fields <$> kc.2)) <$> l))
            (omap id ms)
      | (Thrown e, c') =>
          (∃ n, c' = set_nextOid n c0) ∧
          ∃ passed record rest,
            changed_of ((λ kc : Key * option Obj, (kc.1, fields <$> kc.2)) <$> l) =
              passed ++ record :: rest ∧
            Forall (accepted c0 validate) passed ∧
            rejected c0 validate record e
      end).
    { intros Hone. rewrite (bind_returned _ _ _ _ _ Hone).
      specialize (IH c Hc). cbn zeta in IH. unfold bind, ret.
      by destruct (mapM (update_mutation md) l c) as [[ms|e] c']. }
    destruct ch as [changed|]; [|by apply Hskip].
    cbn [fmap option_fmap option_map].
    destruct (decide (fields changed = ∅)) as [Hempty | Hne].
    { apply Hskip. unfold update_mutation. by rewrite decide_True. }
    clear Hskip. destruct Hc as [n ->].
    pose proof (update_mutation_gated validate md k changed (set_nextOid n c0) Hs Hne) as Hone.
    unfold bind at 1.
    destruct (update_mutation md (k, Some changed) (set_nextOid n c0))
      as [[[m|]|e] c1]; [|done|].
    + destruct Hone as [[n1 ->] Hm].
      specialize (IH (set_nextOid n1 c0) (ex_intro _ n1 eq_refl)). cbn zeta in IH.
      change (set_nextOid n1 (set_nextOid n c0)) with (set_nextOid n1 c0).
      unfold bind, ret.
      destruct (mapM (update_mutation md) l (set_nextOid n1 c0)) as [[ms|e] c2].
      * destruct IH as [Hc2 Hms]. split; [done|]. simpl. by constructor.
      * destruct IH as (Hc2 & passed & record & rest & Heq & Hpassed & Hrej).
        split; [done|]. exists ((k, fields changed) :: passed), record, rest.
        split; [by rewrite Heq|]. split; [|done]. constructor; [|done].
        by apply (gated_accepted c0 validate md _ m).
    + destruct Hone as [[n1 ->] Hrej]. split; [by exists n1|].
      exists [], (k, fields changed),
        (changed_of ((λ kc : Key * option Obj, (kc.1, fields <$> kc.2)) <$> l)).
      split; [done|]. split; [constructor | done].
Qed.

(** With a merge base the diff itself is stored. *)
Lemma gated_changes c validate md records ms :
  Forall2 (gated c validate md) records ms →
  Forall (λ record : Key * Fields, is_Some (merge_base c record.1)) records →
  (λ m, fields (changes m)) <$> ms = snd <$> records.
Proof.
  induction 1 as [|record m records ms Hm _ IH]; intros Hbase; [done|].
  apply list.Forall_cons in Hbase as [[existing Hb] Hbase].
  rewrite !fmap_cons, IH by done. f_equal.
  destruct Hm as (_ & _ & _ & _ & _ & Hm). rewrite Hb in Hm. apply Hm.
Qed.


(** C8, amended.  For every update, of one item or of an array of items, with
    the persistence function and a schema configured and every item tracked:
    the records with a diff that is present and not empty are taken in the
    order of the items.  For each of them the schema gate is given the diff
    on top of the record that the overlay holds for the key (the merged
    record) if the overlay holds one and the key is not the empty string,
    and the diff as it is otherwise.  If the schema accepts them all, the
    update returns a pending transaction with one mutation per changed
    record, which stores the diff itself as [changes] when the merged record
    was validated and the value returned by the schema when the diff was
    validated as it is; [modified] is the overlay record with [changes] on
    top.  Otherwise the update throws: the error of the first record that
    the schema rejects, or "No changes were made" when no record has a
    diff. *)
Theorem update_validates_merged_record (c : Collection) (target : UpdateTarget)
    (md : option Fields) (keys : list Key) (validate : Obj → ValidationResult) :
  mutationFn (config c) = true →
  schema (config c) = Some (StandardSchema validate) →
  Forall2 (λ item k, objectKeyMap c !! oid item = Some k) (itemsArray target) keys →
  let records := changed_records keys (tracked_changes target (currentObjects c keys)) in
  match (update target md c).1 with
  | Returned tx =>
      state tx = pending ∧ records ≠ [] ∧
      Forall2 (gated c validate md) records (mutations tx)
  | Thrown e =>
      (records = [] ∧ e = NoChangesWereMade) ∨
      (∃ passed record rest,
         records = passed ++ record :: rest ∧
         Forall (accepted c validate) passed ∧
         rejected c validate record e)
  end.
Proof.
  intros Hfn Hs Hkeys records. unfold update.
  rewrite (bind_returned _ _ _ _ _ (require_mutationFn_ok c Hfn)).
  rewrite (bind_returned _ _ _ _ _ (mapM_resolve_item_ok c _ keys Hkeys)).
  unfold bind at 1, gets at 1.
  destruct (mapM_alloc_changes_spec (tracked_changes target (currentObjects c keys)) c)
    as (objs & n & Halloc & _ & Hobjs).
  rewrite (bind_returned _ _ _ _ _ Halloc).
  assert (Hrecords :
    changed_of ((λ kc : Key * option Obj, (kc.1, fields <$> kc.2))
                  <$> imap (λ i k, (k, mjoin (objs !! i))) keys) = records).
  { unfold records, changed_records. f_equal. rewrite fmap_imap. apply imap_ext.
    intros i k _. simpl. f_equal. rewrite <- Hobjs, list_lookup_fmap.
    by destruct (objs !! i) as [[o|]|]. }
  pose proof (mapM_update_mutation_gated validate md
                (imap (λ i k, (k, mjoin (objs !! i))) keys) c (set_nextOid n c) Hs
                (ex_intro _ n eq_refl)) as Hgate.
  cbn zeta in Hgate. rewrite Hrecords in Hgate. unfold bind at 1.
  destruct (mapM (update_mutation md) _ (set_nextOid n c)) as [[ms|e] c2].
  - destruct Hgate as [_ Hms]. case_bool_decide as Hlen.
    + left. split; [|done]. apply length_zero_iff_nil in Hlen. rewrite Hlen in Hms.
      by apply Forall2_nil_inv_r in Hms.
    + rewrite applyTransaction_returns. split; [done|]. split; [|done].
      intros Hnil. rewrite Hnil in Hms. apply Forall2_nil_inv_l in Hms.
      by rewrite Hms in Hlen.
  - right. apply Hgate.
Qed.

Lemma update_validates_merged_record_witness :
  changed_records ["k"; "k2"]
    (tracked_changes update_both (currentObjects two_records ["k"; "k2"])) =
    [("k", {[ "b" := VNum 2 ]}); ("k2", {[ "b" := VNum 2 ]})] ∧
  stored_changes (update update_both None two_records).1 =
    [ {[ "b" := VNum 2 ]}; {[ "b" := VNum 2 ]} ].
Proof.
  assert (Hrecords :
    changed_records ["k"; "k2"]
      (tracked_changes update_both (currentObjects two_records ["k"; "k2"])) =
    [("k", {[ "b" := VNum 2 ]}); ("k2", {[ "b" := VNum 2 ]})]) by (by vm_compute).
  split; [exact Hrecords|].
  assert (Hkeys : Forall2 (λ item k, objectKeyMap two_records !! oid item = Some k)
                    (itemsArray update_both) ["k"; "k2"]).
  { constructor; [by vm_compute|]. constructor; [by vm_compute | constructor]. }
  pose proof (update_validates_merged_record two_records update_both None ["k"; "k2"]
                (λ o, VOk (mkObj (oid o) (<["done" := VBool false]> (fields o))))
                eq_refl eq_refl Hkeys) as H.
  cbv zeta in H. rewrite Hrecords in H. revert H.
  generalize (update update_both None two_records).1. intros [tx|e] H.
  - destruct H as (_ & _ & H). unfold stored_changes.
    rewrite (gated_changes _ _ _ _ _ H); [done|].
    constructor; [exists record_a1; by vm_compute|].
    constructor; [exists record_x1; by vm_compute | constructor].
  - destruct H as [[H _] | (passed & record & rest & _ & _ & o & _ & H)];
      [discriminate H | destruct H].
Defined.

(** ** C9: [delete] and the identity map *)

(** Where the records of the combined map come from. *)
Lemma apply_operations_origin (sd : JsMap.t Obj) ops (combined : JsMap.t Obj) (n : nat)
    k (o : Obj) :
  JsMap.get k (fold_left (apply_operation sd) ops (combined, n)).1 = Some o →
  (JsMap.get k combined = Some o ∧ k ∉ key <$> ops) ∨
  (∃ op, op ∈ ops ∧ type op = OpInsert ∧ key op = k ∧ value op = o) ∨
  (∃ j, oid o = NewId j ∧ n ≤ j).
Proof.
  revert combined n. induction ops as [|op ops IH]; intros combined n Hget.
  - left. split; [done|]. apply not_elem_of_nil.
  - cbn [fold_left] in Hget. rewrite fmap_cons.
    destruct (apply_operation sd (combined, n) op) as [combined1 n1] eqn:Hstep.
    unfold apply_operation in Hstep.
    destruct (type op) eqn:Htype; injection Hstep as <- <-.
    + destruct (IH _ _ Hget) as [[Hk Hnot] | [(op' & Hin & H) | H]].
      * destruct (decide (key op = k)) as [Heq | Hne].
        -- rewrite Heq, JsMapFacts.get_set_eq in Hk. injection Hk as <-.
           right; left. exists op. split; [by left | done].
        -- rewrite JsMapFacts.get_set_ne in Hk by done.
           left. split; [done|]. by apply not_elem_of_cons.
      * right; left. exists op'. split; [by right | done].
      * by right; right.
    + destruct (IH _ _ Hget) as [[Hk Hnot] | [(op' & Hin & H) | (j & Hj & Hle)]].
      * destruct (decide (key op = k)) as [Heq | Hne].
        -- rewrite Heq, JsMapFacts.get_set_eq in Hk. injection Hk as <-.
           right; right. by exists n.
        -- rewrite JsMapFacts.get_set_ne in Hk by done.
           left. split; [done|]. by apply not_elem_of_cons.
      * right; left. exists op'. split; [by right | done].
      * right; right. exists j. split; [done | lia].
    + destruct (IH _ _ Hget) as [[Hk Hnot] | [(op' & Hin & H) | H]].
      * destruct (decide (key op = k)) as [Heq | Hne].
        -- by rewrite Heq, JsMapFacts.get_delete_eq in Hk.
        -- rewrite JsMapFacts.get_delete_ne in Hk by done.
           left. split; [done|]. by apply not_elem_of_cons.
      * right; left. exists op'. split; [by right | done].
      * by right; right.
Qed.

(** Keys deleted by the last operations are not in the combined map. *)
Lemma apply_deletes_removes (sd : JsMap.t Obj) dels (combined : JsMap.t Obj) (n : nat) k :
  Forall (λ op, type op = OpDelete) dels →
  k ∈ key <$> dels ∨ JsMap.get k combined = None →
  JsMap.get k (fold_left (apply_operation sd) dels (combined, n)).1 = None.
Proof.
  intros Hdels. revert combined n.
  induction Hdels as [|op dels Hop _ IH]; intros combined n Hk.
  - destruct Hk as [Hk | Hk]; [by apply elem_of_nil in Hk | done].
  - cbn [fold_left].
    replace (apply_operation sd (combined, n) op)
      with (JsMap.delete (key op) combined, n)
      by (unfold apply_operation; by rewrite Hop).
    apply IH.
    destruct (decide (key op = k)) as [<- | Hne].
    + right. apply JsMapFacts.get_delete_eq.
    + destruct Hk as [Hk | Hk].
      * rewrite fmap_cons in Hk. apply elem_of_cons in Hk as [Hk | Hk]; [congruence | by left].
      * right. by rewrite JsMapFacts.get_delete_ne.
Qed.

Lemma key_set_subset ks keys k :
  k ∈ fold_left set_add ks keys → k ∈ keys ∨ k ∈ ks.
Proof.
  revert keys. induction ks as [|x ks IH]; intros keys Hk; simpl in *; [by left|].
  destruct (IH _ Hk) as [Hin | Hin].
  - unfold set_add in Hin. destruct (decide (x ∈ keys)); [by left|].
    apply elem_of_app in Hin as [Hin | Hin]; [by left|].
    apply list_elem_of_singleton in Hin as ->. right. by left.
  - right. by right.
Qed.

(** Registering records whose identity is not [i] leaves [i] untracked. *)
Lemma register_other (m : JsMap.t Obj) keys (okm : gmap ObjId Key) i :
  okm !! i = None →
  (∀ k o, k ∈ keys → JsMap.get k m = Some o → oid o ≠ i) →
  fold_left (register m) keys okm !! i = None.
Proof.
  revert okm. induction keys as [|k keys IH]; intros okm Hnone Hother; simpl; [done|].
  apply IH.
  - unfold register. destruct (JsMap.get k m) as [o|] eqn:Hget; [|done].
    rewrite lookup_insert_ne; [done|]. apply (Hother k o); [by left | done].
  - intros k' o' Hin. apply Hother. by right.
Qed.

Lemma delete_mutation_spec md item c :
  (∃ e, delete_mutation md item c = (Thrown e, c)) ∨
  (∃ m n, delete_mutation md item c = (Returned m, set_nextOid n c) ∧
          nextOid c ≤ n ∧ m_type m = OpDelete).
Proof.
  unfold delete_mutation.
  assert (Hkey : ∀ k c,
    ∃ m n,
      (original <- state_or_new k ;; modified <- alloc tombstone ;;
       changes <- alloc tombstone ;; smd <- syncMetadata_of k ;;
       ret {| original := original; modified := modified; changes := changes;
              m_key := k; m_metadata := md; syncMetadata := smd;
              m_type := OpDelete |}) c = (Returned m, set_nextOid n c) ∧
      nextOid c ≤ n ∧ m_type m = OpDelete).
  { intros k c0. unfold state_or_new, syncMetadata_of, bind, gets, alloc, ret.
    destruct (JsMap.get k (get_state c0)) as [o|]; cbn -[tombstone];
      eexists _, _; (split; [reflexivity|]); split; (lia || done). }
  destruct item as [o|k].
  - destruct (objectKeyMap c !! oid o) as [k|] eqn:Hk.
    + right. rewrite (bind_returned _ _ _ _ _ (resolve_item_ok _ _ _ Hk)). apply Hkey.
    + left. exists ObjectNotFoundInCollection.
      by rewrite (bind_thrown _ _ _ _ _ (resolve_item_unknown _ _ Hk)).
  - right. unfold bind at 1, ret at 1. apply Hkey.
Qed.

Lemma mapM_delete_mutation_spec md items c :
  ∃ n, nextOid c ≤ n ∧
    ((∃ e, mapM (delete_mutation md) items c = (Thrown e, set_nextOid n c)) ∨
     (∃ ms, mapM (delete_mutation md) items c = (Returned ms, set_nextOid n c) ∧
            Forall (λ m, m_type m = OpDelete) ms)).
Proof.
  revert c. induction items as [|item items IH]; intros c.
  - exists (nextOid c). split; [done|]. right. exists []. rewrite set_nextOid_same.
    split; [done | constructor].
  - cbn [mapM].
    destruct (delete_mutation_spec md item c) as [[e He] | (m & n & Hm & Hn & Htype)].
    + exists (nextOid c). split; [done|]. left. exists e.
      by rewrite (bind_thrown _ _ _ _ _ He), set_nextOid_same.
    + rewrite (bind_returned _ _ _ _ _ Hm).
      destruct (IH (set_nextOid n c)) as (n' & Hn' & [[e He] | (ms & Hms & Hall)]).
      * exists n'. split; [simpl in Hn'; lia|]. left. exists e.
        by rewrite (bind_thrown _ _ _ _ _ He).
      * exists n'. split; [simpl in Hn'; lia|]. right. exists (m :: ms).
        rewrite (bind_returned _ _ _ _ _ Hms). split; [done | by constructor].
Qed.

(** A [delete] that returns: the mutations are tombstones, the current
    values are forgotten, and the transaction is appended as pending. *)
Lemma delete_returned c items md tx :
  (delete items md c).1 = Returned tx →
  ∃ n, nextOid c ≤ n ∧
    mutationFn (config c) = true ∧
    state tx = pending ∧
    Forall (λ m, m_type m = OpDelete) (mutations tx) ∧
    exec (delete items md) c =
      exec commitPendingTransactions
        (recompute
           (set_transactions (transactions c ++ [tx])
              (fold_left forget_current (mutations tx) (set_nextOid n c)))).
Proof.
  unfold exec, delete. intros Hret.
  destruct (mutationFn (config c)) eqn:Hfn.
  - rewrite (bind_returned _ _ _ _ _ (require_mutationFn_ok c Hfn)) in Hret |- *.
    destruct (mapM_delete_mutation_spec md (as_array items) c)
      as (n & Hn & [[e He] | (ms & Hms & Hall)]).
    + by rewrite (bind_thrown _ _ _ _ _ He) in Hret.
    + rewrite (bind_returned _ _ _ _ _ Hms) in Hret |- *.
      exists n. injection Hret as <-.
      repeat (split; [done|]). cbn [mutations].
      unfold bind, modify, TransactionManager.applyTransaction,
        TransactionManager.transactions_changed, ret. cbn [fst snd].
      destruct (fold_forget_current_objectKeyMap ms (set_nextOid n c)) as [okm ->].
      done.
  - unfold require_mutationFn, bind, gets in Hret. simpl in Hret.
    by rewrite Hfn in Hret.
Qed.

Lemma fold_forget_current_spec ms c :
  get_state (fold_left forget_current ms c) = get_state c ∧
  config (fold_left forget_current ms c) = config c ∧
  syncedData (fold_left forget_current ms c) = syncedData c ∧
  nextOid (fold_left forget_current ms c) = nextOid c ∧
  ∀ i,
    objectKeyMap c !! i = None ∨
    (∃ m o, m ∈ ms ∧ JsMap.get (m_key m) (get_state c) = Some o ∧ oid o = i) →
    objectKeyMap (fold_left forget_current ms c) !! i = None.
Proof.
  revert c. induction ms as [|m ms IH]; intros c; cbn [fold_left].
  - repeat (split; [done|]). intros i [H | (m & o & Hin & _)]; [done|].
    by apply elem_of_nil in Hin.
  - destruct (IH (forget_current c m)) as (Hst & Hcfg & Hsd & Hn & Hokm).
    assert (Hframe : get_state (forget_current c m) = get_state c ∧
                     config (forget_current c m) = config c ∧
                     syncedData (forget_current c m) = syncedData c ∧
                     nextOid (forget_current c m) = nextOid c).
    { unfold forget_current. by destruct (JsMap.get _ _). }
    destruct Hframe as (Hst1 & Hcfg1 & Hsd1 & Hn1).
    rewrite Hst, Hcfg, Hsd, Hn. repeat (split; [done|]).
    intros i Hi. apply Hokm. rewrite Hst1.
    destruct Hi as [Hnone | (m' & o & Hin & Hget & Hoid)].
    + left. unfold forget_current. destruct (JsMap.get _ _); [|done]. simpl.
      destruct (decide (oid o = i)) as [-> | Hne];
        [apply lookup_delete_eq | by rewrite lookup_delete_ne].
    + apply elem_of_cons in Hin as [-> | Hin].
      * left. unfold forget_current. rewrite Hget. simpl. rewrite Hoid.
        apply lookup_delete_eq.
      * right. by exists m', o.
Qed.

Lemma optimisticOperations_snoc txs tx :
  state tx = pending →
  optimisticOperations (txs ++ [tx]) =
  optimisticOperations txs ++ (to_message <$> mutations tx).
Proof.
  intros Hst. unfold optimisticOperations.
  rewrite list.filter_app, fmap_app, concat_app. f_equal.
  rewrite filter_cons_True by (unfold is_live; by rewrite Hst).
  simpl. by rewrite app_nil_r.
Qed.

Lemma recompute_objectKeyMap c :
  objectKeyMap (recompute c) =
  fold_left (register (derivedState (recompute c)))
    (key_set (optimisticOperations (transactions c))) (objectKeyMap c).
Proof.
  unfold recompute, derivedState_fn.
  destruct (fold_left _ _ _) as [combined n]. done.
Qed.

(** C9.  [delete] leaves a record tracked that was associated with the removed
    key.  With an update of the key pending, the overlay holds a merged copy
    of the record; [delete(record)] removes the association of that copy, and
    the record passed to [delete] stays associated with the key: a later
    [update(record, ...)] does not throw and creates a transaction on the
    removed key. *)
Lemma stale_reference_survives_delete :
  after_delete =
    run no_stringify stale_reference_events (new_collection example_config) ∧
  JsMap.get "k" (get_state after_delete) = None ∧
  objectKeyMap after_delete !! oid record_a1 = Some "k" ∧
  (update (UpdateOne record_a1 (assign "b" (VNum 2))) None after_delete).1 ≠
    Thrown ObjectNotFoundInCollection ∧
  length (transactions after_second_update) = S (length (transactions after_delete)).
Proof.
  split; [by vm_compute|]. split; [by vm_compute|]. split; [by vm_compute|].
  split; [|by vm_compute]. vm_compute. intros H. discriminate H.
Qed.

(** X17.  What [delete] does remove.  A [delete] that
    returns has removed, before returning, the identity association of the
    record that the overlay held for each removed key at the time of the
    call.  If that record exists and is not the record of a pending insert
    under a key that stays, it is then untracked: an [update] that is passed
    it throws "Object not found in collection" and leaves the collection, and
    so its transaction set, as it was. *)
Theorem delete_forgets_current_value (c : Collection) (items : OneOrMany DeleteItem)
    (md : option Fields) (tx : Transaction) (k : Key) (o : Obj) :
  (delete items md c).1 = Returned tx →
  k ∈ removed_keys tx →
  JsMap.get k (get_state c) = Some o →
  allocated c o →
  (∀ op, op ∈ optimisticOperations (transactions c) → type op = OpInsert →
         key op ∉ removed_keys tx → oid (value op) ≠ oid o) →
  let c' := exec (delete items md) c in
  objectKeyMap c' !! oid o = None ∧
  JsMap.get k (get_state c') = None ∧
  ∀ target md', o ∈ itemsArray target →
    update target md' c' = (Thrown ObjectNotFoundInCollection, c').
Proof.
  intros Hret Hk Hget Halloc Hinserts c'.
  destruct (delete_returned c items md tx Hret) as (n & Hn & Hfn & Hst & Hdel & Hrun).
  subst c'. rewrite Hrun. clear Hrun.
  set (cb := fold_left forget_current (mutations tx) (set_nextOid n c)).
  set (cc := set_transactions (transactions c ++ [tx]) cb).
  destruct (fold_forget_current_spec (mutations tx) (set_nextOid n c))
    as (Hst_b & Hcfg_b & Hsd_b & Hn_b & Hokm_b).
  fold cb in Hst_b, Hcfg_b, Hsd_b, Hn_b, Hokm_b.
  destruct (recompute_frame cc) as (Htx_r & Hsd_r & _ & _ & _ & _ & Hcfg_r & _).
  (* the new transaction is pending: the merge stays gated *)
  assert (Hgate : exec commitPendingTransactions (recompute cc) = recompute cc).
  { apply commitPendingTransactions_gated, merge_gated. rewrite Htx_r. simpl.
    apply Exists_app. right. apply Exists_cons_hd. rewrite Hst.
    intros [H | H]; discriminate H. }
  rewrite Hgate.
  (* the operations: the old ones, then the tombstones *)
  assert (Hops : optimisticOperations (transactions c ++ [tx]) =
                 optimisticOperations (transactions c) ++ (to_message <$> mutations tx))
    by (by apply optimisticOperations_snoc).
  assert (Hdels : Forall (λ op, type op = OpDelete) (to_message <$> mutations tx)).
  { apply list.Forall_forall. intros op (m & -> & Hm)%list_elem_of_fmap.
    rewrite list.Forall_forall in Hdel. by apply Hdel. }
  assert (Hkeys : key <$> (to_message <$> mutations tx) = removed_keys tx).
  { unfold removed_keys. rewrite <- list_fmap_compose. done. }
  assert (Hcombined : derivedState (recompute cc) =
    (fold_left (apply_operation (syncedData c)) (to_message <$> mutations tx)
       (fold_left (apply_operation (syncedData c)) (optimisticOperations (transactions c))
          (syncedData c, n))).1).
  { rewrite derivedState_recompute. simpl.
    by rewrite Hops, fold_left_app, Hsd_b, Hn_b. }
  assert (Hremoved : ∀ k', k' ∈ removed_keys tx →
                           JsMap.get k' (derivedState (recompute cc)) = None).
  { intros k' Hk'. rewrite Hcombined.
    destruct (fold_left (apply_operation (syncedData c)) _ (syncedData c, n))
      as [combined1 n1].
    apply apply_deletes_removes; [done|]. left. by rewrite Hkeys. }
  assert (Huntracked : objectKeyMap (recompute cc) !! oid o = None).
  { rewrite recompute_objectKeyMap. apply register_other.
    - simpl. apply Hokm_b. right.
      apply list_elem_of_fmap in Hk as (m & -> & Hm). by exists m, o.
    - intros k' o' Hk' Hget'.
      destruct (decide (k' ∈ removed_keys tx)) as [Hin | Hnotin];
        [by rewrite Hremoved in Hget'|].
      apply key_set_subset in Hk' as [Hk' | Hk']; [by apply elem_of_nil in Hk'|].
      rewrite derivedState_recompute in Hget'. simpl in Hget'.
      rewrite Hsd_b, Hn_b in Hget'. simpl in Hget'.
      apply apply_operations_origin in Hget'
        as [[_ Hnot] | [(op & Hop & Htype & Hkey & Hval) | (j & Hj & Hle)]].
      + done.
      + rewrite Hops in Hop. apply elem_of_app in Hop as [Hop | Hop].
        * rewrite <- Hval. apply Hinserts; [done | done | by rewrite Hkey].
        * rewrite list.Forall_forall in Hdels. specialize (Hdels op Hop). congruence.
      + unfold allocated in Halloc. intros Heq. rewrite <- Heq, Hj in Halloc. lia. }
  split; [done|]. split; [by apply Hremoved|].
  intros target md' Hin. unfold update.
  assert (Hfn' : mutationFn (config (recompute cc)) = true).
  { rewrite Hcfg_r. simpl. by rewrite Hcfg_b. }
  rewrite (bind_returned _ _ _ _ _ (require_mutationFn_ok _ Hfn')).
  by rewrite (bind_thrown _ _ _ _ _ (mapM_resolve_item_unknown _ _ o Hin Huntracked)).
Qed.

Lemma delete_forgets_current_value_witness :
  objectKeyMap synced_once !! oid record_a1 = Some "k" ∧
  (update (UpdateOne record_a1 (assign "b" (VNum 2))) None
     (exec (delete (One (ItemKey "k")) None) synced_once)).1 =
  Thrown ObjectNotFoundInCollection.
Proof.
  split; [reflexivity|].
  assert (Hret : (delete (One (ItemKey "k")) None synced_once).1 =
                 Returned example_delete_tx) by (by vm_compute).
  assert (Hk : "k" ∈ removed_keys example_delete_tx) by (left).
  assert (Hins : ∀ op, op ∈ optimisticOperations (transactions synced_once) →
            type op = OpInsert → key op ∉ removed_keys example_delete_tx →
            oid (value op) ≠ oid record_a1).
  { intros op Hop. simpl in Hop. apply elem_of_nil in Hop. destruct Hop. }
  destruct (delete_forgets_current_value synced_once (One (ItemKey "k")) None
              example_delete_tx "k" record_a1 Hret Hk eq_refl I Hins) as (_ & _ & H).
  rewrite (H (UpdateOne record_a1 (assign "b" (VNum 2))) None); [reflexivity|].
  left.
Defined.

(** ** The ingestion callbacks: buffering and closing a round *)

Lemma map_last_snoc {A} (f : A → A) l x : map_last f (l ++ [x]) = l ++ [f x].
Proof.
  induction l as [|y l IH]; [done|].
  rewrite <- !app_comm_cons.
  destruct (l ++ [x]) as [|z l'] eqn:Happ; [by destruct l|].
  change (map_last f (y :: z :: l')) with (y :: map_last f (z :: l')).
  by rewrite IH.
Qed.


(** A [write] into an open last buffer appends the message to it. *)
Lemma write_open c queue ops message :
  pendingSyncedTransactions c = queue ++ [mkPendingSyncedTransaction false ops] →
  write message c =
  (Returned tt,
   set_pendingSyncedTransactions
     (queue ++ [mkPendingSyncedTransaction false (ops ++ [message])]) c).
Proof.
  intros Hq. unfold write, bind, gets, modify. simpl.
  rewrite Hq, last_snoc. cbn -[map_last]. by rewrite Hq, map_last_snoc.
Qed.

Lemma mapM_write_open messages c queue ops :
  pendingSyncedTransactions c = queue ++ [mkPendingSyncedTransaction false ops] →
  mapM write messages c =
  (Returned ((λ _, tt) <$> messages),
   set_pendingSyncedTransactions
     (queue ++ [mkPendingSyncedTransaction false (ops ++ messages)]) c).
Proof.
  revert c ops. induction messages as [|message messages IH]; intros c ops Hq.
  - simpl. unfold ret. rewrite app_nil_r, <- Hq. by destruct c.
  - cbn [mapM]. rewrite (bind_returned _ _ _ _ _ (write_open c queue ops message Hq)).
    set (c1 := set_pendingSyncedTransactions _ c).
    assert (Hq1 : pendingSyncedTransactions c1 =
                  queue ++ [mkPendingSyncedTransaction false (ops ++ [message])]) by done.
    rewrite (bind_returned _ _ _ _ _ (IH c1 (ops ++ [message]) Hq1)).
    unfold ret. simpl. by rewrite <- app_assoc.
Qed.

(** X1.  A round that is not committed is only buffered.  [begin()] followed by any
    number of [write]s never throws; it appends one open buffer that holds the
    messages in the order written, behind the buffers already queued, and
    leaves everything else of the collection (synced data and metadata,
    overlay, identity map, first-commit state) as it was. *)
Theorem writes_are_buffered (c : Collection) (messages : list ChangeMessage) :
  (begin ;;; mapM write messages) c =
  (Returned ((λ _, tt) <$> messages),
   set_pendingSyncedTransactions
     (pendingSyncedTransactions c ++ [mkPendingSyncedTransaction false messages]) c).
Proof.
  unfold bind at 1, begin at 1, modify at 1.
  rewrite (mapM_write_open messages _ (pendingSyncedTransactions c) []) by done.
  done.
Qed.




(** ** The first commit calls the callbacks that wait for it *)

(** The first merge that runs calls the callbacks of the list, in the order
    of the list and up to the first one that throws, and empties the list. *)
Lemma first_merge_calls_callbacks c :
  hasReceivedFirstCommit c = false →
  merge_permitted c = true →
  hasReceivedFirstCommit (exec commitPendingTransactions c) = true ∧
  firedCallbacks (exec commitPendingTransactions c) =
    firedCallbacks c ++ called_callbacks (onFirstCommitCallbacks c) ∧
  onFirstCommitCallbacks (exec commitPendingTransactions c) = [].
Proof.
  intros Hflag Hgate. rewrite exec_commitPendingTransactions; cbv zeta. rewrite Hgate.
  destruct (fold_left merge_transaction _ _) as [[keys md] [sd n]].
  set (c1 := set_syncedMetadata md (set_syncedData sd (set_nextOid n c))).
  assert (Hc2 : ∀ c2, c2 = c1 ∨ c2 = recompute c1 →
    hasReceivedFirstCommit c2 = false ∧
    onFirstCommitCallbacks c2 = onFirstCommitCallbacks c ∧
    firedCallbacks c2 = firedCallbacks c).
  { intros c2 [-> | ->]; [done|].
    by destruct (recompute_frame c1) as (_ & _ & _ & _ & -> & -> & _ & ->). }
  case_bool_decide.
  - destruct (Hc2 c1 (or_introl eq_refl)) as (H1 & H2 & H3). simpl. by rewrite Hflag.
  - destruct (Hc2 (recompute c1) (or_intror eq_refl)) as (H1 & H2 & H3). simpl.
    by rewrite H1, H2, H3.
Qed.

Lemma waiting_or_called_merge called registered c :
  waiting_or_called called registered c →
  waiting_or_called called registered (exec commitPendingTransactions c).
Proof.
  intros [(Hflag & Hcalled & [l Hreg]) | (Hflag & later & Hcalled)].
  - destruct (merge_permitted c) eqn:Hgate.
    + destruct (first_merge_calls_callbacks c Hflag Hgate) as (H1 & H2 & _).
      right. split; [done|]. rewrite H2, Hcalled, Hreg, called_callbacks_app.
      destruct (forallb _ registered) eqn:Hall.
      * exists (called_callbacks l). split; [|done].
        f_equal. f_equal. symmetry. apply called_callbacks_all.
        apply Forall_forall. intros callback Hin.
        apply negb_true_iff. revert callback Hin. apply forallb_forall, Hall.
      * exists []. by rewrite app_nil_r.
    + rewrite (commitPendingTransactions_gated c Hgate). left. split; [done|].
      split; [done | by exists l].
  - destruct (first_commit_done_merge (firedCallbacks c) c) as [H1 H2]; [by split|].
    right. split; [done|]. exists later. by rewrite H2.
Qed.

Lemma waiting_or_called_recompute called registered c :
  waiting_or_called called registered c →
  waiting_or_called called registered (recompute c).
Proof.
  unfold waiting_or_called.
  by destruct (recompute_frame c) as (_ & _ & _ & _ & -> & -> & _ & ->).
Qed.

Lemma waiting_or_called_run stringify called registered events c :
  waiting_or_called called registered c →
  waiting_or_called called registered (run stringify events c).
Proof.
  apply (run_invariant (waiting_or_called called registered)); try done.
  - intros l c0 [(Hflag & Hcalled & Hreg) | H]; [left | by right].
    split; [done|]. split; [done|]. simpl. by apply prefix_app_r.
  - apply waiting_or_called_merge.
  - intros txs c0 H. by apply waiting_or_called_merge, waiting_or_called_recompute.
Qed.

(** What the first commit has called of the callbacks [registered]: all of
    them if none throws, those up to the first that throws otherwise, and
    then nothing more. *)
Lemma called_or_thrown called registered c :
  hasReceivedFirstCommit c = true →
  waiting_or_called called registered c →
  (Forall (λ callback, throws callback = false) registered →
   ∃ later, firedCallbacks c = called ++ registered ++ later) ∧
  (∀ before callback after,
     registered = before ++ callback :: after →
     Forall (λ callback, throws callback = false) before →
     throws callback = true →
     firedCallbacks c = called ++ before ++ [callback]).
Proof.
  intros Hflag [(Hf & _) | (_ & later & Hcalled & Hlater)]; [congruence|]. split.
  - intros Hall. exists later. by rewrite Hcalled, (called_callbacks_all _ Hall).
  - intros before callback after -> Hbefore Hthrows.
    rewrite Hcalled, (called_callbacks_until _ _ _ Hbefore Hthrows), Hlater.
    + by rewrite app_nil_r.
    + rewrite forallb_app. simpl. rewrite Hthrows. simpl. apply andb_false_r.
Qed.

(** X5.  Callbacks registered before the first commit are called by it, up to
    the first one that throws.  From a state without a first commit, whatever
    happens next: either there has still been no first commit, nothing more
    has been called and the callbacks are still waiting; or the first commit
    has happened, and then, if none of the callbacks that were waiting
    throws, all of them have been called, in the order of their
    registration, before any callback registered later, and if one of them
    throws, the callbacks before it and that one have been called and no
    other callback has been or will be: those behind it are lost. *)
Theorem waiting_callbacks_are_called_in_order stringify (c : Collection)
    (events : list Event) :
  hasReceivedFirstCommit c = false →
  let c' := run stringify events c in
  (hasReceivedFirstCommit c' = false ∧
   firedCallbacks c' = firedCallbacks c ∧
   onFirstCommitCallbacks c `prefix_of` onFirstCommitCallbacks c') ∨
  (hasReceivedFirstCommit c' = true ∧
   (Forall (λ callback, throws callback = false) (onFirstCommitCallbacks c) →
    ∃ later,
      firedCallbacks c' = firedCallbacks c ++ onFirstCommitCallbacks c ++ later) ∧
   (∀ before callback after,
      onFirstCommitCallbacks c = before ++ callback :: after →
      Forall (λ callback, throws callback = false) before →
      throws callback = true →
      firedCallbacks c' = firedCallbacks c ++ before ++ [callback])).
Proof.
  intros Hflag c'.
  assert (H : waiting_or_called (firedCallbacks c) (onFirstCommitCallbacks c) c').
  { apply waiting_or_called_run. left. split; [done|]. split; [done | reflexivity]. }
  destruct (hasReceivedFirstCommit c') eqn:Hflag'.
  - right. split; [done|]. by apply called_or_thrown.
  - left. destruct H as [(_ & H1 & H2) | (Hf & _)]; [done | congruence].
Qed.

Lemma waiting_callbacks_are_called_in_order_witness :
  hasReceivedFirstCommit throwing_collection = false ∧
  onFirstCommitCallbacks throwing_collection =
    [UserCallback 7; ThrowingCallback 8; ResolveState] ∧
  firedCallbacks
    (run no_stringify [EBegin; EOnFirstCommit 9; ECommit; EBegin; ECommit]
       throwing_collection) =
  [UserCallback 7; ThrowingCallback 8].
Proof.
  split; [reflexivity|]. split; [reflexivity|].
  destruct (waiting_callbacks_are_called_in_order no_stringify throwing_collection
              [EBegin; EOnFirstCommit 9; ECommit; EBegin; ECommit] eq_refl)
    as [(Hflag & _) | (_ & _ & H)].
  - vm_compute in Hflag. discriminate Hflag.
  - apply (H [UserCallback 7] (ThrowingCallback 8) [ResolveState]);
      [reflexivity | by repeat constructor | reflexivity].
Defined.

(** A callback registered before the first commit, behind the callbacks
    [waiting], once the first commit has happened. *)
Lemma registered_callback_is_called stringify c callback events :
  hasReceivedFirstCommit c = false →
  let c1 := set_onFirstCommitCallbacks (onFirstCommitCallbacks c ++ [callback]) c in
  hasReceivedFirstCommit (run stringify events c1) = true →
  called_behind (firedCallbacks c) (onFirstCommitCallbacks c) callback
    (firedCallbacks (run stringify events c1)).
Proof.
  intros Hflag c1 Hdone.
  assert (H : waiting_or_called (firedCallbacks c1) (onFirstCommitCallbacks c1)
                (run stringify events c1)).
  { apply waiting_or_called_run. left. split; [done|]. split; [done | reflexivity]. }
  destruct (called_or_thrown _ _ _ Hdone H) as [Hall Hthrown]. split.
  - intros Hwaiting. destruct (throws callback) eqn:Hthrows.
    + rewrite (Hthrown (onFirstCommitCallbacks c) callback []); [|done..].
      rewrite !elem_of_app, list_elem_of_singleton. auto.
    + destruct Hall as [later ->].
      { simpl. apply Forall_app. split; [done|]. by repeat constructor. }
      simpl. rewrite !elem_of_app, list_elem_of_singleton. auto.
  - intros before thrower after Hw Hbefore Hthrows.
    apply (Hthrown before thrower (after ++ [callback])); [|done..].
    simpl. by rewrite Hw, <- app_assoc.
Qed.

(** X6.  [stateWhenReady] and [toArrayWhenReady].  With a record in the overlay
    (an optimistic insert is enough) or after the first commit, the call
    resolves at once with the current overlay and registers nothing.
    Otherwise it registers exactly one resolver and waits.  Once the first
    commit has happened, the resolver has been called if none of the
    callbacks registered before it throws; if one of them throws, the trace
    ends with that callback and the promise is never resolved. *)
Theorem ready_now_or_at_first_commit stringify (c : Collection) (events : list Event) :
  (get_state c ≠ JsMap.empty ∨ hasReceivedFirstCommit c = true →
   stateWhenReady c = (Returned (Resolved (get_state c)), c) ∧
   toArrayWhenReady c = (Returned (Resolved (toArray c)), c)) ∧
  (get_state c = JsMap.empty → hasReceivedFirstCommit c = false →
   stateWhenReady c =
     (Returned Waiting,
      set_onFirstCommitCallbacks (onFirstCommitCallbacks c ++ [ResolveState]) c) ∧
   toArrayWhenReady c =
     (Returned Waiting,
      set_onFirstCommitCallbacks (onFirstCommitCallbacks c ++ [ResolveArray]) c) ∧
   (hasReceivedFirstCommit (run stringify events (exec stateWhenReady c)) = true →
    called_behind (firedCallbacks c) (onFirstCommitCallbacks c) ResolveState
      (firedCallbacks (run stringify events (exec stateWhenReady c)))) ∧
   (hasReceivedFirstCommit (run stringify events (exec toArrayWhenReady c)) = true →
    called_behind (firedCallbacks c) (onFirstCommitCallbacks c) ResolveArray
      (firedCallbacks (run stringify events (exec toArrayWhenReady c))))).
Proof.
  split.
  - intros Hready.
    assert (Hr : bool_decide (0 < JsMap.size (get_state c)) || hasReceivedFirstCommit c = true).
    { destruct Hready as [Hne | ->]; [|apply orb_true_r].
      apply orb_true_iff. left. apply bool_decide_eq_true.
      unfold JsMap.size. destruct (get_state c); [done | simpl; lia]. }
    assert (Ha : bool_decide (0 < length (toArray c)) || hasReceivedFirstCommit c = true).
    { unfold toArray, JsMap.values. rewrite length_fmap. exact Hr. }
    unfold stateWhenReady, toArrayWhenReady, bind, gets. simpl.
    by rewrite Hr, Ha.
  - intros Hempty Hflag.
    assert (Hs : stateWhenReady c =
      (Returned Waiting,
       set_onFirstCommitCallbacks (onFirstCommitCallbacks c ++ [ResolveState]) c)).
    { unfold stateWhenReady, bind, gets. simpl. by rewrite Hempty, Hflag. }
    assert (Ha : toArrayWhenReady c =
      (Returned Waiting,
       set_onFirstCommitCallbacks (onFirstCommitCallbacks c ++ [ResolveArray]) c)).
    { unfold toArrayWhenReady, bind, gets, toArray. simpl.
      unfold get_state in Hempty. by rewrite Hempty, Hflag. }
    split; [done|]. split; [done|].
    unfold exec. rewrite Hs, Ha. cbn [snd].
    split; intros Hdone; by apply registered_callback_is_called.
Qed.

Lemma ready_now_or_at_first_commit_witness :
  get_state (new_collection example_config) = JsMap.empty ∧
  ResolveState ∈
    firedCallbacks
      (run no_stringify [EBegin; ECommit]
         (exec stateWhenReady (new_collection example_config))).
Proof.
  split; [reflexivity|].
  destruct (ready_now_or_at_first_commit no_stringify (new_collection example_config)
              [EBegin; ECommit]) as [_ H].
  destruct (H eq_refl eq_refl) as (_ & _ & Hstate & _).
  apply Hstate; [reflexivity | constructor].
Defined.

(** ** What [commit] throws at the first commit *)

(** What the call gives back when it takes the first-commit branch: what the
    loop over the callbacks gives back. *)
Lemma first_merge_outcome c :
  merge_permitted c = true →
  hasReceivedFirstCommit c = false →
  ∃ c', (commitPendingTransactions c).1 = (forEach call (onFirstCommitCallbacks c) c').1.
Proof.
  intros Hgate Hflag. unfold commitPendingTransactions. rewrite Hgate.
  destruct (fold_left merge_transaction _ _) as [[keys md] [sd n]]. cbv zeta.
  set (c1 := set_syncedMetadata md (set_syncedData sd (set_nextOid n c))).
  assert (Hc2 : ∀ c2, c2 = c1 ∨ c2 = recompute c1 →
    hasReceivedFirstCommit c2 = false ∧
    onFirstCommitCallbacks c2 = onFirstCommitCallbacks c).
  { intros c2 [-> | ->]; [done|].
    by destruct (recompute_frame c1) as (_ & _ & _ & _ & -> & -> & _). }
  case_bool_decide.
  - destruct (Hc2 c1 (or_introl eq_refl)) as [H1 H2]. simpl. rewrite Hflag. by eexists.
  - destruct (Hc2 (recompute c1) (or_intror eq_refl)) as [H1 H2]. simpl.
    rewrite H1, H2. by eexists.
Qed.

(** A merge that is deferred, or that is not the first, returns. *)
Lemma later_merge_returns c :
  merge_permitted c = false ∨ hasReceivedFirstCommit c = true →
  (commitPendingTransactions c).1 = Returned tt.
Proof.
  intros Hc. unfold commitPendingTransactions.
  destruct (merge_permitted c); [|done]. destruct Hc as [Hc | Hflag]; [done|].
  destruct (fold_left merge_transaction _ _) as [[keys md] [sd n]]. cbv zeta.
  set (c1 := set_syncedMetadata md (set_syncedData sd (set_nextOid n c))).
  case_bool_decide; simpl.
  - by rewrite Hflag.
  - destruct (recompute_frame c1) as (_ & _ & _ & _ & Hf & _). simpl in Hf.
    by rewrite Hf, Hflag.
Qed.

(** X27.  [commit] and the callbacks of the first commit.  A [commit()] on an open
    buffer returns when its merge is deferred or is not the first.  When it
    runs the first merge, it calls the waiting callbacks at the very end,
    with nothing to catch what they throw: it returns if none of them throws,
    and throws what the first throwing callback throws otherwise.  Either
    way the merge is done: the queued changes are in SyncedDataset, the queue
    and the list of callbacks are empty and the flag is set, so that a
    [commit()] tried again throws "No pending sync transaction to commit". *)
Theorem commit_throws_what_a_callback_throws (c : Collection)
    (t : PendingSyncedTransaction) :
  list.last (pendingSyncedTransactions c) = Some t →
  committed t = false →
  let c' := exec commit c in
  (merge_permitted c = false ∨ hasReceivedFirstCommit c = true →
   (commit c).1 = Returned tt) ∧
  (merge_permitted c = true → hasReceivedFirstCommit c = false →
   (Forall (λ callback, throws callback = false) (onFirstCommitCallbacks c) →
    (commit c).1 = Returned tt) ∧
   (∀ before n after,
      onFirstCommitCallbacks c = before ++ ThrowingCallback n :: after →
      Forall (λ callback, throws callback = false) before →
      (commit c).1 = Thrown (CallbackError n)) ∧
   hasReceivedFirstCommit c' = true ∧
   onFirstCommitCallbacks c' = [] ∧
   pendingSyncedTransactions c' = [] ∧
   view (syncedData c') =
     fold_left spec_merge_data (buffered_changes (pendingSyncedTransactions c))
       (view (syncedData c)) ∧
   (commit c').1 = Thrown NoPendingSyncTransactionToCommit).
Proof.
  intros Hlast Hopen c'.
  set (c1 := set_pendingSyncedTransactions
               (map_last mark_committed (pendingSyncedTransactions c)) c).
  assert (Hrun : commit c = commitPendingTransactions c1).
  { unfold commit, bind, gets, modify. cbn [fst snd]. by rewrite Hlast, Hopen. }
  assert (Hc' : c' = exec commitPendingTransactions c1).
  { unfold c', exec. by rewrite Hrun. }
  rewrite Hrun. split.
  - intros Hc. by apply later_merge_returns.
  - intros Hgate Hflag.
    destruct (first_merge_outcome c1 Hgate Hflag) as [c2 Hout]. rewrite Hout.
    destruct (first_merge_calls_callbacks c1 Hflag Hgate) as (Hflag' & _ & Hlist).
    destruct (commitPendingTransactions_permitted c1 Hgate) as (Hq & Hdata & _).
    rewrite <- Hc' in Hflag', Hlist, Hq, Hdata.
    split; [intros Hall; by apply forEach_call_returns|].
    split.
    { intros before n after Hwaiting Hbefore.
      change (onFirstCommitCallbacks c1) with (onFirstCommitCallbacks c).
      rewrite Hwaiting. by apply forEach_call_throws. }
    repeat (split; [done|]). split.
    + rewrite Hdata. unfold c1. simpl. by rewrite buffered_changes_map_last.
    + unfold commit, bind, gets, throw. simpl. by rewrite Hq.
Qed.

Lemma commit_throws_what_a_callback_throws_witness :
  let c := exec begin throwing_collection in
  (commit c).1 = Thrown (CallbackError 8) ∧
  hasReceivedFirstCommit (exec commit c) = true ∧
  (commit (exec commit c)).1 = Thrown NoPendingSyncTransactionToCommit.
Proof.
  intros c.
  destruct (commit_throws_what_a_callback_throws c (mkPendingSyncedTransaction false [])
              eq_refl eq_refl) as [_ H].
  destruct (H eq_refl eq_refl) as (_ & Hthrows & Hflag & _ & _ & _ & Hagain).
  split; [|by split].
  apply (Hthrows [UserCallback 7] 8 [ResolveState]); [reflexivity | by repeat constructor].
Defined.

(** ** The overlay, key by key *)

Lemma apply_operation_other sd (combined : JsMap.t Obj) (n : nat) op k :
  key op ≠ k →
  JsMap.get k (apply_operation sd (combined, n) op).1 = JsMap.get k combined.
Proof.
  intros Hne. unfold apply_operation. destruct (type op); simpl.
  - by apply JsMapFacts.get_set_ne.
  - by apply JsMapFacts.get_set_ne.
  - by apply JsMapFacts.get_delete_ne.
Qed.

(** Operations on other keys leave the record of a key alone. *)
Lemma apply_operations_other sd ops (combined : JsMap.t Obj) (n : nat) k :
  k ∉ key <$> ops →
  JsMap.get k (fold_left (apply_operation sd) ops (combined, n)).1 = JsMap.get k combined.
Proof.
  revert combined n. induction ops as [|op ops IH]; intros combined n Hk; [done|].
  rewrite fmap_cons in Hk. apply not_elem_of_cons in Hk as [Hne Hk].
  cbn [fold_left].
  destruct (apply_operation sd (combined, n) op) as [combined1 n1] eqn:Hstep.
  rewrite IH by done.
  change combined1 with (combined1, n1).1. rewrite <- Hstep.
  by apply apply_operation_other.
Qed.

(** The last operation on a key decides what the combined map holds for it. *)
Lemma apply_operations_last sd before op after (combined : JsMap.t Obj) (n : nat) :
  key op ∉ key <$> after →
  let result := (fold_left (apply_operation sd) (before ++ op :: after) (combined, n)).1 in
  match type op with
  | OpInsert => JsMap.get (key op) result = Some (value op)
  | OpUpdate =>
      fields <$> JsMap.get (key op) result =
      Some (spread (or_empty (JsMap.get (key op) sd)) (fields (value op)))
  | OpDelete => JsMap.get (key op) result = None
  end.
Proof.
  intros Hafter result. subst result.
  rewrite fold_left_app. cbn [fold_left].
  destruct (fold_left (apply_operation sd) before (combined, n)) as [combined1 n1].
  destruct (apply_operation sd (combined1, n1) op) as [combined2 n2] eqn:Hstep.
  rewrite (apply_operations_other sd after combined2 n2 (key op) Hafter).
  unfold apply_operation in Hstep.
  destruct (type op); injection Hstep as <- <-.
  - apply JsMapFacts.get_set_eq.
  - by rewrite JsMapFacts.get_set_eq.
  - apply JsMapFacts.get_delete_eq.
Qed.

Lemma derived_recompute c : derived (recompute c).
Proof.
  exists (nextOid c). rewrite derivedState_recompute. unfold overlay_at.
  by destruct (recompute_frame c) as (-> & -> & _).
Qed.

Lemma derived_frame c c' :
  derivedState c' = derivedState c →
  syncedData c' = syncedData c →
  transactions c' = transactions c →
  derived c → derived c'.
Proof. unfold derived, overlay_at. by intros -> -> ->. Qed.

Lemma derived_commitPendingTransactions c :
  derived c → derived (exec commitPendingTransactions c).
Proof.
  intros Hc. rewrite exec_commitPendingTransactions; cbv zeta.
  destruct (merge_permitted c); [|done].
  destruct (fold_left merge_transaction _ _) as [[keys md] [sd n]] eqn:Hfold.
  set (c1 := set_syncedMetadata md (set_syncedData sd (set_nextOid n c))).
  assert (Hc2 : derived
    (if bool_decide (concat (operations <$> pendingSyncedTransactions c) = [])
     then c1 else recompute c1)).
  { case_bool_decide as Hops; [|apply derived_recompute].
    rewrite fold_no_operations in Hfold by done. injection Hfold as _ <- <- _.
    by apply (derived_frame c). }
  revert Hc2. generalize (if bool_decide (concat (operations <$> pendingSyncedTransactions c) = [])
     then c1 else recompute c1). intros c2 Hc2. simpl.
  destruct (hasReceivedFirstCommit c2); by apply (derived_frame c2).
Qed.

Lemma derived_run stringify events c : derived c → derived (run stringify events c).
Proof.
  apply run_invariant.
  - intros n c0. by apply derived_frame.
  - intros m c0. by apply derived_frame.
  - intros p c0. by apply derived_frame.
  - intros l c0. by apply derived_frame.
  - apply derived_commitPendingTransactions.
  - intros txs c0 _. apply derived_commitPendingTransactions, derived_recompute.
Qed.

Lemma derived_reachable stringify cfg c : reachable stringify cfg c → derived c.
Proof.
  intros (c0 & events & Hc0 & <-). apply derived_run.
  unfold constructor in Hc0. destruct (sync cfg); [|done].
  injection Hc0 as <-. by exists 0.
Qed.

Lemma optimisticOperations_keys txs :
  key <$> optimisticOperations txs = m_key <$> live_mutations txs.
Proof. rewrite optimisticOperations_live_mutations, <- list_fmap_compose. done. Qed.

Lemma optimisticOperations_idle txs : all_terminal txs → optimisticOperations txs = [].
Proof.
  intros Hall. rewrite optimisticOperations_live_mutations. unfold live_mutations.
  replace (filter (λ tx, ¬ is_terminal (state tx)) txs) with (@nil Transaction); [done|].
  symmetry. induction Hall as [|tx txs Htx _ IH]; [done|].
  by rewrite filter_cons_False by (by intros H).
Qed.

(** X7.  Keys without a pending mutation show the synced records themselves.  In
    every reachable state, a key that no mutation of a non-terminal
    transaction names holds in the overlay exactly what SyncedDataset holds
    for it, the same object or nothing; and when every transaction is
    terminal, [state] is SyncedDataset and [toArray] lists its records in its
    order. *)
Theorem untouched_keys_show_synced_records stringify cfg (c : Collection) :
  reachable stringify cfg c →
  (∀ k, k ∉ m_key <$> live_mutations (transactions c) →
        JsMap.get k (get_state c) = JsMap.get k (syncedData c)) ∧
  (all_terminal (transactions c) →
   get_state c = syncedData c ∧ toArray c = JsMap.values (syncedData c)).
Proof.
  intros [n Hd]%derived_reachable. unfold get_state, toArray. rewrite Hd.
  unfold overlay_at. split.
  - intros k Hk. apply apply_operations_other. by rewrite optimisticOperations_keys.
  - intros Hall. by rewrite optimisticOperations_idle.
Qed.

Lemma untouched_keys_show_synced_records_witness :
  JsMap.get "k" (get_state open_round) ≠ JsMap.get "k" (syncedData open_round) ∧
  JsMap.get "k2" (get_state open_round) = JsMap.get "k2" (syncedData open_round).
Proof.
  split; [by vm_compute|].
  assert (Hreach : reachable no_stringify example_config open_round).
  { exists (new_collection example_config),
      [EBegin; EWrite insert_k_a1; ECommit;
       EUpdate (UpdateOne record_a1 (assign "a" (VNum 2))) None;
       EBegin; EWrite insert_k2_x1].
    split; [reflexivity | by vm_compute]. }
  destruct (untouched_keys_show_synced_records no_stringify example_config open_round Hreach)
    as [H _].
  apply H. vm_compute. intros Hin. apply list_elem_of_singleton in Hin. discriminate Hin.
Defined.

(** X8.  The last pending mutation of a key decides what the overlay shows for
    it.  In every reachable state, if [m] is the last mutation of its key
    among the mutations of the non-terminal transactions, then: for an insert,
    [state] holds the record of the mutation itself under the key; for a
    delete, it holds nothing; for an update, it holds a record whose fields
    are those of the synced record of the key (or none) with the fields of the
    mutation's record on top.  Earlier mutations of the key and mutations of
    other keys make no difference. *)
Theorem last_pending_mutation_decides stringify cfg (c : Collection)
    (before after : list PendingMutation) (m : PendingMutation) :
  reachable stringify cfg c →
  live_mutations (transactions c) = before ++ m :: after →
  m_key m ∉ m_key <$> after →
  match m_type m with
  | OpInsert => JsMap.get (m_key m) (get_state c) = Some (modified m)
  | OpUpdate =>
      fields <$> JsMap.get (m_key m) (get_state c) =
      Some (spread (or_empty (JsMap.get (m_key m) (syncedData c))) (fields (modified m)))
  | OpDelete => JsMap.get (m_key m) (get_state c) = None
  end.
Proof.
  intros [n Hd]%derived_reachable Hlive Hafter. unfold get_state. rewrite Hd.
  unfold overlay_at.
  rewrite optimisticOperations_live_mutations, Hlive, fmap_app, fmap_cons.
  apply (apply_operations_last (syncedData c) (to_message <$> before) (to_message m)
           (to_message <$> after) (syncedData c) n).
  by rewrite <- list_fmap_compose.
Qed.

Lemma last_pending_mutation_decides_witness :
  JsMap.get "k" (view (syncedData insert_then_update)) = Some {[ "x" := VNum 1 ]} ∧
  fields <$> JsMap.get "k" (get_state insert_then_update) =
    Some {[ "x" := VNum 1; "a" := VNum 1; "b" := VNum 2 ]}.
Proof.
  split; [reflexivity|].
  assert (Hreach : reachable no_stringify example_config insert_then_update).
  { exists (new_collection example_config), insert_then_update_events.
    split; [reflexivity | by vm_compute]. }
  assert (Hlive : ∃ m1 m2, live_mutations (transactions insert_then_update) = [m1] ++ m2 :: []
                           ∧ m_type m2 = OpUpdate ∧ m_key m2 = "k"
                           ∧ fields (modified m2) = {[ "a" := VNum 1; "b" := VNum 2 ]}).
  { eexists _, _. split; [by vm_compute|]. split; [reflexivity|]. split; [reflexivity|].
    by vm_compute. }
  destruct Hlive as (m1 & m2 & Hlive & Htype & Hkey & Hfields).
  pose proof (last_pending_mutation_decides no_stringify example_config insert_then_update
                [m1] [] m2 Hreach Hlive) as H.
  rewrite Htype, Hkey, Hfields in H. rewrite H; [by vm_compute|].
  apply not_elem_of_nil.
Defined.

(** ** A mutation call that throws *)

Section throws_in.
Context {I : Collection → Prop}.

Lemma throws_in_throw {A} e : throws_in I (@throw A e).
Proof. by intros c e' Hc _. Qed.

Lemma throws_in_returns {A} (m : M A) :
  (∀ c, ∃ a, (m c).1 = Returned a) → throws_in I m.
Proof. intros Hm c e _ He. destruct (Hm c) as [a Ha]. congruence. Qed.

Lemma throws_in_bind {A B} (m : M A) (k : A → M B) :
  preserves I m → (∀ a, throws_in I (k a)) → throws_in I (bind m k).
Proof.
  intros Hm Hk c e Hc. unfold bind. specialize (Hm c Hc).
  destruct (m c) as [[a|e'] c']; simpl in *; [by apply Hk | done].
Qed.

End throws_in.

Ltac throws_in_step :=
  lazymatch goal with
  | |- throws_in _ (bind _ _) => apply throws_in_bind; [|intros ?]
  | |- throws_in _ (throw _) => apply throws_in_throw
  | |- throws_in _ (match ?x with _ => _ end) => destruct x
  end.

(** The calls that only read, allocate or throw. *)
Ltac allocates HI :=
  repeat lazymatch goal with
  | |- preserves _ (alloc _) => apply (preserves_alloc _ HI)
  | |- preserves _ (validateData _ _ _) => apply (preserves_validateData _ HI)
  | |- preserves _ (resolve_item _) => apply preserves_resolve_item
  | |- preserves _ (state_or_new _) => apply (preserves_state_or_new _ HI)
  | |- _ => preserves_step
  end.

Section allocations.
Variable I : Collection → Prop.
Hypothesis I_nextOid : ∀ n c, I c → I (set_nextOid n c).

Lemma throws_in_insert stringify data cfg : throws_in I (insert stringify data cfg).
Proof.
  unfold insert.
  throws_in_step; [unfold require_mutationFn; allocates I_nextOid|].
  throws_in_step; [unfold insert_keys; allocates I_nextOid|].
  throws_in_step; [unfold insert_mutation; allocates I_nextOid|].
  apply throws_in_returns. intros c. by eexists.
Qed.

Lemma throws_in_update target md : throws_in I (update target md).
Proof.
  unfold update.
  throws_in_step; [unfold require_mutationFn; allocates I_nextOid|].
  throws_in_step; [allocates I_nextOid|].
  throws_in_step; [allocates I_nextOid|].
  throws_in_step; [unfold alloc_changes; allocates I_nextOid|].
  throws_in_step; [unfold update_mutation, syncMetadata_of; allocates I_nextOid|].
  throws_in_step; [apply throws_in_throw|].
  apply throws_in_returns. intros c. by eexists.
Qed.

Lemma throws_in_delete items md : throws_in I (delete items md).
Proof.
  unfold delete.
  throws_in_step; [unfold require_mutationFn; allocates I_nextOid|].
  throws_in_step; [unfold delete_mutation, syncMetadata_of; allocates I_nextOid|].
  apply throws_in_returns. intros c. by eexists.
Qed.

End allocations.

(** X11.  [insert], [update] and [delete] are all or nothing.  A call that throws
    (no persistence function, too many keys, an object that is not tracked, a
    failed validation of any item, no change) has created no transaction and
    has left the synced data, the overlay and the identity map as they were:
    the collection differs at most in the count of objects created on the
    way. *)
Theorem throwing_mutation_changes_nothing stringify (c : Collection) (e : Error) :
  (∀ data cfg, (insert stringify data cfg c).1 = Thrown e →
               ∃ n, (insert stringify data cfg c).2 = set_nextOid n c) ∧
  (∀ target md, (update target md c).1 = Thrown e →
                ∃ n, (update target md c).2 = set_nextOid n c) ∧
  (∀ items md, (delete items md c).1 = Thrown e →
               ∃ n, (delete items md c).2 = set_nextOid n c).
Proof.
  assert (HI : ∀ n c', (∃ n', c' = set_nextOid n' c) →
                       ∃ n', set_nextOid n c' = set_nextOid n' c).
  { intros n c' [n' ->]. by exists n. }
  assert (Hc : ∃ n', c = set_nextOid n' c)
    by (exists (nextOid c); by rewrite set_nextOid_same).
  split; [|split].
  - intros data cfg.
    apply (throws_in_insert (λ c', ∃ n, c' = set_nextOid n c) HI stringify data cfg c e Hc).
  - intros target md.
    apply (throws_in_update (λ c', ∃ n, c' = set_nextOid n c) HI target md c e Hc).
  - intros items md.
    apply (throws_in_delete (λ c', ∃ n, c' = set_nextOid n c) HI items md c e Hc).
Qed.

Lemma throwing_mutation_changes_nothing_witness :
  (update (UpdateOne record_x1 (assign "a" (VNum 2))) None synced_once).1 =
    Thrown ObjectNotFoundInCollection ∧
  ∃ n, (update (UpdateOne record_x1 (assign "a" (VNum 2))) None synced_once).2 =
       set_nextOid n synced_once.
Proof.
  split; [reflexivity|].
  destruct (throwing_mutation_changes_nothing no_stringify synced_once
              ObjectNotFoundInCollection) as (_ & H & _).
  apply H. reflexivity.
Defined.

(** ** Invariants that every recomputation establishes *)

(** A [delete] that throws has only allocated. *)
Lemma delete_thrown c items md e :
  (delete items md c).1 = Thrown e → ∃ n, exec (delete items md) c = set_nextOid n c.
Proof.
  apply (throws_in_delete (λ c', ∃ n, c' = set_nextOid n c)).
  - intros n c' [n' ->]. by exists n.
  - exists (nextOid c). by rewrite set_nextOid_same.
Qed.

(** Every event but a [delete] keeps an invariant that the allocations, the
    queue, the registrations, the merge and the changes of the transaction set
    keep; the identity map needs no assumption. *)
Section step_but_delete.
Variable I : Collection → Prop.
Hypothesis I_nextOid : ∀ n c, I c → I (set_nextOid n c).
Hypothesis I_pending : ∀ p c, I c → I (set_pendingSyncedTransactions p c).
Hypothesis I_register : ∀ l c,
  I c → I (set_onFirstCommitCallbacks (onFirstCommitCallbacks c ++ l) c).
Hypothesis I_merge : ∀ c, I c → I (exec commitPendingTransactions c).
Hypothesis I_transactions : ∀ txs c,
  I c → I (exec commitPendingTransactions (recompute (set_transactions txs c))).

Lemma step_but_delete stringify c e :
  is_delete e = false → I c → I (step stringify c e).
Proof.
  intros He Hc.
  destruct e as [|message| |callback|callback|data cfg|target md|items md| | | |i newState|i];
    simpl; unfold exec; try done.
  - by apply I_pending.
  - revert c Hc. change (preserves I (write message)). unfold write.
    repeat preserves_step. apply preserves_modify. intros; by apply I_pending.
  - revert c Hc. change (preserves I commit). unfold commit.
    repeat preserves_step; [apply preserves_modify; auto | exact I_merge].
  - by apply I_register.
  - by apply I_register.
  - by apply preserves_insert.
  - by apply preserves_update.
  - revert c Hc. change (preserves I stateWhenReady). unfold stateWhenReady, onFirstCommit.
    repeat preserves_step. apply preserves_modify. intros; by apply I_register.
  - revert c Hc. change (preserves I toArrayWhenReady). unfold toArrayWhenReady, onFirstCommit.
    repeat preserves_step. apply preserves_modify. intros; by apply I_register.
  - by apply I_merge.
  - by apply preserves_setTransactionState.
  - by apply preserves_forgetTransaction.
Qed.

Lemma run_but_delete stringify events c :
  Forall (λ e, is_delete e = false) events → I c → I (run stringify events c).
Proof.
  intros Hev. revert c. induction Hev as [|e events He _ IH]; intros c Hc; simpl; [done|].
  apply IH. by apply step_but_delete.
Qed.

End step_but_delete.

(** An invariant that every recomputation establishes is kept by [delete] as
    well. *)
Section refresh_invariant.
Variable I : Collection → Prop.
Hypothesis I_nextOid : ∀ n c, I c → I (set_nextOid n c).
Hypothesis I_pending : ∀ p c, I c → I (set_pendingSyncedTransactions p c).
Hypothesis I_register : ∀ l c,
  I c → I (set_onFirstCommitCallbacks (onFirstCommitCallbacks c ++ l) c).
Hypothesis I_merge : ∀ c, I c → I (exec commitPendingTransactions c).
Hypothesis I_refresh : ∀ c, I (exec commitPendingTransactions (recompute c)).

Lemma refresh_step stringify c e : I c → I (step stringify c e).
Proof.
  intros Hc. destruct (is_delete e) eqn:He.
  - destruct e as [|message| |callback|callback|data cfg|target md|items md| | | |i newState|i];
      try done. simpl. unfold exec.
    destruct (delete items md c).1 as [tx|e] eqn:Hrun.
    + destruct (delete_returned c items md tx Hrun) as (n & _ & _ & _ & _ & Hexec).
      unfold exec in Hexec. rewrite Hexec. apply I_refresh.
    + destruct (delete_thrown c items md e Hrun) as [n Hexec].
      unfold exec in Hexec. rewrite Hexec. by apply I_nextOid.
  - apply step_but_delete; first [done | intros; apply I_refresh].
Qed.

Lemma refresh_run stringify events c : I c → I (run stringify events c).
Proof.
  revert c. induction events as [|e events IH]; intros c Hc; simpl; [done|].
  apply IH. by apply refresh_step.
Qed.

End refresh_invariant.

(** ** Records under keys with a pending mutation can be resolved *)

Lemma key_set_complete ks keys k :
  k ∈ keys ∨ k ∈ ks → k ∈ fold_left set_add ks keys.
Proof.
  revert keys. induction ks as [|x ks IH]; intros keys Hk; simpl.
  - destruct Hk as [Hk | Hk]; [done | by apply elem_of_nil in Hk].
  - apply IH. unfold set_add.
    destruct Hk as [Hk | [-> | Hk]%elem_of_cons].
    + left. destruct (decide (x ∈ keys)); [done|]. apply elem_of_app. by left.
    + left. destruct (decide (x ∈ keys)); [done|]. apply elem_of_app. right. by left.
    + by right.
Qed.

Lemma register_in_place (m : JsMap.t Obj) okm k i :
  in_place m okm i → in_place m (register m okm k) i.
Proof.
  intros (k' & o' & Hk' & Hget & Hoid). unfold register.
  destruct (JsMap.get k m) as [o|] eqn:Hk; [|by exists k', o'].
  destruct (decide (oid o = i)) as [<- | Hne].
  - exists k, o. by rewrite lookup_insert_eq.
  - exists k', o'. by rewrite lookup_insert_ne.
Qed.

Lemma fold_register_in_place (m : JsMap.t Obj) keys okm i :
  in_place m okm i → in_place m (fold_left (register m) keys okm) i.
Proof.
  revert okm. induction keys as [|k keys IH]; intros okm Hi; simpl; [done|].
  by apply IH, register_in_place.
Qed.

(** Registering a key tracks the record that the map holds for it. *)
Lemma fold_register_tracks (m : JsMap.t Obj) keys okm k o :
  k ∈ keys → JsMap.get k m = Some o →
  in_place m (fold_left (register m) keys okm) (oid o).
Proof.
  revert okm. induction keys as [|x keys IH]; intros okm Hk Hget;
    [by apply elem_of_nil in Hk|].
  simpl. apply elem_of_cons in Hk as [<- | Hk]; [|by apply IH].
  apply fold_register_in_place. unfold register. rewrite Hget.
  exists k, o. by rewrite lookup_insert_eq.
Qed.

Lemma resolvable_recompute c : resolvable (recompute c).
Proof.
  intros k o Hk Hget. unfold tracked_in_place, get_state in *.
  rewrite recompute_objectKeyMap.
  apply (fold_register_tracks _ _ _ k); [|done].
  apply key_set_complete. right.
  destruct (recompute_frame c) as (Htx & _). rewrite Htx in Hk.
  by rewrite optimisticOperations_keys.
Qed.

Lemma resolvable_frame c c' :
  transactions c' = transactions c →
  derivedState c' = derivedState c →
  objectKeyMap c' = objectKeyMap c →
  resolvable c → resolvable c'.
Proof. unfold resolvable, tracked_in_place, in_place, get_state. by intros -> -> ->. Qed.

Lemma live_mutations_idle txs : txs = [] ∨ all_terminal txs → live_mutations txs = [].
Proof.
  intros Hidle.
  assert (Hall : all_terminal txs) by (destruct Hidle as [-> | H]; [constructor | done]).
  pose proof (f_equal (fmap key) (optimisticOperations_idle txs Hall)) as Hops.
  rewrite optimisticOperations_keys in Hops. by apply fmap_nil_inv in Hops.
Qed.

Lemma resolvable_commitPendingTransactions c :
  resolvable c → resolvable (exec commitPendingTransactions c).
Proof.
  intros Hc. destruct (merge_permitted c) eqn:Hgate.
  - destruct (commitPendingTransactions_permitted c Hgate) as (_ & _ & _ & _ & Htx).
    intros k o Hk. simpl in Htx. rewrite Htx in Hk.
    apply merge_permitted_spec in Hgate.
    rewrite (live_mutations_idle _ Hgate) in Hk. by apply elem_of_nil in Hk.
  - by rewrite commitPendingTransactions_gated.
Qed.

Lemma resolvable_run stringify events c : resolvable c → resolvable (run stringify events c).
Proof.
  apply refresh_run.
  - intros n c0. by apply resolvable_frame.
  - intros p c0. by apply resolvable_frame.
  - intros l c0. by apply resolvable_frame.
  - apply resolvable_commitPendingTransactions.
  - intros c0. apply resolvable_commitPendingTransactions, resolvable_recompute.
Qed.

(** X9.  Records read from [state] under a key with a pending mutation can be
    passed back.  In every reachable state, for a record that the overlay
    holds under a key named by a mutation of a non-terminal transaction, the
    lookup that [update] and [delete] make in the identity map does not fail
    ("Object not found in collection" is not thrown for it): it gives a key
    under which the overlay holds a record of that identity. *)
Theorem pending_records_can_be_resolved stringify cfg (c : Collection) (k : Key) (o : Obj) :
  reachable stringify cfg c →
  k ∈ m_key <$> live_mutations (transactions c) →
  JsMap.get k (get_state c) = Some o →
  ∃ k', resolve_item o c = (Returned k', c) ∧
        ∃ o', JsMap.get k' (get_state c) = Some o' ∧ oid o' = oid o.
Proof.
  intros (c0 & events & Hc0 & <-) Hk Hget.
  assert (Hres : resolvable (run stringify events c0)).
  { apply resolvable_run. unfold constructor in Hc0. destruct (sync cfg); [|done].
    injection Hc0 as <-. intros k0 o0 Hk0. by apply elem_of_nil in Hk0. }
  destruct (Hres k o Hk Hget) as (k' & o' & Hokm & Hget' & Hoid).
  exists k'. split; [by apply resolve_item_ok | by exists o'].
Qed.

Lemma pending_records_can_be_resolved_witness :
  ∃ o k', JsMap.get "k" (get_state gated_collection) = Some o ∧
          oid o ≠ oid record_a1 ∧
          resolve_item o gated_collection = (Returned k', gated_collection).
Proof.
  assert (Hreach : reachable no_stringify example_config gated_collection).
  { exists (new_collection example_config),
      [EBegin; EWrite insert_k_a1; ECommit; EBegin; EWrite insert_k_a1;
       EUpdate (UpdateOne record_a1 (assign "a" (VNum 2))) None].
    split; [reflexivity | by vm_compute]. }
  destruct (JsMap.get "k" (get_state gated_collection)) as [o|] eqn:Hget;
    [|by vm_compute in Hget].
  assert (Hk : "k" ∈ m_key <$> live_mutations (transactions gated_collection))
    by (vm_compute; left).
  destruct (pending_records_can_be_resolved no_stringify example_config gated_collection
              "k" o Hreach Hk Hget) as (k' & Hres & _).
  exists o, k'. split; [done|]. split; [|done].
  vm_compute in Hget. injection Hget as <-. done.
Defined.

(** ** Without [delete], every record stays tracked *)

Lemma fold_register_mono (m : JsMap.t Obj) keys okm i :
  is_Some (okm !! i) → is_Some (fold_left (register m) keys okm !! i).
Proof.
  revert okm. induction keys as [|k keys IH]; intros okm Hi; simpl; [done|].
  apply IH. unfold register. destruct (JsMap.get k m) as [o|]; [|done].
  destruct (decide (oid o = i)) as [<- | Hne].
  - by rewrite lookup_insert_eq.
  - by rewrite lookup_insert_ne.
Qed.

Lemma in_place_is_Some (m : JsMap.t Obj) okm i : in_place m okm i → is_Some (okm !! i).
Proof. intros (k & o & Hk & _). by rewrite Hk. Qed.

Lemma apply_synced_data_other ops (sd : JsMap.t Obj) (n : nat) k :
  k ∉ key <$> ops →
  JsMap.get k (fold_left apply_synced_data ops (sd, n)).1 = JsMap.get k sd.
Proof.
  revert sd n. induction ops as [|op ops IH]; intros sd n Hk; [done|].
  rewrite fmap_cons in Hk. apply not_elem_of_cons in Hk as [Hne Hk].
  cbn [fold_left].
  destruct (apply_synced_data (sd, n) op) as [sd1 n1] eqn:Hstep.
  rewrite IH by done. unfold apply_synced_data in Hstep.
  destruct (type op); injection Hstep as <- <-.
  - by apply JsMapFacts.get_set_ne.
  - by apply JsMapFacts.get_set_ne.
  - by apply JsMapFacts.get_delete_ne.
Qed.

Lemma all_tracked_frame c c' :
  syncedData c' = syncedData c →
  derivedState c' = derivedState c →
  objectKeyMap c' = objectKeyMap c →
  all_tracked c → all_tracked c'.
Proof. unfold all_tracked, get_state. by intros -> -> ->. Qed.

Lemma all_tracked_recompute c : all_tracked c → all_tracked (recompute c).
Proof.
  intros Hc k o Hget. rewrite recompute_objectKeyMap.
  destruct (recompute_frame c) as (_ & Hsd & _). rewrite Hsd in Hget.
  assert (Hsynced : JsMap.get k (syncedData c) = Some o →
    is_Some (fold_left (register (derivedState (recompute c)))
               (key_set (optimisticOperations (transactions c))) (objectKeyMap c) !! oid o)).
  { intros H. apply fold_register_mono, (Hc k o). by left. }
  destruct Hget as [Hget | Hget]; [by apply Hsynced|].
  destruct (decide (k ∈ key <$> optimisticOperations (transactions c))) as [Hk | Hk].
  - eapply in_place_is_Some, (fold_register_tracks _ _ _ k); [|exact Hget].
    apply key_set_complete. by right.
  - apply Hsynced. unfold get_state in Hget. rewrite derivedState_recompute in Hget.
    by rewrite apply_operations_other in Hget.
Qed.

Lemma all_tracked_commitPendingTransactions c :
  all_tracked c → all_tracked (exec commitPendingTransactions c).
Proof.
  intros Hc. destruct (merge_permitted c) eqn:Hgate;
    [|by rewrite commitPendingTransactions_gated].
  rewrite exec_commitPendingTransactions; cbv zeta. rewrite Hgate.
  rewrite fold_merge_transaction, fold_merge_operation.
  fold (buffered_changes (pendingSyncedTransactions c)).
  set (ops := buffered_changes (pendingSyncedTransactions c)).
  pose proof (apply_synced_data_other ops (syncedData c) (nextOid c)) as Hother.
  destruct (fold_left apply_synced_data ops (syncedData c, nextOid c)) as [sd n] eqn:Hsd.
  simpl in Hother.
  set (c1 := set_syncedMetadata _ (set_syncedData sd (set_nextOid n c))).
  set (c2 := if bool_decide (ops = []) then c1 else recompute c1).
  assert (Hidle : optimisticOperations (transactions c) = []).
  { apply merge_permitted_spec in Hgate as [-> | Hall]; [done|].
    by apply optimisticOperations_idle. }
  assert (Hc2 : syncedData c2 = sd ∧ derivedState c2 = (if bool_decide (ops = [])
                  then derivedState c else sd) ∧ objectKeyMap c2 = objectKeyMap c).
  { unfold c2. case_bool_decide; [done|].
    destruct (recompute_frame c1) as (_ & -> & _).
    rewrite derivedState_recompute, recompute_objectKeyMap. simpl.
    by rewrite Hidle. }
  destruct Hc2 as (Hsd2 & Hst2 & Hokm2).
  assert (Hgoal : ∀ k o,
    JsMap.get k sd = Some o ∨ JsMap.get k (derivedState c2) = Some o →
    is_Some (fold_left (register (get_state c2)) (fold_left set_add (key <$> ops) [])
               (objectKeyMap c2) !! oid o)).
  { intros k o Hget. rewrite Hokm2.
    destruct (decide (ops = [])) as [Hnil | Hops].
    - rewrite Hnil in *. simpl in *. injection Hsd as <- _.
      rewrite ?bool_decide_eq_true_2 in Hst2 by done. rewrite Hst2 in Hget.
      by apply (Hc k o).
    - rewrite bool_decide_eq_false_2 in Hst2 by done. rewrite Hst2 in Hget.
      assert (Hk : JsMap.get k sd = Some o) by (by destruct Hget).
      destruct (decide (k ∈ key <$> ops)) as [Hin | Hnot].
      + eapply in_place_is_Some, (fold_register_tracks _ _ _ k).
        * apply key_set_complete. by right.
        * unfold get_state. by rewrite Hst2.
      + apply fold_register_mono, (Hc k o). left. by rewrite <- Hother. }
  clearbody c2. unfold all_tracked. cbn zeta. simpl hasReceivedFirstCommit.
  destruct (hasReceivedFirstCommit c2); intros k o Hget; simpl in Hget |- *;
    apply (Hgoal k o); by rewrite <- Hsd2.
Qed.

Lemma all_tracked_run stringify events c :
  Forall (λ e, is_delete e = false) events →
  all_tracked c → all_tracked (run stringify events c).
Proof.
  apply run_but_delete.
  - intros n c0. by apply all_tracked_frame.
  - intros p c0. by apply all_tracked_frame.
  - intros l c0. by apply all_tracked_frame.
  - apply all_tracked_commitPendingTransactions.
  - intros txs c0 H. apply all_tracked_commitPendingTransactions, all_tracked_recompute.
    by apply (all_tracked_frame c0).
Qed.

(** X10.  As long as [delete] is not called, records can be passed back.  In every
    state that a new collection reaches without a call of [delete], every
    record that [state] holds has an entry in the identity map: the lookup
    that [update] and [delete] make for it does not throw "Object not found
    in collection". *)
Theorem records_stay_tracked_without_delete stringify (cfg : CollectionConfig)
    (events : list Event) (k : Key) (o : Obj) :
  Forall (λ e, is_delete e = false) events →
  let c := run stringify events (new_collection cfg) in
  JsMap.get k (get_state c) = Some o →
  ∃ k', resolve_item o c = (Returned k', c).
Proof.
  intros Hev c Hget.
  assert (Hc : all_tracked c).
  { apply all_tracked_run; [done|]. intros k0 o0 [H | H]; done. }
  destruct (Hc k o (or_intror Hget)) as [k' Hk']. exists k'. by apply resolve_item_ok.
Qed.

Lemma records_stay_tracked_without_delete_witness :
  ∃ k', resolve_item record_a1 failed_collection = (Returned k', failed_collection).
Proof.
  apply (records_stay_tracked_without_delete no_stringify example_config
           [EBegin; EWrite insert_k_a1; ECommit; EBegin; EWrite insert_k_a1;
            EUpdate (UpdateOne record_a1 (assign "a" (VNum 2))) None;
            ESetTransactionState 0 persisting; ESetTransactionState 0 failed] "k" record_a1).
  - repeat constructor.
  - by vm_compute.
Defined.

(** ** The order of the records *)

Lemma keys_of_set {A} k (v : A) (m : JsMap.t A) :
  keys_of (JsMap.set k v m) = set_add (keys_of m) k.
Proof.
  unfold keys_of, set_add. induction m as [|[k' v'] m IH].
  - by rewrite decide_False by apply not_elem_of_nil.
  - cbn [JsMap.set]. destruct (decide (k' = k)) as [-> | Hne].
    + rewrite decide_True; [done | rewrite fmap_cons; by left].
    + rewrite !fmap_cons, IH. cbn [fst].
      destruct (decide (k ∈ m.*1)) as [Hin | Hnot].
      * rewrite decide_True; [done | by right].
      * rewrite decide_False; [done|].
        intros [-> | Hin]%elem_of_cons; [by destruct Hne | by destruct Hnot].
Qed.

Lemma keys_of_delete {A} k (m : JsMap.t A) :
  keys_of (JsMap.delete k m) = filter (λ k', k' ≠ k) (keys_of m).
Proof.
  unfold keys_of. induction m as [|[k' v'] m IH]; [done|].
  cbn [JsMap.delete]. rewrite fmap_cons. cbn [fst].
  destruct (decide (k' = k)) as [-> | Hne].
  - by rewrite filter_cons_False by (by intros H).
  - rewrite filter_cons_True by done. by rewrite fmap_cons, IH.
Qed.

Lemma NoDup_reorder order type k : NoDup order → NoDup (reorder order type k).
Proof.
  intros Hnd.
  assert (Hadd : NoDup (set_add order k)).
  { unfold set_add. destruct (decide (k ∈ order)); [done|].
    apply list.NoDup_app. split; [done|]. split; [|apply list.NoDup_singleton].
    by intros k' Hk' ->%list_elem_of_singleton. }
  destruct type; simpl; [done | done | by apply list.NoDup_filter].
Qed.

Lemma keys_of_apply_operations sd ops (combined : JsMap.t Obj) (n : nat) :
  keys_of (fold_left (apply_operation sd) ops (combined, n)).1 =
  fold_left (λ order op, reorder order (type op) (key op)) ops (keys_of combined).
Proof.
  revert combined n. induction ops as [|op ops IH]; intros combined n; [done|].
  cbn [fold_left].
  destruct (apply_operation sd (combined, n) op) as [combined1 n1] eqn:Hstep.
  rewrite IH. f_equal. unfold apply_operation in Hstep. unfold reorder.
  destruct (type op); injection Hstep as <- <-.
  - apply keys_of_set.
  - apply keys_of_set.
  - apply keys_of_delete.
Qed.

Lemma keys_of_apply_synced_data ops (sd : JsMap.t Obj) (n : nat) :
  keys_of (fold_left apply_synced_data ops (sd, n)).1 =
  fold_left (λ order op, reorder order (type op) (key op)) ops (keys_of sd).
Proof.
  revert sd n. induction ops as [|op ops IH]; intros sd n; [done|].
  cbn [fold_left].
  destruct (apply_synced_data (sd, n) op) as [sd1 n1] eqn:Hstep.
  rewrite IH. f_equal. unfold apply_synced_data in Hstep. unfold reorder.
  destruct (type op); injection Hstep as <- <-.
  - apply keys_of_set.
  - apply keys_of_set.
  - apply keys_of_delete.
Qed.

Lemma NoDup_fold_reorder (ops : list ChangeMessage) order :
  NoDup order →
  NoDup (fold_left (λ order op, reorder order (type op) (key op)) ops order).
Proof.
  revert order. induction ops as [|op ops IH]; intros order Hnd; [done|].
  simpl. by apply IH, NoDup_reorder.
Qed.

Lemma unique_synced_keys_merge c :
  NoDup (keys_of (syncedData c)) → NoDup (keys_of (syncedData (exec commitPendingTransactions c))).
Proof.
  intros Hnd. destruct (merge_permitted c) eqn:Hgate;
    [|by rewrite commitPendingTransactions_gated].
  rewrite exec_commitPendingTransactions; cbv zeta. rewrite Hgate.
  rewrite fold_merge_transaction, fold_merge_operation.
  pose proof (keys_of_apply_synced_data (buffered_changes (pendingSyncedTransactions c))
                (syncedData c) (nextOid c)) as Hkeys.
  destruct (fold_left apply_synced_data _ _) as [sd n]. simpl in Hkeys.
  set (c1 := set_syncedMetadata _ _).
  assert (Hsd : ∀ c2, c2 = c1 ∨ c2 = recompute c1 → syncedData c2 = sd).
  { intros c2 [-> | ->]; [done|]. by destruct (recompute_frame c1) as (_ & -> & _). }
  assert (Hnd' : NoDup (keys_of sd)) by (rewrite Hkeys; by apply NoDup_fold_reorder).
  case_bool_decide.
  - rewrite <- (Hsd c1 (or_introl eq_refl)) in Hnd'. simpl.
    by destruct (hasReceivedFirstCommit c).
  - rewrite <- (Hsd (recompute c1) (or_intror eq_refl)) in Hnd'. simpl.
    by destruct (hasReceivedFirstCommit (recompute c1)).
Qed.

Lemma unique_synced_keys_run stringify events c :
  NoDup (keys_of (syncedData c)) → NoDup (keys_of (syncedData (run stringify events c))).
Proof.
  apply (run_invariant (λ c, NoDup (keys_of (syncedData c)))); try done.
  - apply unique_synced_keys_merge.
  - intros txs c0 H. apply unique_synced_keys_merge.
    by destruct (recompute_frame (set_transactions txs c0)) as (_ & -> & _).
Qed.

(** X24.  The order of the records.  In every reachable state neither
    SyncedDataset nor [state] holds a key twice, and the order in which
    [state] (and so [toArray]) lists the keys is the order of SyncedDataset
    changed by the pending mutations of the non-terminal transactions, one
    after the other: an insert or an update keeps the place of a key that is
    listed and puts a new key last, a delete takes the key out (so a key that
    is deleted and inserted again moves to the end). *)
Theorem pending_mutations_order_the_records stringify cfg (c : Collection) :
  reachable stringify cfg c →
  keys_of (get_state c) =
    fold_left (λ order m, reorder order (m_type m) (m_key m))
      (live_mutations (transactions c)) (keys_of (syncedData c)) ∧
  NoDup (keys_of (syncedData c)) ∧
  NoDup (keys_of (get_state c)).
Proof.
  intros Hreach. pose proof (derived_reachable _ _ _ Hreach) as [n Hd].
  assert (Hsynced : NoDup (keys_of (syncedData c))).
  { destruct Hreach as (c0 & events & Hc0 & <-). apply unique_synced_keys_run.
    unfold constructor in Hc0. destruct (sync cfg); [|done].
    injection Hc0 as <-. constructor. }
  assert (Horder : keys_of (get_state c) =
    fold_left (λ order m, reorder order (m_type m) (m_key m))
      (live_mutations (transactions c)) (keys_of (syncedData c))).
  { unfold get_state. rewrite Hd. unfold overlay_at.
    rewrite keys_of_apply_operations, optimisticOperations_live_mutations.
    generalize (keys_of (syncedData c)).
    induction (live_mutations (transactions c)) as [|m ms IH]; intros order; [done|].
    rewrite fmap_cons. simpl. apply IH. }
  split; [done|]. split; [done|].
  unfold get_state in *. rewrite Hd. unfold overlay_at.
  rewrite keys_of_apply_operations. by apply NoDup_fold_reorder.
Qed.

Lemma pending_mutations_order_the_records_witness :
  keys_of (get_state reordered_collection) = ["k2"; "k"] ∧
  keys_of (syncedData reordered_collection) = ["k"; "k2"].
Proof.
  assert (Hreach : reachable no_stringify example_config reordered_collection).
  { exists (new_collection example_config), reordering_events.
    split; [reflexivity | by vm_compute]. }
  destruct (pending_mutations_order_the_records no_stringify example_config
              reordered_collection Hreach) as (H & _).
  split; [|reflexivity]. rewrite H. by vm_compute.
Defined.

(** ** The metadata map follows the data map *)

Lemma keys_of_apply_synced_metadata ops (md : JsMap.t (option Fields)) :
  keys_of (fold_left apply_synced_metadata ops md) =
  fold_left (λ order op, reorder order (type op) (key op)) ops (keys_of md).
Proof.
  revert md. induction ops as [|op ops IH]; intros md; [done|].
  cbn [fold_left]. rewrite IH. f_equal. unfold apply_synced_metadata, reorder.
  destruct (type op).
  - apply keys_of_set.
  - apply keys_of_set.
  - apply keys_of_delete.
Qed.

Lemma metadata_follows_data_merge c :
  keys_of (syncedMetadata c) = keys_of (syncedData c) →
  keys_of (syncedMetadata (exec commitPendingTransactions c)) =
  keys_of (syncedData (exec commitPendingTransactions c)).
Proof.
  intros Hsame. destruct (merge_permitted c) eqn:Hgate;
    [|by rewrite commitPendingTransactions_gated].
  rewrite exec_commitPendingTransactions; cbv zeta. rewrite Hgate.
  rewrite fold_merge_transaction, fold_merge_operation.
  pose proof (keys_of_apply_synced_data (buffered_changes (pendingSyncedTransactions c))
                (syncedData c) (nextOid c)) as Hdata.
  pose proof (keys_of_apply_synced_metadata (buffered_changes (pendingSyncedTransactions c))
                (syncedMetadata c)) as Hmeta.
  destruct (fold_left apply_synced_data _ _) as [sd n]. simpl in Hdata.
  set (c1 := set_syncedMetadata _ _).
  assert (Hc2 : ∀ c2, c2 = c1 ∨ c2 = recompute c1 →
                      keys_of (syncedMetadata c2) = keys_of (syncedData c2)).
  { intros c2 Hc2.
    assert (Hframe : syncedMetadata c2 = syncedMetadata c1 ∧ syncedData c2 = syncedData c1).
    { destruct Hc2 as [-> | ->]; [done|].
      by destruct (recompute_frame c1) as (_ & -> & -> & _). }
    destruct Hframe as [-> ->]. simpl. by rewrite Hmeta, Hdata, Hsame. }
  case_bool_decide.
  - specialize (Hc2 c1 (or_introl eq_refl)). simpl.
    by destruct (hasReceivedFirstCommit c).
  - specialize (Hc2 (recompute c1) (or_intror eq_refl)). simpl.
    by destruct (hasReceivedFirstCommit (recompute c1)).
Qed.

(** X25.  The metadata map follows the data map.  In every reachable state
    SyncedMetadata has an entry (which may hold no metadata) for exactly the
    keys of SyncedDataset, in the same order: the sync source cannot leave
    metadata behind for a record that it has deleted, nor a record without an
    entry. *)
Theorem metadata_follows_data stringify cfg (c : Collection) :
  reachable stringify cfg c →
  keys_of (syncedMetadata c) = keys_of (syncedData c).
Proof.
  intros (c0 & events & Hc0 & <-).
  apply (run_invariant (λ c, keys_of (syncedMetadata c) = keys_of (syncedData c)));
    try done.
  - apply metadata_follows_data_merge.
  - intros txs c0' H. apply metadata_follows_data_merge.
    by destruct (recompute_frame (set_transactions txs c0')) as (_ & -> & -> & _).
  - unfold constructor in Hc0. destruct (sync cfg); [|done]. by injection Hc0 as <-.
Qed.

Lemma metadata_follows_data_witness :
  keys_of (syncedMetadata reordered_collection) = ["k"; "k2"].
Proof.
  assert (Hreach : reachable no_stringify example_config reordered_collection).
  { exists (new_collection example_config), reordering_events.
    split; [reflexivity | by vm_compute]. }
  rewrite (metadata_follows_data no_stringify example_config reordered_collection Hreach).
  reflexivity.
Defined.

(** ** Generated keys *)

Lemma to_int32_range z : (- 2 ^ 31 ≤ to_int32 z < 2 ^ 31)%Z.
Proof.
  unfold to_int32.
  pose proof (Z.mod_pos_bound (z + 2 ^ 31) (2 ^ 32) eq_refl). lia.
Qed.

Lemma hash_code_units_range str : (- 2 ^ 31 ≤ hash_code_units str < 2 ^ 31)%Z.
Proof.
  unfold hash_code_units.
  induction str as [|code str _] using rev_ind; [simpl; lia|].
  rewrite fold_left_app. simpl. apply to_int32_range.
Qed.

Lemma string_length_app s1 s2 :
  String.length (s1 +:+ s2) = String.length s1 + String.length s2.
Proof.
  induction s1 as [|a s1 IH]; [done|].
  change (S (String.length (s1 +:+ s2)) = S (String.length s1 + String.length s2)).
  by rewrite IH.
Qed.

Lemma string_app_assoc s1 s2 s3 : (s1 +:+ s2) +:+ s3 = s1 +:+ (s2 +:+ s3).
Proof.
  induction s1 as [|a s1 IH]; [done|].
  change (String a ((s1 +:+ s2) +:+ s3) = String a (s1 +:+ (s2 +:+ s3))).
  by rewrite IH.
Qed.

Lemma string_app_empty s : s +:+ "" = s.
Proof.
  induction s as [|a s IH]; [done|].
  change (String a (s +:+ "") = String a s). by rewrite IH.
Qed.

Lemma parseInt36_from_app acc s1 s2 :
  parseInt36_from acc (s1 +:+ s2) = parseInt36_from (parseInt36_from acc s1) s2.
Proof.
  revert acc. induction s1 as [|a s1 IH]; intros acc; [done|].
  change (parseInt36_from (36 * acc + digit_value a)%Z (s1 +:+ s2) =
          parseInt36_from (parseInt36_from (36 * acc + digit_value a)%Z s1) s2).
  apply IH.
Qed.

(** A digit is one character, and it reads back as its value. *)
Lemma digit36_spec d :
  (0 ≤ d < 36)%Z → ∃ a, digit36 d = String a EmptyString ∧ digit_value a = d.
Proof.
  intros Hd. unfold digit36.
  assert (Hdigit : ∀ i, i < 36 →
    ∃ a, String.substring i 1 "0123456789abcdefghijklmnopqrstuvwxyz" = String a EmptyString ∧
         digit_value a = Z.of_nat i).
  { intros i Hi. do 36 (destruct i as [|i]; [eexists; split; reflexivity|]). lia. }
  destruct (Hdigit (Z.to_nat d)) as (a & Ha & Hval); [lia|].
  exists a. split; [done|]. rewrite Hval. lia.
Qed.

(** The digits of [n], most significant first, are put in front of [acc]. *)
Lemma toString36_aux_spec k fuel n acc :
  1 ≤ k ≤ fuel → (0 ≤ n < 36 ^ Z.of_nat k)%Z →
  ∃ digits,
    toString36_aux fuel n acc = digits +:+ acc ∧
    1 ≤ String.length digits ≤ k ∧
    ∀ a, parseInt36_from a digits =
         (a * 36 ^ Z.of_nat (String.length digits) + n)%Z.
Proof.
  revert k n acc. induction fuel as [|fuel IH]; intros k n acc Hk Hn; [lia|].
  cbn [toString36_aux].
  destruct (digit36_spec (n mod 36)) as (a & Ha & Hval);
    [apply Z.mod_pos_bound; lia|].
  destruct (Z.ltb_spec n 36) as [Hlt | Hge].
  - exists (digit36 (n mod 36)). split; [done|]. rewrite Ha. simpl.
    split; [lia|]. intros a0. rewrite Hval, Z.mod_small by lia. lia.
  - assert (Hk2 : 2 ≤ k).
    { destruct k as [|[|k]]; [lia | | lia]. simpl in Hn. lia. }
    destruct (IH (k - 1) (n / 36)%Z (digit36 (n mod 36) +:+ acc)) as (digits & Hrun & Hlen & Hparse).
    + lia.
    + split; [apply Z.div_pos; lia|].
      apply Z.div_lt_upper_bound; [lia|].
      replace (Z.of_nat k) with (Z.succ (Z.of_nat (k - 1))) in Hn by lia.
      rewrite Z.pow_succ_r in Hn by lia. lia.
    + exists (digits +:+ digit36 (n mod 36)).
      split; [by rewrite Hrun, string_app_assoc|].
      rewrite string_length_app, Ha. simpl. split; [lia|].
      intros a0. rewrite parseInt36_from_app, Hparse. simpl. rewrite Hval.
      replace (Z.of_nat (String.length digits + 1))
        with (Z.succ (Z.of_nat (String.length digits))) by lia.
      rewrite Z.pow_succ_r by lia.
      pose proof (Z.div_mod n 36 ltac:(lia)). lia.
Qed.

Lemma toString36_spec n :
  (0 ≤ n ≤ 2 ^ 31)%Z →
  1 ≤ String.length (toString36 n) ≤ 6 ∧ parseInt36 (toString36 n) = n.
Proof.
  intros Hn. unfold toString36, parseInt36.
  destruct (toString36_aux_spec 6 7 n "") as (digits & -> & Hlen & Hparse).
  - lia.
  - change (36 ^ Z.of_nat 6)%Z with 2176782336%Z. lia.
  - rewrite string_app_empty. split; [done|]. rewrite Hparse. lia.
Qed.

(** X12.  [generateKey] writes the absolute value of a 32-bit hash in base 36.  For
    every record and whatever [JSON.stringify] returns for it: the hash is a
    signed 32-bit integer; the key has between one and six characters and
    reads back, in base 36, as the absolute value of the hash.  So two records
    get the same generated key exactly when their hashes agree up to the
    sign. *)
Theorem generated_key_is_the_hash_in_base_36 (JSON_stringify : Obj → list Z)
    (data data' : Obj) :
  let h := hash_code_units (JSON_stringify data) in
  let h' := hash_code_units (JSON_stringify data') in
  (- 2 ^ 31 ≤ h < 2 ^ 31)%Z ∧
  1 ≤ String.length (generateKey JSON_stringify data) ≤ 6 ∧
  parseInt36 (generateKey JSON_stringify data) = Z.abs h ∧
  (generateKey JSON_stringify data = generateKey JSON_stringify data' ↔
   Z.abs h = Z.abs h').
Proof.
  intros h h'.
  pose proof (hash_code_units_range (JSON_stringify data)) as Hh. fold h in Hh.
  pose proof (hash_code_units_range (JSON_stringify data')) as Hh'. fold h' in Hh'.
  destruct (toString36_spec (Z.abs h)) as [Hlen Hparse]; [lia|].
  destruct (toString36_spec (Z.abs h')) as [_ Hparse']; [lia|].
  unfold generateKey. fold h h'.
  split; [done|]. split; [done|]. split; [done|]. split.
  - intros Heq. by rewrite <- Hparse, <- Hparse', Heq.
  - by intros ->.
Qed.

(** ** The keys of [insert] *)

(** X23.  How [insert] names the items.  More keys than items make [insert] throw
    "More keys provided than items to insert" before any item is validated,
    leaving the collection as it is.  Otherwise there is one key per item: the
    key given for its position where there is one (a single key string names
    the first item only, an array may be shorter than the items and may have
    holes, an empty string inside an array is a key), and the generated key of
    the item everywhere else (also for every item when the key string is
    empty). *)
Theorem insert_names_the_items stringify (c : Collection) (data : OneOrMany Obj)
    (cfg : InsertConfig) :
  mutationFn (config c) = true →
  (∀ configKeys,
     insert_key cfg = KeyArray configKeys →
     length (as_array data) < length configKeys →
     insert stringify data cfg c = (Thrown MoreKeysThanItems, c)) ∧
  ((∀ configKeys, insert_key cfg = KeyArray configKeys →
                  length configKeys ≤ length (as_array data)) →
   ∃ keys,
     insert_keys stringify (as_array data) (insert_key cfg) c = (Returned keys, c) ∧
     length keys = length (as_array data) ∧
     ∀ i item, as_array data !! i = Some item →
       keys !! i = Some (default (generateKey stringify item) (given_key (insert_key cfg) i))).
Proof.
  intros Hfn. split.
  - intros configKeys Hk Hlen. unfold insert.
    rewrite (bind_returned _ _ _ _ _ (require_mutationFn_ok c Hfn)).
    unfold bind, insert_keys. rewrite Hk. by rewrite bool_decide_eq_true_2.
  - intros Hfew. unfold insert_keys, given_key.
    destruct (insert_key cfg) as [|k|configKeys].
    + eexists. split; [done|]. split; [by rewrite length_fmap|].
      intros i item Hi. by rewrite list_lookup_fmap, Hi.
    + destruct k as [|a k].
      * eexists. split; [done|]. split; [by rewrite length_fmap|].
        intros i item Hi. by rewrite list_lookup_fmap, Hi.
      * eexists. split; [done|]. split; [by rewrite length_imap|].
        intros i item Hi. by rewrite list_lookup_imap, Hi.
    + specialize (Hfew configKeys eq_refl).
      rewrite bool_decide_eq_false_2 by lia.
      eexists. split; [done|]. split; [by rewrite length_imap|].
      intros i item Hi. by rewrite list_lookup_imap, Hi.
Qed.

Lemma insert_names_the_items_witness :
  (insert no_stringify (Many [record_a1; record_x1])
     {| insert_key := KeyArray [Some "k1"; None; Some "k3"]; insert_metadata := None |}
     synced_once).1 = Thrown MoreKeysThanItems.
Proof.
  destruct (insert_names_the_items no_stringify synced_once (Many [record_a1; record_x1])
              {| insert_key := KeyArray [Some "k1"; None; Some "k3"]; insert_metadata := None |}
              eq_refl) as [H _].
  rewrite (H [Some "k1"; None; Some "k3"] eq_refl); [reflexivity | simpl; lia].
Defined.

(** ** [insert]: what is stored and what is shown *)

Lemma insert_keys_spec stringify items k c keys :
  (insert_keys stringify items k c).1 = Returned keys →
  insert_keys stringify items k c = (Returned keys, c) ∧ length keys = length items.
Proof.
  unfold insert_keys. destruct k as [|k|configKeys].
  - intros [= <-]. by rewrite length_fmap.
  - destruct k; intros [= <-]; by rewrite ?length_fmap, ?length_imap.
  - case_bool_decide; [done|]. intros [= <-]. by rewrite length_imap.
Qed.

Lemma insert_mutation_run cfg item k v c :
  validateData item OpInsert None c = (Returned v, c) →
  ∃ m, insert_mutation cfg (item, k) c = (Returned m, set_nextOid (S (nextOid c)) c) ∧
       m_type m = OpInsert ∧ m_key m = k ∧ modified m = v ∧ changes m = v ∧
       m_metadata m = insert_metadata cfg.
Proof.
  intros Hv. unfold insert_mutation. rewrite (bind_returned _ _ _ _ _ Hv).
  unfold bind, alloc, gets, ret. simpl. by eexists.
Qed.

Lemma mapM_insert_mutation_run cfg c0 items :
  ∀ keys values c,
    config c = config c0 →
    Forall2 (λ item v, ∀ c', config c' = config c0 →
                             validateData item OpInsert None c' = (Returned v, c'))
      items values →
    length keys = length items →
    ∃ ms n,
      mapM (insert_mutation cfg) (zip items keys) c = (Returned ms, set_nextOid n c) ∧
      Forall (λ m, m_type m = OpInsert) ms ∧
      m_key <$> ms = keys ∧ modified <$> ms = values ∧ changes <$> ms = values.
Proof.
  induction items as [|item items IH]; intros keys values c Hcfg Hvalues Hlen.
  - destruct keys; [|done]. apply Forall2_nil_inv_l in Hvalues as ->.
    exists [], (nextOid c). rewrite set_nextOid_same. by repeat split.
  - destruct keys as [|k keys]; [done|].
    apply Forall2_cons_inv_l in Hvalues as (v & values' & Hv & Hvalues & ->).
    cbn [zip zip_with mapM].
    destruct (insert_mutation_run cfg item k v c (Hv c Hcfg))
      as (m & Hm & Htype & Hkey & Hmod & Hch & _).
    rewrite (bind_returned _ _ _ _ _ Hm).
    destruct (IH keys values' (set_nextOid (S (nextOid c)) c)) as (ms & n & Hms & Hall & H1 & H2 & H3);
      [done | done | by injection Hlen |].
    rewrite (bind_returned _ _ _ _ _ Hms).
    exists (m :: ms), n.
    split; [done|]. split; [by constructor|].
    by rewrite !fmap_cons, Hkey, Hmod, Hch, H1, H2, H3.
Qed.

(** A transaction that has just been applied is pending, so the merge that
    the manager retries is deferred. *)
Lemma applied_transaction_gates c tx :
  state tx = pending →
  list.last (transactions c) = Some tx →
  exec commitPendingTransactions (recompute c) = recompute c.
Proof.
  intros Hst Hlast. apply commitPendingTransactions_gated, merge_gated.
  destruct (recompute_frame c) as (-> & _).
  apply list.last_Some in Hlast as [txs ->].
  apply Exists_app. right. apply Exists_cons_hd. rewrite Hst.
  intros [H | H]; discriminate H.
Qed.

(** The overlay right after a transaction has been applied: the mutations of
    the new transaction come last. *)
Lemma applied_transaction_overlay c ms :
  let tx := mkTransaction pending ms in
  let c' := exec (TransactionManager.applyTransaction ms) c in
  c' = recompute (set_transactions (transactions c ++ [tx]) c) ∧
  transactions c' = transactions c ++ [tx] ∧
  derivedState c' =
    (fold_left (apply_operation (syncedData c))
       (optimisticOperations (transactions c) ++ (to_message <$> ms))
       (syncedData c, nextOid c)).1 ∧
  resolvable c'.
Proof.
  intros tx c'.
  assert (Hc' : c' = recompute (set_transactions (transactions c ++ [tx]) c)).
  { subst c'. unfold exec, TransactionManager.applyTransaction,
      TransactionManager.transactions_changed, bind, modify, ret. cbn [fst snd].
    apply (applied_transaction_gates _ tx); [done|]. simpl. by rewrite last_snoc. }
  rewrite Hc'. split; [done|].
  split; [by destruct (recompute_frame (set_transactions (transactions c ++ [tx]) c)) as (-> & _)|].
  split; [|apply resolvable_recompute].
  rewrite derivedState_recompute. simpl. by rewrite optimisticOperations_snoc.
Qed.

(** X13.  [insert] stores what the schema gate returns and shows it at once.  With
    a persistence function, keys that [insert] accepts and items that all pass
    the gate ([values] are what [validateData] returns for them: the items
    themselves without a schema, the values of the schema with one), [insert]
    returns a pending transaction, appended last, with one insert mutation per
    item in the order of the items, whose [modified] and [changes] are both
    that value.  Right after the call, [state] holds each value under its key
    (unless a later item of the call has the same key), and the value can be
    resolved by reference. *)
Theorem inserted_records_are_shown stringify (c : Collection) (data : OneOrMany Obj)
    (cfg : InsertConfig) (keys : list Key) (values : list Obj) :
  mutationFn (config c) = true →
  (insert_keys stringify (as_array data) (insert_key cfg) c).1 = Returned keys →
  Forall2 (λ item v, ∀ c', config c' = config c →
                           validateData item OpInsert None c' = (Returned v, c'))
    (as_array data) values →
  ∃ tx,
    (insert stringify data cfg c).1 = Returned tx ∧
    state tx = pending ∧
    Forall (λ m, m_type m = OpInsert) (mutations tx) ∧
    m_key <$> mutations tx = keys ∧
    modified <$> mutations tx = values ∧
    changes <$> mutations tx = values ∧
    let c' := exec (insert stringify data cfg) c in
    transactions c' = transactions c ++ [tx] ∧
    ∀ i k v, keys !! i = Some k → values !! i = Some v → k ∉ drop (S i) keys →
             JsMap.get k (get_state c') = Some v ∧ tracked_in_place c' v.
Proof.
  intros Hfn Hkeys Hvalues.
  destruct (insert_keys_spec _ _ _ _ _ Hkeys) as [Hkeys' Hlen].
  destruct (mapM_insert_mutation_run cfg c (as_array data) keys values c eq_refl Hvalues Hlen)
    as (ms & n & Hms & Hall & Hk & Hmod & Hch).
  assert (Hrun : insert stringify data cfg c =
                 TransactionManager.applyTransaction ms (set_nextOid n c)).
  { unfold insert.
    rewrite (bind_returned _ _ _ _ _ (require_mutationFn_ok c Hfn)).
    rewrite (bind_returned _ _ _ _ _ Hkeys').
    by rewrite (bind_returned _ _ _ _ _ Hms). }
  exists (mkTransaction pending ms). unfold exec. rewrite Hrun.
  split; [done|]. do 5 (split; [done|]).
  destruct (applied_transaction_overlay (set_nextOid n c) ms) as (_ & Htx & Hst & Hres).
  unfold exec in Htx, Hst, Hres. cbn zeta. split; [done|].
  intros i k v Hi Hv Hlater.
  assert (Hm : ∃ m, ms !! i = Some m ∧ m_key m = k ∧ modified m = v ∧ m_type m = OpInsert).
  { rewrite <- Hk in Hi. rewrite <- Hmod in Hv.
    apply list_lookup_fmap_Some in Hi as (m & Hk' & Hm).
    rewrite list_lookup_fmap, Hm in Hv. injection Hv as Hv.
    exists m. repeat (split; [done|]).
    rewrite list.Forall_forall in Hall. apply Hall. by eapply list_elem_of_lookup_2. }
  destruct Hm as (m & Hm & Hkm & Hvm & Htm).
  assert (Hget : JsMap.get k (get_state
                   (TransactionManager.applyTransaction ms (set_nextOid n c)).2) = Some v).
  { unfold get_state. rewrite Hst. simpl.
    rewrite <- (take_drop_middle ms i m Hm), fmap_app, fmap_cons, app_assoc.
    pose proof (apply_operations_last (syncedData c)
                  (optimisticOperations (transactions c) ++ (to_message <$> take i ms))
                  (to_message m) (to_message <$> drop (S i) ms) (syncedData c) n) as Hlast.
    simpl in Hlast. rewrite Htm, Hkm, Hvm in Hlast. apply Hlast.
    rewrite <- list_fmap_compose.
    change (key ∘ to_message) with m_key. by rewrite fmap_drop, Hk. }
  split; [done|]. apply (Hres k v); [|done].
  rewrite Htx. unfold live_mutations.
  rewrite list.filter_app, fmap_app, concat_app, fmap_app, elem_of_app. right.
  rewrite filter_cons_True by (simpl; by intros [H | H]).
  simpl. rewrite app_nil_r, <- Hkm. apply list_elem_of_fmap_2.
  by eapply list_elem_of_lookup_2.
Qed.

Lemma inserted_records_are_shown_witness :
  JsMap.get "k2"
    (get_state
       (exec (insert no_stringify (One record_x1)
                {| insert_key := KeyString "k2"; insert_metadata := None |})
          synced_once)) = Some record_x1.
Proof.
  destruct (inserted_records_are_shown no_stringify synced_once (One record_x1)
              {| insert_key := KeyString "k2"; insert_metadata := None |}
              ["k2"] [record_x1] eq_refl eq_refl) as (tx & _ & _ & _ & _ & _ & _ & _ & H).
  - constructor; [|constructor]. intros c' Hcfg. apply validateData_no_schema.
    by rewrite Hcfg.
  - destruct (H 0 "k2" record_x1 eq_refl eq_refl) as [Hget _]; [|exact Hget].
    apply not_elem_of_nil.
Defined.

(** ** The schema gate of [insert] *)

Lemma mapM_insert_mutation_rejected cfg c0 e passed :
  ∀ bad rest keys values c,
    config c = config c0 →
    Forall2 (λ item v, ∀ c', config c' = config c0 →
                             validateData item OpInsert None c' = (Returned v, c'))
      passed values →
    (∀ c', config c' = config c0 → validateData bad OpInsert None c' = (Thrown e, c')) →
    length keys = length (passed ++ bad :: rest) →
    (mapM (insert_mutation cfg) (zip (passed ++ bad :: rest) keys) c).1 = Thrown e.
Proof.
  induction passed as [|item passed IH]; intros bad rest keys values c Hcfg Hvalues Hbad Hlen.
  - destruct keys as [|k keys]; [done|]. cbn [app zip zip_with mapM].
    unfold insert_mutation at 1.
    by rewrite (bind_thrown _ _ _ _ _ (bind_thrown _ _ _ _ _ (Hbad c Hcfg))).
  - destruct keys as [|k keys]; [done|].
    apply Forall2_cons_inv_l in Hvalues as (v & values' & Hv & Hvalues & ->).
    cbn [app zip zip_with mapM].
    destruct (insert_mutation_run cfg item k v c (Hv c Hcfg)) as (m & Hm & _).
    rewrite (bind_returned _ _ _ _ _ Hm).
    specialize (IH bad rest keys values' (set_nextOid (S (nextOid c)) c) Hcfg Hvalues Hbad).
    unfold bind at 1.
    destruct (mapM (insert_mutation cfg) (zip (passed ++ bad :: rest) keys) _)
      as [[ms|e'] c'].
    + simpl in IH. discriminate IH; by injection Hlen.
    + simpl in IH |- *. apply IH. by injection Hlen.
Qed.

(** X14.  [insert] validates the items in order and stops at the first one that
    the schema rejects.  With a schema, when the items before [bad] are
    accepted and the schema returns issues (or a promise) for [bad], [insert]
    throws a validation error of type insert with these issues (or "Schema
    validation must be synchronous"), whatever comes after [bad]; no
    transaction is created. *)
Theorem insert_stops_at_first_rejected_item stringify (c : Collection)
    (data : OneOrMany Obj) (cfg : InsertConfig) (keys : list Key)
    (validate : Obj → ValidationResult) (passed rest : list Obj) (bad : Obj) :
  mutationFn (config c) = true →
  schema (config c) = Some (StandardSchema validate) →
  (insert_keys stringify (as_array data) (insert_key cfg) c).1 = Returned keys →
  as_array data = passed ++ bad :: rest →
  Forall (λ item, ∃ v, validate item = VOk v) passed →
  (∀ v, validate bad ≠ VOk v) →
  (insert stringify data cfg c).1 =
    Thrown (match validate bad with
            | VIssues issues => SchemaValidationError OpInsert issues
            | _ => ValidationMustBeSynchronous
            end) ∧
  transactions (exec (insert stringify data cfg) c) = transactions c.
Proof.
  intros Hfn Hs Hkeys Hdata Hpassed Hbad.
  destruct (insert_keys_spec _ _ _ _ _ Hkeys) as [Hkeys' Hlen].
  set (e := match validate bad with
            | VIssues issues => SchemaValidationError OpInsert issues
            | _ => ValidationMustBeSynchronous
            end).
  assert (Hvalues : ∃ values,
    Forall2 (λ item v, ∀ c', config c' = config c →
                             validateData item OpInsert None c' = (Returned v, c'))
      passed values).
  { clear -Hpassed Hs. induction Hpassed as [|item passed [v Hv] _ [values IH]].
    - exists []. constructor.
    - exists (v :: values). constructor; [|done]. intros c' Hcfg.
      rewrite (validateData_directly validate item OpInsert None c')
        by first [by rewrite Hcfg | done].
      by rewrite Hv. }
  destruct Hvalues as [values Hvalues].
  assert (Hrejected : ∀ c', config c' = config c →
                            validateData bad OpInsert None c' = (Thrown e, c')).
  { intros c' Hcfg.
    rewrite (validateData_directly validate bad OpInsert None c')
      by first [by rewrite Hcfg | done].
    unfold e. destruct (validate bad) as [v| |]; [by destruct (Hbad v) | done | done]. }
  assert (Hthrown : (insert stringify data cfg c).1 = Thrown e).
  { unfold insert.
    rewrite (bind_returned _ _ _ _ _ (require_mutationFn_ok c Hfn)).
    rewrite (bind_returned _ _ _ _ _ Hkeys'). rewrite Hdata in Hlen |- *.
    pose proof (mapM_insert_mutation_rejected cfg c e passed bad rest keys values c
                  eq_refl Hvalues Hrejected Hlen) as Hm.
    unfold bind at 1.
    destruct (mapM (insert_mutation cfg) (zip (passed ++ bad :: rest) keys) c)
      as [[ms|e'] c']; simpl in Hm |- *; congruence. }
  split; [done|].
  destruct (throws_in_insert (λ c', ∃ n, c' = set_nextOid n c)
              ltac:(intros n c' [n' ->]; by exists n) stringify data cfg c e) as [n Hn];
    [exists (nextOid c); by rewrite set_nextOid_same | done |].
  unfold exec. by rewrite Hn.
Qed.

Lemma insert_stops_at_first_rejected_item_witness :
  (insert no_stringify (Many [record_a1; record_x1])
     {| insert_key := KeyArray [Some "k1"; Some "k2"]; insert_metadata := None |}
     (new_collection needs_a_config)).1 =
  Thrown (SchemaValidationError OpInsert [mkIssue "a is required" (Some ["a"])]).
Proof.
  refine (proj1 (insert_stops_at_first_rejected_item no_stringify
                   (new_collection needs_a_config)
                   (Many [record_a1; record_x1])
                   {| insert_key := KeyArray [Some "k1"; Some "k2"]; insert_metadata := None |}
                   ["k1"; "k2"] needs_a
                   [record_a1] [] record_x1 eq_refl eq_refl eq_refl eq_refl _ _)).
  - constructor; [|constructor]. by exists record_a1.
  - intros v Hv. vm_compute in Hv. discriminate Hv.
Defined.


(** ** [delete]: what is removed, and what a rollback brings back *)

(** A [delete] that returns has taken every removed key out of the overlay. *)
Lemma delete_removes_keys c items md tx :
  (delete items md c).1 = Returned tx →
  let c' := exec (delete items md) c in
  transactions c' = transactions c ++ [tx] ∧
  syncedData c' = syncedData c ∧
  ∀ k, k ∈ removed_keys tx → JsMap.get k (get_state c') = None.
Proof.
  intros Hret c'.
  destruct (delete_returned c items md tx Hret) as (n & Hn & Hfn & Hst & Hdel & Hrun).
  subst c'. rewrite Hrun. clear Hrun.
  set (cb := fold_left forget_current (mutations tx) (set_nextOid n c)).
  set (cc := set_transactions (transactions c ++ [tx]) cb).
  destruct (fold_forget_current_spec (mutations tx) (set_nextOid n c))
    as (_ & _ & Hsd_b & Hn_b & _).
  fold cb in Hsd_b, Hn_b.
  rewrite (applied_transaction_gates cc tx Hst) by (simpl; by rewrite last_snoc).
  destruct (recompute_frame cc) as (Htx_r & Hsd_r & _).
  split; [by rewrite Htx_r|]. split; [by rewrite Hsd_r|].
  intros k Hk. unfold get_state. rewrite derivedState_recompute. simpl.
  rewrite optimisticOperations_snoc, fold_left_app by done.
  destruct (fold_left (apply_operation (syncedData cb)) _ (syncedData cb, nextOid cb))
    as [combined1 n1].
  apply apply_deletes_removes.
  - apply list.Forall_forall. intros op (m & -> & Hm)%list_elem_of_fmap.
    rewrite list.Forall_forall in Hdel. by apply Hdel.
  - left. rewrite <- list_fmap_compose. exact Hk.
Qed.

Lemma delete_key_mutation_run md k c :
  ∃ m n,
    delete_mutation md (ItemKey k) c = (Returned m, set_nextOid n c) ∧
    m_key m = k ∧ m_type m = OpDelete ∧
    fields (modified m) = tombstone ∧ fields (changes m) = tombstone ∧
    fields (original m) = or_empty (JsMap.get k (get_state c)).
Proof.
  unfold delete_mutation, state_or_new, syncMetadata_of, bind, gets, alloc, ret.
  destruct (JsMap.get k (get_state c)) as [o|] eqn:Hget; cbn -[tombstone];
    rewrite ?Hget; eexists _, _; (split; [reflexivity|]); by repeat split.
Qed.

Lemma mapM_delete_key_mutation_run md keys c :
  ∃ ms n,
    mapM (delete_mutation md) (ItemKey <$> keys) c = (Returned ms, set_nextOid n c) ∧
    m_key <$> ms = keys ∧
    Forall (λ m, m_type m = OpDelete ∧
                 fields (modified m) = tombstone ∧ fields (changes m) = tombstone ∧
                 fields (original m) = or_empty (JsMap.get (m_key m) (get_state c))) ms.
Proof.
  revert c. induction keys as [|k keys IH]; intros c.
  - exists [], (nextOid c). rewrite set_nextOid_same. by repeat split.
  - rewrite fmap_cons. cbn [mapM].
    destruct (delete_key_mutation_run md k c) as (m & n & Hm & Hk & Ht & H1 & H2 & H3).
    rewrite (bind_returned _ _ _ _ _ Hm).
    destruct (IH (set_nextOid n c)) as (ms & n' & Hms & Hks & Hall).
    rewrite (bind_returned _ _ _ _ _ Hms).
    exists (m :: ms), n'. split; [done|]. split; [by rewrite fmap_cons, Hk, Hks|].
    constructor; [by rewrite Hk | done].
Qed.

(** X16.  [delete] by key never fails.  With a persistence function, a [delete] of
    keys (whether or not the overlay holds a record for them) returns a
    pending transaction, appended last, with one delete mutation per key in
    the order given; each mutation carries the record [{ _deleted: true }] as
    [modified] and [changes] and the overlay record of its key, or an empty
    record, as [original].  Right after the call [state] holds nothing under
    any of the keys. *)
Theorem delete_by_key_always_succeeds (c : Collection) (keys : list Key)
    (md : option Fields) :
  mutationFn (config c) = true →
  ∃ tx,
    (delete (Many (ItemKey <$> keys)) md c).1 = Returned tx ∧
    state tx = pending ∧
    removed_keys tx = keys ∧
    Forall (λ m, m_type m = OpDelete ∧
                 fields (modified m) = tombstone ∧ fields (changes m) = tombstone ∧
                 fields (original m) = or_empty (JsMap.get (m_key m) (get_state c)))
      (mutations tx) ∧
    let c' := exec (delete (Many (ItemKey <$> keys)) md) c in
    transactions c' = transactions c ++ [tx] ∧
    ∀ k, k ∈ keys → JsMap.get k (get_state c') = None.
Proof.
  intros Hfn.
  destruct (mapM_delete_key_mutation_run md keys c) as (ms & n & Hms & Hks & Hall).
  assert (Hret : (delete (Many (ItemKey <$> keys)) md c).1 =
                 Returned (mkTransaction pending ms)).
  { unfold delete.
    rewrite (bind_returned _ _ _ _ _ (require_mutationFn_ok c Hfn)).
    cbn [as_array]. by rewrite (bind_returned _ _ _ _ _ Hms). }
  exists (mkTransaction pending ms). do 4 (split; [done|]).
  destruct (delete_removes_keys c _ md _ Hret) as (Htx & _ & Hgone).
  cbn zeta. split; [done|]. intros k Hk. apply Hgone. unfold removed_keys. simpl.
  by rewrite Hks.
Qed.

Lemma delete_by_key_always_succeeds_witness :
  JsMap.get "k" (get_state synced_once) = Some record_a1 ∧
  JsMap.get "nowhere" (get_state synced_once) = None ∧
  ∃ tx, (delete (Many (ItemKey <$> ["k"; "nowhere"])) None synced_once).1 = Returned tx ∧
        length (mutations tx) = 2.
Proof.
  split; [reflexivity|]. split; [reflexivity|].
  destruct (delete_by_key_always_succeeds synced_once ["k"; "nowhere"] None eq_refl)
    as (tx & Hret & _ & Hkeys & _).
  exists tx. split; [exact Hret|].
  unfold removed_keys in Hkeys. apply (f_equal length) in Hkeys.
  rewrite length_fmap in Hkeys. exact Hkeys.
Defined.

(** A merge with nothing queued leaves the stores and the identity map as
    they are. *)
Lemma merge_of_empty_queue c :
  pendingSyncedTransactions c = [] →
  let c' := exec commitPendingTransactions c in
  objectKeyMap c' = objectKeyMap c ∧ derivedState c' = derivedState c ∧
  config c' = config c ∧ syncedData c' = syncedData c.
Proof.
  intros Hq. rewrite exec_commitPendingTransactions; cbv zeta.
  destruct (merge_permitted c); [|done]. rewrite Hq. simpl.
  by destruct (hasReceivedFirstCommit c).
Qed.

(** X18.  A [delete] that is rolled back leaves the record untracked.  In a
    reachable state where every transaction is terminal and nothing is
    queued, take a record that SyncedDataset holds under a key and delete the
    key.  While the delete is pending, [state] holds nothing under the key.
    Once the transaction set holds terminal transactions only again (the
    delete has failed, or has completed before the sync source confirms it),
    the recomputed [state] holds the record again, but the identity map has no
    entry for it any more: an [update] that is passed the record throws
    "Object not found in collection". *)
Theorem rolled_back_delete_leaves_record_untracked stringify cfg (c : Collection)
    (k : Key) (o : Obj) (md : option Fields) (txs' : list Transaction) :
  reachable stringify cfg c →
  mutationFn (config c) = true →
  all_terminal (transactions c) →
  pendingSyncedTransactions c = [] →
  JsMap.get k (syncedData c) = Some o →
  all_terminal txs' →
  let c1 := exec (delete (One (ItemKey k)) md) c in
  let c2 := exec commitPendingTransactions (recompute (set_transactions txs' c1)) in
  JsMap.get k (get_state c1) = None ∧
  JsMap.get k (get_state c2) = Some o ∧
  objectKeyMap c2 !! oid o = None ∧
  ∀ target md', o ∈ itemsArray target →
    update target md' c2 = (Thrown ObjectNotFoundInCollection, c2).
Proof.
  intros [n0 Hd]%derived_reachable Hfn Hidle Hq Hsynced Hidle' c1 c2.
  assert (Hstate : derivedState c = syncedData c).
  { rewrite Hd. unfold overlay_at. by rewrite optimisticOperations_idle. }
  destruct (mapM_delete_key_mutation_run md [k] c) as (ms & n & Hms & Hks & Hall).
  assert (Hret : (delete (One (ItemKey k)) md c).1 = Returned (mkTransaction pending ms)).
  { unfold delete.
    rewrite (bind_returned _ _ _ _ _ (require_mutationFn_ok c Hfn)).
    cbn [as_array]. by rewrite (bind_returned _ _ _ _ _ Hms). }
  destruct ms as [|m [|m' ms]]; try done. injection Hks as Hk.
  destruct (delete_removes_keys c _ md _ Hret) as (Htx1 & Hsd1 & Hgone). fold c1 in Htx1, Hsd1, Hgone.
  assert (Hgone_k : JsMap.get k (get_state c1) = None)
    by (apply Hgone; unfold removed_keys; simpl; rewrite Hk; by left).
  (* the identity map after the delete *)
  destruct (delete_returned c _ md _ Hret) as (n1 & _ & _ & _ & _ & Hrun). fold c1 in Hrun.
  cbn [mutations fold_left] in Hrun.
  assert (Hforget : forget_current (set_nextOid n1 c) m =
                    set_objectKeyMap (base.delete (oid o) (objectKeyMap c)) (set_nextOid n1 c)).
  { unfold forget_current, get_state. simpl. by rewrite Hk, Hstate, Hsynced. }
  rewrite Hforget in Hrun.
  set (cc := set_transactions _ _) in Hrun.
  rewrite (applied_transaction_gates cc (mkTransaction pending [m])) in Hrun
    by (done || (simpl; by rewrite last_snoc)).
  assert (Hq1 : pendingSyncedTransactions c1 = [] ∧ config c1 = config c).
  { rewrite Hrun. by destruct (recompute_frame cc) as (_ & _ & _ & -> & _ & _ & -> & _). }
  destruct Hq1 as [Hq1 Hcfg1].
  assert (Hokm1 : objectKeyMap c1 !! oid o = None).
  { rewrite Hrun, recompute_objectKeyMap. apply register_other.
    - simpl. apply lookup_delete_eq.
    - intros k' o' Hk' Hget'. exfalso.
      apply key_set_subset in Hk' as [Hk' | Hk']; [by apply elem_of_nil in Hk'|].
      simpl in Hk'. rewrite optimisticOperations_snoc, fmap_app in Hk' by done.
      rewrite (optimisticOperations_idle _ Hidle) in Hk'. simpl in Hk'.
      apply list_elem_of_singleton in Hk' as ->.
      rewrite <- Hrun in Hget'. unfold get_state in Hgone_k.
      rewrite Hk in Hget'. congruence. }
  (* the transaction set is terminal again *)
  subst c2. set (c1' := recompute (set_transactions txs' c1)).
  destruct (recompute_frame (set_transactions txs' c1))
    as (_ & Hsd' & _ & Hq' & _ & _ & Hcfg' & _).
  fold c1' in Hsd', Hq', Hcfg'. simpl in Hsd', Hq', Hcfg'.
  assert (Hstate' : derivedState c1' = syncedData c).
  { unfold c1'. rewrite derivedState_recompute. simpl.
    by rewrite (optimisticOperations_idle _ Hidle'), Hsd1. }
  assert (Hokm' : objectKeyMap c1' = objectKeyMap c1).
  { unfold c1'. rewrite recompute_objectKeyMap. simpl.
    by rewrite (optimisticOperations_idle _ Hidle'). }
  destruct (merge_of_empty_queue c1') as (Hokm2 & Hstate2 & Hcfg2 & _);
    [by rewrite Hq'|].
  cbn zeta in Hokm2, Hstate2, Hcfg2.
  assert (Huntracked : objectKeyMap (exec commitPendingTransactions c1') !! oid o = None)
    by (by rewrite Hokm2, Hokm').
  split; [done|]. split; [unfold get_state; by rewrite Hstate2, Hstate'|].
  split; [done|].
  intros target md' Hin. unfold update.
  assert (Hfn2 : mutationFn (config (exec commitPendingTransactions c1')) = true)
    by (by rewrite Hcfg2, Hcfg', Hcfg1).
  rewrite (bind_returned _ _ _ _ _ (require_mutationFn_ok _ Hfn2)).
  by rewrite (bind_thrown _ _ _ _ _ (mapM_resolve_item_unknown _ _ o Hin Huntracked)).
Qed.

Lemma rolled_back_delete_leaves_record_untracked_witness :
  objectKeyMap synced_once !! oid record_a1 = Some "k" ∧
  JsMap.get "k" (get_state rolled_back_delete) = Some record_a1 ∧
  (update (UpdateOne record_a1 (assign "a" (VNum 2))) None rolled_back_delete).1 =
    Thrown ObjectNotFoundInCollection.
Proof.
  split; [reflexivity|]. split; [reflexivity|].
  assert (Hreach : reachable no_stringify example_config synced_once).
  { exists (new_collection example_config), [EBegin; EWrite insert_k_a1; ECommit].
    split; [reflexivity | by vm_compute]. }
  assert (Hidle : all_terminal [mkTransaction failed (mutations example_delete_tx)]).
  { constructor; [by right | constructor]. }
  destruct (rolled_back_delete_leaves_record_untracked no_stringify example_config
              synced_once "k" record_a1 None _ Hreach eq_refl (Forall_nil_2 _) eq_refl eq_refl Hidle)
    as (_ & _ & _ & H).
  specialize (H (UpdateOne record_a1 (assign "a" (VNum 2))) None).
  change (exec commitPendingTransactions _) with rolled_back_delete in H.
  rewrite H; [reflexivity | by left].
Defined.

(** ** A sync round on a collection without pending work *)

(** A merge tracks the record that the overlay then holds for every key that
    the queue names. *)
Lemma merge_tracks_touched_keys c k o :
  merge_permitted c = true →
  let c' := exec commitPendingTransactions c in
  k ∈ key <$> buffered_changes (pendingSyncedTransactions c) →
  JsMap.get k (get_state c') = Some o →
  tracked_in_place c' o.
Proof.
  intros Hgate. rewrite exec_commitPendingTransactions; cbv zeta. rewrite Hgate.
  rewrite fold_merge_transaction, fold_merge_operation.
  destruct (fold_left apply_synced_data _ _) as [sd n].
  set (c1 := set_syncedMetadata _ _).
  generalize (if bool_decide (concat (operations <$> pendingSyncedTransactions c) = [])
              then c1 else recompute c1). intros c2. cbn zeta.
  intros Hk Hget. unfold tracked_in_place.
  assert (Hin : in_place (get_state c2)
                  (fold_left (register (get_state c2))
                     (fold_left set_add (key <$> buffered_changes (pendingSyncedTransactions c)) [])
                     (objectKeyMap c2)) (oid o)).
  { apply (fold_register_tracks _ _ _ k).
    - apply key_set_complete. by right.
    - simpl in Hget. by destruct (hasReceivedFirstCommit c2). }
  simpl. by destruct (hasReceivedFirstCommit c2).
Qed.

(** X4.  A round on a collection without pending work is shown at once.  In a
    reachable state where every transaction is terminal, the round
    [begin(); write(m1); ...; write(mn); commit()] folds the changes queued
    before and then [m1 ... mn] into SyncedDataset and clears the queue;
    afterwards [state] is SyncedDataset, the first commit has happened, and
    every record that [state] holds under a key named in the round can be
    resolved by reference. *)
Theorem idle_round_is_shown stringify cfg (c : Collection) (messages : list ChangeMessage) :
  reachable stringify cfg c →
  all_terminal (transactions c) →
  let changes := buffered_changes (pendingSyncedTransactions c) ++ messages in
  let c' := exec (begin ;;; mapM write messages ;;; commit) c in
  view (syncedData c') = fold_left spec_merge_data changes (view (syncedData c)) ∧
  get_state c' = syncedData c' ∧
  pendingSyncedTransactions c' = [] ∧
  hasReceivedFirstCommit c' = true ∧
  ∀ k o, k ∈ key <$> changes → JsMap.get k (get_state c') = Some o →
         tracked_in_place c' o.
Proof.
  intros Hd%derived_reachable Hidle changes c'.
  set (queue := pendingSyncedTransactions c ++ [mkPendingSyncedTransaction false messages]).
  set (cb := set_pendingSyncedTransactions queue c).
  set (cm := set_pendingSyncedTransactions (map_last mark_committed queue) c).
  assert (Hc' : c' = exec commitPendingTransactions cm).
  { subst c'. unfold exec. unfold bind at 1, begin, modify. cbn beta iota.
    set (c0 := set_pendingSyncedTransactions _ c).
    assert (Hq0 : pendingSyncedTransactions c0 =
                  pendingSyncedTransactions c ++ [mkPendingSyncedTransaction false []]) by done.
    rewrite (bind_returned _ _ _ _ _ (mapM_write_open messages c0 _ [] Hq0)).
    unfold commit, bind, gets, modify. cbn -[map_last commitPendingTransactions].
    by rewrite last_snoc. }
  assert (Hgate : merge_permitted cm = true).
  { apply merge_permitted_spec. by right. }
  assert (Hchanges : buffered_changes (pendingSyncedTransactions cm) = changes).
  { change (pendingSyncedTransactions cm) with (map_last mark_committed queue).
    rewrite buffered_changes_map_last by done.
    unfold queue, buffered_changes, changes.
    rewrite fmap_app, concat_app. simpl. by rewrite app_nil_r. }
  destruct (commitPendingTransactions_permitted cm Hgate) as (Hq & Hview & _ & Hflag & Htx).
  rewrite Hchanges in Hview. rewrite Hc'.
  split; [done|]. split; [|split; [done|split; [done|]]].
  - destruct (derived_commitPendingTransactions cm) as [n Hn].
    { by apply (derived_frame c). }
    unfold get_state. rewrite Hn. unfold overlay_at.
    cbn zeta in Htx. rewrite Htx. simpl.
    by rewrite optimisticOperations_idle.
  - intros k o Hk. apply merge_tracks_touched_keys; [done|]. by rewrite Hchanges.
Qed.

Lemma idle_round_is_shown_witness :
  let c' := exec (begin ;;; mapM write [insert_k_a1] ;;; commit)
              (new_collection example_config) in
  get_state c' = syncedData c' ∧ JsMap.get "k" (get_state c') = Some record_a1.
Proof.
  assert (Hreach : reachable no_stringify example_config (new_collection example_config)).
  { exists (new_collection example_config), []. by split. }
  destruct (idle_round_is_shown no_stringify example_config (new_collection example_config)
              [insert_k_a1] Hreach (Forall_nil_2 _)) as (_ & H & _).
  split; [exact H | reflexivity].
Defined.

(** ** [update]: what is stored and what is shown *)

Lemma update_mutation_no_schema md k changed c :
  schema (config c) = None →
  fields changed ≠ ∅ →
  ∃ m n,
    update_mutation md (k, Some changed) c = (Returned (Some m), set_nextOid n c) ∧
    m_type m = OpUpdate ∧ m_key m = k ∧ changes m = changed ∧
    fields (modified m) = spread (or_empty (JsMap.get k (get_state c))) (fields changed) ∧
    (∀ o, JsMap.get k (get_state c) = Some o → original m = o) ∧
    m_metadata m = md ∧
    syncMetadata m = default ∅ (mjoin (JsMap.get k (syncedMetadata c))).
Proof.
  intros Hs Hch. unfold update_mutation. rewrite decide_False by done.
  rewrite (bind_returned _ _ _ _ _ (validateData_no_schema changed OpUpdate (Some k) c Hs)).
  unfold state_or_new, syncMetadata_of, bind, gets, alloc, ret, get_state.
  destruct (JsMap.get k (derivedState c)) as [o|] eqn:Hget; simpl; rewrite ?Hget;
    eexists _, _; (split; [reflexivity|]); repeat split; try done.
  by intros o' [= <-].
Qed.

(** X15.  [update] is shown at once.  Without a schema, an [update] of one tracked
    record whose diff is not empty returns a pending transaction with one
    update mutation for the key of the record: [changes] is the diff,
    [modified] is the record that the overlay showed for the key (or an empty
    record) with the diff on top, and [original] is the shown record itself.
    Right after the call, [state] holds for the key a record whose fields are
    those of the synced record of the key (or none) with the fields of
    [modified] on top, and that record can be resolved by reference. *)
Theorem update_is_shown_at_once (c : Collection) (item : Obj)
    (callback : Fields → Fields) (md : option Fields) (k : Key) :
  mutationFn (config c) = true →
  schema (config c) = None →
  objectKeyMap c !! oid item = Some k →
  let shown := or_empty (JsMap.get k (get_state c)) in
  let diff := Proxy.withChangeTracking shown callback in
  diff ≠ ∅ →
  ∃ m,
    (update (UpdateOne item callback) md c).1 = Returned (mkTransaction pending [m]) ∧
    m_type m = OpUpdate ∧ m_key m = k ∧
    fields (changes m) = diff ∧
    fields (modified m) = spread shown diff ∧
    (∀ o, JsMap.get k (get_state c) = Some o → original m = o) ∧
    let c' := exec (update (UpdateOne item callback) md) c in
    transactions c' = transactions c ++ [mkTransaction pending [m]] ∧
    fields <$> JsMap.get k (get_state c') =
      Some (spread (or_empty (JsMap.get k (syncedData c))) (spread shown diff)) ∧
    ∀ o', JsMap.get k (get_state c') = Some o' → tracked_in_place c' o'.
Proof.
  intros Hfn Hs Hk shown diff Hdiff.
  pose proof (update_one_run c item callback md k Hfn Hk) as Hrun.
  cbn zeta in Hrun. fold shown in Hrun. fold diff in Hrun.
  set (c1 := set_nextOid (S (nextOid c)) c) in Hrun.
  destruct (update_mutation_no_schema md k (mkObj (NewId (nextOid c)) diff) c1 Hs Hdiff)
    as (m & n & Hm & Htype & Hkey & Hch & Hmod & Horig & _).
  rewrite (bind_returned _ _ _ _ _ Hm) in Hrun.
  exists m. unfold exec. rewrite Hrun.
  split; [done|]. split; [done|]. split; [done|]. split; [by rewrite Hch|].
  split; [done|]. split; [done|].
  destruct (applied_transaction_overlay (set_nextOid n c1) [m]) as (_ & Htx & Hst & Hres).
  unfold exec in Htx, Hst, Hres. cbn zeta. split; [done|].
  assert (Hshown : fields <$> JsMap.get k (get_state
                     (TransactionManager.applyTransaction [m] (set_nextOid n c1)).2) =
                   Some (spread (or_empty (JsMap.get k (syncedData c))) (spread shown diff))).
  { unfold get_state. rewrite Hst. simpl.
    pose proof (apply_operations_last (syncedData c) (optimisticOperations (transactions c))
                  (to_message m) [] (syncedData c) n) as Hlast.
    simpl in Hlast. rewrite Htype, Hkey, Hmod in Hlast. apply Hlast.
    apply not_elem_of_nil. }
  split; [done|].
  intros o' Hget. apply (Hres k o'); [|done].
  rewrite Htx. unfold live_mutations.
  rewrite list.filter_app, fmap_app, concat_app, fmap_app, elem_of_app. right.
  rewrite filter_cons_True by (simpl; by intros [H | H]).
  simpl. rewrite Hkey. by left.
Qed.

Lemma update_is_shown_at_once_witness :
  fields <$> JsMap.get "k"
    (get_state (exec (update (UpdateOne record_a1 (assign "b" (VNum 2))) None) synced_once)) =
  Some {[ "a" := VNum 1; "b" := VNum 2 ]}.
Proof.
  assert (Hdiff : Proxy.withChangeTracking
                    (or_empty (JsMap.get "k" (get_state synced_once)))
                    (assign "b" (VNum 2)) ≠ ∅).
  { intros H. apply (f_equal (λ m : gmap string Value, m !! "b")) in H.
    vm_compute in H. discriminate H. }
  destruct (update_is_shown_at_once synced_once record_a1 (assign "b" (VNum 2)) None "k"
              eq_refl eq_refl eq_refl Hdiff) as (m & _ & _ & _ & _ & _ & _ & _ & H & _).
  rewrite H. by vm_compute.
Defined.

(** ** Mutation calls leave the sync side alone *)

Section returns_in.
Context {I : Collection → Prop} {A : Type} {J : A → Collection → Prop}.

Lemma returns_in_throw e : returns_in I J (@throw A e).
Proof. by intros c a _ H. Qed.

Lemma returns_in_bind {B} (m : M B) (k : B → M A) :
  preserves I m → (∀ b, returns_in I J (k b)) → returns_in I J (bind m k).
Proof.
  intros Hm Hk c a Hc. unfold bind. specialize (Hm c Hc).
  destruct (m c) as [[b|e] c']; simpl in *; [by apply Hk | done].
Qed.

End returns_in.

Ltac returns_in_step :=
  lazymatch goal with
  | |- returns_in _ _ (bind _ _) => apply returns_in_bind; [|intros ?]
  | |- returns_in _ _ (throw _) => apply returns_in_throw
  | |- returns_in _ _ (match ?x with _ => _ end) => destruct x
  end.

Section applied.
Variable c0 : Collection.

Lemma prepared_nextOid n c : prepared c0 c → prepared c0 (set_nextOid n c).
Proof. intros (n' & okm & ->). by exists n, okm. Qed.

Lemma applied_applyTransaction mutations :
  returns_in (prepared c0) (applied c0) (TransactionManager.applyTransaction mutations).
Proof.
  intros c tx Hc Hret. exists c, mutations. split; [done|].
  by destruct (TransactionManager.applyTransaction mutations c) as [[tx'|e] c'];
    simpl in *; simplify_eq.
Qed.

Lemma applied_insert stringify data cfg :
  returns_in (prepared c0) (applied c0) (insert stringify data cfg).
Proof.
  unfold insert.
  returns_in_step; [unfold require_mutationFn; allocates prepared_nextOid|].
  returns_in_step; [unfold insert_keys; allocates prepared_nextOid|].
  returns_in_step; [unfold insert_mutation; allocates prepared_nextOid|].
  apply applied_applyTransaction.
Qed.

Lemma applied_update target md : returns_in (prepared c0) (applied c0) (update target md).
Proof.
  unfold update.
  returns_in_step; [unfold require_mutationFn; allocates prepared_nextOid|].
  returns_in_step; [allocates prepared_nextOid|].
  returns_in_step; [allocates prepared_nextOid|].
  returns_in_step; [unfold alloc_changes; allocates prepared_nextOid|].
  returns_in_step; [unfold update_mutation, syncMetadata_of; allocates prepared_nextOid|].
  returns_in_step; [apply returns_in_throw|]. apply applied_applyTransaction.
Qed.

Lemma applied_delete items md : returns_in (prepared c0) (applied c0) (delete items md).
Proof.
  unfold delete.
  returns_in_step; [unfold require_mutationFn; allocates prepared_nextOid|].
  returns_in_step; [unfold delete_mutation, syncMetadata_of; allocates prepared_nextOid|].
  returns_in_step; [|apply applied_applyTransaction].
  apply preserves_modify. intros c (n & okm & ->).
  match goal with
  | |- prepared c0 (fold_left forget_current ?ms ?c) =>
      destruct (fold_forget_current_objectKeyMap ms c) as [okm' ->]
  end.
  by exists n, okm'.
Qed.

(** Applying a transaction in a prepared state touches the overlay side
    only. *)
Lemma applied_optimistic_only tx c' :
  applied c0 tx c' → optimistic_only c0 (Returned tx) c'.
Proof.
  intros (c & mutations & (n & okm & ->) & Hrun).
  set (c1 := set_objectKeyMap okm (set_nextOid n c0)) in *.
  destruct (applied_transaction_overlay c1 mutations) as (Hc' & _).
  pose proof (applyTransaction_returns mutations c1) as Htx.
  unfold exec in Hc'. rewrite Hrun in Hc', Htx. cbn [fst snd] in Hc', Htx.
  injection Htx as ->.
  destruct (recompute_frame
              (set_transactions (transactions c1 ++ [mkTransaction pending mutations]) c1))
    as (Htxs & Hsd & Hmd & Hq & Hflag & Hcb & Hcfg & Hfired).
  rewrite <- Hc' in Htxs, Hsd, Hmd, Hq, Hflag, Hcb, Hcfg, Hfired.
  by repeat (split; [done|]).
Qed.

End applied.

(** X26.  [insert], [update] and [delete] leave the sync side alone.  Whatever the
    state and the arguments, and whether the call returns or throws: the
    synced data, the synced metadata, the queue of buffers, the first-commit
    flag and the callbacks are as before the call (the merge that is retried
    for the new transaction is deferred by that very transaction), and the
    transactions are as before, with the returned transaction, pending, as the
    new last one if the call returned. *)
Theorem mutation_calls_leave_the_sync_side_alone stringify (c : Collection) :
  (∀ data cfg,
     optimistic_only c (insert stringify data cfg c).1 (exec (insert stringify data cfg) c)) ∧
  (∀ target md,
     optimistic_only c (update target md c).1 (exec (update target md) c)) ∧
  (∀ items md,
     optimistic_only c (delete items md c).1 (exec (delete items md) c)).
Proof.
  assert (Hc : ∃ n okm, c = set_objectKeyMap okm (set_nextOid n c)).
  { exists (nextOid c), (objectKeyMap c). by destruct c. }
  assert (Hn : ∀ n c', (∃ n', c' = set_nextOid n' c) → ∃ n', set_nextOid n c' = set_nextOid n' c).
  { intros n c' [n' ->]. by exists n. }
  assert (Hc0 : ∃ n, c = set_nextOid n c).
  { exists (nextOid c). by rewrite set_nextOid_same. }
  assert (Hthrown : ∀ e c', (∃ n, c' = set_nextOid n c) → optimistic_only c (Thrown e) c').
  { intros e c' [n ->]. by repeat split. }
  split; [|split].
  - intros data cfg. destruct (insert stringify data cfg c).1 as [tx|e] eqn:Hrun.
    + apply applied_optimistic_only.
      by apply (applied_insert c stringify data cfg c tx Hc).
    + apply Hthrown.
      by apply (throws_in_insert (λ c', ∃ n, c' = set_nextOid n c) Hn stringify data cfg c e).
  - intros target md. destruct (update target md c).1 as [tx|e] eqn:Hrun.
    + apply applied_optimistic_only.
      by apply (applied_update c target md c tx Hc).
    + apply Hthrown.
      by apply (throws_in_update (λ c', ∃ n, c' = set_nextOid n c) Hn target md c e).
  - intros items md. destruct (delete items md c).1 as [tx|e] eqn:Hrun.
    + apply applied_optimistic_only.
      by apply (applied_delete c items md c tx Hc).
    + apply Hthrown.
      by apply (throws_in_delete (λ c', ∃ n, c' = set_nextOid n c) Hn items md c e).
Qed.

(** ** Preloading *)

Lemma has_get {A} k (m : JsMap.t A) : has k m = true ↔ is_Some (JsMap.get k m).
Proof. unfold has. apply bool_decide_eq_true. Qed.

Lemma has_get_Some {A} k (m : JsMap.t A) v : JsMap.get k m = Some v → has k m = true.
Proof. intros H. apply has_get. by rewrite H. Qed.

Lemma has_get_None {A} k (m : JsMap.t A) : JsMap.get k m = None → has k m = false.
Proof.
  intros H. apply not_true_iff_false. rewrite has_get, H. by intros [v Hv].
Qed.

Lemma has_set {A} k k' v (m : JsMap.t A) : has k m = true → has k (JsMap.set k' v m) = true.
Proof.
  rewrite !has_get. intros Hk. destruct (decide (k' = k)) as [-> | Hne].
  - by rewrite JsMapFacts.get_set_eq.
  - by rewrite JsMapFacts.get_set_ne.
Qed.

Lemma jsmap_set_set {A} k (v v' : A) (m : JsMap.t A) :
  JsMap.set k v (JsMap.set k v' m) = JsMap.set k v m.
Proof.
  induction m as [|[k' w] m IH]; simpl.
  - by rewrite decide_True.
  - destruct (decide (k' = k)); simpl; [by rewrite decide_True|].
    rewrite decide_False by done. by rewrite IH.
Qed.

(** The two ways out of [preloadCollection] that create nothing. *)
Lemma preload_known id cfg start r c loading :
  JsMap.get id (collectionsStore r) = Some c →
  JsMap.get id (loadingCollections r) = loading →
  preloadCollection id cfg start r =
  (Returned (match loading with
             | Some promise => FirstCommit promise
             | None => ResolvedWith id
             end), r).
Proof.
  intros Hc Hl. unfold preloadCollection.
  rewrite (has_get_Some _ _ _ Hc). destruct loading as [promise|].
  - by rewrite (has_get_Some _ _ _ Hl), Hl.
  - by rewrite (has_get_None _ _ Hl).
Qed.

(** The way that creates the collection. *)
Lemma preload_new id cfg start r :
  JsMap.get id (collectionsStore r) = None →
  JsMap.get id (loadingCollections r) = None →
  preloadCollection id cfg start r =
  match sync cfg with
  | None => (Thrown CollectionRequiresSyncConfig, r)
  | Some _ =>
      match start (new_collection cfg) with
      | Thrown e => (Thrown e, r)
      | Returned c1 =>
          (Returned (FirstCommit (length (promises r))),
           {| collectionsStore :=
                JsMap.set id
                  (set_onFirstCommitCallbacks
                     (onFirstCommitCallbacks c1 ++ [UserCallback (length (promises r))]) c1)
                  (collectionsStore r);
              loadingCollections := JsMap.set id (length (promises r)) (loadingCollections r);
              promises := promises r ++ [mkFirstCommitPromise id false] |})
      end
  end.
Proof.
  intros Hc Hl. unfold preloadCollection, constructor.
  rewrite (has_get_None _ _ Hc), Hl. simpl.
  destruct (sync cfg); [|done].
  destruct (start (new_collection cfg)) as [c1|e]; [|done].
  by rewrite JsMapFacts.get_set_eq, jsmap_set_set.
Qed.

(** X19.  While a collection is loading, [preloadCollection] hands out the promise
    that it created.  Whatever a call for an id returned as first-commit
    promise, a later call for the same id, as long as nothing else has
    happened, returns the same promise and leaves the store, the loading map
    and the promises as they are: no second collection is created, no second
    listener is registered, and the config and the sync source of the later
    call are not used. *)
Theorem preload_while_loading_is_idempotent (id : Key) (cfg cfg' : CollectionConfig)
    (start start' : Collection → Outcome Collection) (r r' : Registry) (promise : nat) :
  registry_wf r →
  preloadCollection id cfg start r = (Returned (FirstCommit promise), r') →
  preloadCollection id cfg' start' r' = (Returned (FirstCommit promise), r').
Proof.
  intros [_ Hwf] Hfirst.
  destruct (JsMap.get id (loadingCollections r)) as [p|] eqn:Hl.
  - assert (Hc : is_Some (JsMap.get id (collectionsStore r))).
    { apply has_get, Hwf. by eapply has_get_Some. }
    destruct Hc as [c Hc].
    rewrite (preload_known id cfg start r c (Some p) Hc Hl) in Hfirst.
    injection Hfirst as <- <-. by apply (preload_known id cfg' start' r c (Some p)).
  - destruct (JsMap.get id (collectionsStore r)) as [c|] eqn:Hc.
    + by rewrite (preload_known id cfg start r c None Hc Hl) in Hfirst.
    + rewrite (preload_new id cfg start r Hc Hl) in Hfirst.
      destruct (sync cfg); [|done].
      destruct (start (new_collection cfg)) as [c1|e]; [|done].
      injection Hfirst as <- <-.
      eapply (preload_known id cfg' start' _ _ (Some (length (promises r)))); simpl.
      * apply JsMapFacts.get_set_eq.
      * apply JsMapFacts.get_set_eq.
Qed.

Lemma preload_while_loading_is_idempotent_witness :
  (preloadCollection "todos" example_config lazy_start empty_registry).1 =
    Returned (FirstCommit 0) ∧
  (preloadCollection "todos" schema_config eager_start
     (preloadCollection "todos" example_config lazy_start empty_registry).2).1 =
    Returned (FirstCommit 0).
Proof.
  split; [reflexivity|].
  assert (Hwf : registry_wf empty_registry) by (split; [intros [|?] ? H | intros ? H]; done).
  rewrite (preload_while_loading_is_idempotent "todos" example_config schema_config
             lazy_start eager_start empty_registry _ 0 Hwf); [reflexivity|].
  reflexivity.
Defined.

(** X20.  A [preloadCollection] that throws has stored nothing.  The call throws
    only when it has to create the collection, and then either the config has
    no sync config ("Collection requires a sync config") or the sync source
    threw when it was started; the store, the loading map and the promises
    are as before, so a later call tries again. *)
Theorem failed_preload_stores_nothing (id : Key) (cfg : CollectionConfig)
    (start : Collection → Outcome Collection) (r r' : Registry) (e : Error) :
  preloadCollection id cfg start r = (Thrown e, r') →
  r' = r ∧
  JsMap.get id (collectionsStore r) = None ∧
  ((sync cfg = None ∧ e = CollectionRequiresSyncConfig) ∨
   (sync cfg ≠ None ∧ start (new_collection cfg) = Thrown e)).
Proof.
  intros Hthrown.
  destruct (JsMap.get id (loadingCollections r)) as [p|] eqn:Hl.
  - unfold preloadCollection in Hthrown. rewrite Hl in Hthrown.
    by destruct (has id (collectionsStore r) && negb (has id (loadingCollections r))).
  - destruct (JsMap.get id (collectionsStore r)) as [c|] eqn:Hc.
    + by rewrite (preload_known id cfg start r c None Hc Hl) in Hthrown.
    + rewrite (preload_new id cfg start r Hc Hl) in Hthrown.
      destruct (sync cfg) as [s|] eqn:Hs.
      * destruct (start (new_collection cfg)) as [c1|e'] eqn:Hstart; [done|].
        injection Hthrown as <- <-. split; [done|]. split; [done|]. right. by split.
      * injection Hthrown as <- <-. split; [done|]. split; [done|]. by left.
Qed.

Lemma failed_preload_stores_nothing_witness :
  (preloadCollection "todos" {| sync := None; mutationFn := true; schema := None |}
     lazy_start empty_registry).2 = empty_registry.
Proof.
  destruct (preloadCollection "todos" {| sync := None; mutationFn := true; schema := None |}
              lazy_start empty_registry) as [[p|e] r'] eqn:Hrun.
  - vm_compute in Hrun. discriminate Hrun.
  - exact (proj1 (failed_preload_stores_nothing _ _ _ _ _ _ Hrun)).
Defined.

(** *** What happens to the other collections does not matter *)

Lemma listener_other id id' promise q c loading resolved r :
  id' ≠ id → q ≠ promise →
  holds id promise c loading resolved r →
  holds id promise c loading resolved (firstCommitListener id' q r).
Proof.
  intros Hid Hq (Hc & Hl & Hp & Huniq). unfold firstCommitListener.
  destruct (has id' (loadingCollections r)); [|done].
  split; [done|]. split; [by simpl; rewrite JsMapFacts.get_delete_ne|].
  split; [by simpl; rewrite list_lookup_insert_ne|].
  simpl. intros q' p' Hq' Hfor.
  destruct (decide (q' = q)) as [-> | Hne].
  - apply list_lookup_insert_Some in Hq' as [(_ & <- & _) | [? _]]; done.
  - rewrite list_lookup_insert_ne in Hq' by done. by apply (Huniq q' p').
Qed.

Lemma run_callback_other id id' promise c loading resolved r callback :
  id' ≠ id →
  holds id promise c loading resolved r →
  holds id promise c loading resolved (run_callback id' r callback).
Proof.
  intros Hid Hr. destruct callback as [q|q| |]; simpl; try done.
  destruct (promises r !! q) as [p|] eqn:Hq; [|done].
  destruct (decide (promise_collection p = id')) as [Hfor | Hfor]; [|done].
  apply listener_other; [done| |done].
  intros ->. destruct Hr as (_ & _ & Hp & _). rewrite Hp in Hq. injection Hq as <-.
  by apply Hid.
Qed.

Lemma fold_run_callback_other id id' promise c loading resolved called r :
  id' ≠ id →
  holds id promise c loading resolved r →
  holds id promise c loading resolved (fold_left (run_callback id') called r).
Proof.
  intros Hid. revert r. induction called as [|callback called IH]; intros r Hr; [done|].
  simpl. by apply IH, run_callback_other.
Qed.

Lemma collection_event_other stringify id id' promise c loading resolved r e :
  id' ≠ id →
  holds id promise c loading resolved r →
  holds id promise c loading resolved (collection_event stringify id' e r).
Proof.
  intros Hid Hr. unfold collection_event.
  destruct (JsMap.get id' (collectionsStore r)) as [c'|]; [|done].
  apply fold_run_callback_other; [done|].
  destruct Hr as (Hc & Hl & Hp & Huniq).
  split; [by simpl; rewrite JsMapFacts.get_set_ne|]. done.
Qed.

Lemma preload_other id id' promise c loading resolved r cfg start :
  id' ≠ id →
  holds id promise c loading resolved r →
  holds id promise c loading resolved (preloadCollection id' cfg start r).2.
Proof.
  intros Hid Hr.
  destruct (JsMap.get id' (loadingCollections r)) as [p|] eqn:Hl.
  - unfold preloadCollection. rewrite Hl.
    by destruct (has id' (collectionsStore r) && negb (has id' (loadingCollections r))).
  - destruct (JsMap.get id' (collectionsStore r)) as [c'|] eqn:Hc.
    + by rewrite (preload_known id' cfg start r c' None Hc Hl).
    + rewrite (preload_new id' cfg start r Hc Hl).
      destruct (sync cfg); [|done].
      destruct (start (new_collection cfg)) as [c1|e]; [|done].
      destruct Hr as (Hc0 & Hl0 & Hp & Huniq). simpl.
      split; [by simpl; rewrite JsMapFacts.get_set_ne|].
      split; [by simpl; rewrite JsMapFacts.get_set_ne|].
      split; [by simpl; apply lookup_app_l_Some|].
      simpl. intros q p' Hq Hfor.
      apply lookup_app_Some in Hq as [Hq | [_ Hq]]; [by apply (Huniq q p')|].
      apply list_lookup_singleton_Some in Hq as [_ <-]. by destruct Hid.
Qed.

(** *** What happens to the collection itself *)





(** The store after an event on the collection [id], before the callbacks
    run. *)
Lemma holds_stored id promise c c' loading resolved r :
  holds id promise c loading resolved r →
  holds id promise c' loading resolved
    {| collectionsStore := JsMap.set id c' (collectionsStore r);
       loadingCollections := loadingCollections r;
       promises := promises r |}.
Proof.
  intros (Hc & Hl & Hp & Huniq). split; [simpl; apply JsMapFacts.get_set_eq | done].
Qed.

Lemma stuck_step stringify id promise r ev :
  preload_stuck id promise r → preload_stuck id promise (registry_step stringify r ev).
Proof.
  intros (c & Hr & Hflag). destruct ev as [id' cfg start | id' e]; simpl.
  - destruct (decide (id' = id)) as [-> | Hne].
    + destruct Hr as (Hc & Hl & Hrest).
      rewrite (preload_known id cfg start r c (Some promise) Hc Hl). by exists c.
    + exists c. split; [by apply preload_other | done].
  - destruct (decide (id' = id)) as [-> | Hne].
    + unfold collection_event. destruct Hr as (Hc & Hrest). rewrite Hc.
      destruct (registered_after_first_commit stringify (firedCallbacks c) [] [e] c)
        as [[Hflag' Hfired] _].
      { split; [by split | apply prefix_nil]. }
      simpl in Hflag', Hfired. rewrite Hfired, drop_all. simpl.
      exists (step stringify c e). split; [|done].
      by apply (holds_stored id promise c).
    + exists c. split; [by apply collection_event_other | done].
Qed.




(** The registry right after the call that creates the collection. *)
Lemma preload_created id cfg start r c1 :
  registry_wf r →
  JsMap.get id (collectionsStore r) = None →
  sync cfg ≠ None →
  start (new_collection cfg) = Returned c1 →
  let promise := length (promises r) in
  (preloadCollection id cfg start r).1 = Returned (FirstCommit promise) ∧
  holds id promise
    (set_onFirstCommitCallbacks (onFirstCommitCallbacks c1 ++ [UserCallback promise]) c1)
    (Some promise) false (preloadCollection id cfg start r).2.
Proof.
  intros [Hwf1 Hwf2] Hc Hsync Hstart promise.
  assert (Hl : JsMap.get id (loadingCollections r) = None).
  { destruct (JsMap.get id (loadingCollections r)) as [p|] eqn:Hl; [|done].
    apply has_get_Some, Hwf2, has_get in Hl as [c Hc']. congruence. }
  rewrite (preload_new id cfg start r Hc Hl), Hstart.
  destruct (sync cfg); [|done]. split; [done|]. simpl.
  split; [apply JsMapFacts.get_set_eq|]. split; [apply JsMapFacts.get_set_eq|].
  split; [by apply list_lookup_middle|].
  intros q p Hq Hfor.
  apply lookup_app_Some in Hq as [Hq | [Hlen Hq]].
  - apply Hwf1 in Hq. rewrite Hfor in Hq. apply has_get in Hq as [c Hc']. congruence.
  - apply list_lookup_singleton_Some in Hq as [Hq _]. unfold promise. lia.
Qed.

(** ** Registries that preloading builds *)

Lemma has_delete {A} k k' (m : JsMap.t A) :
  has k (JsMap.delete k' m) = true → has k m = true.
Proof.
  rewrite !has_get. destruct (decide (k' = k)) as [-> | Hne].
  - rewrite JsMapFacts.get_delete_eq. by intros [? ?].
  - by rewrite JsMapFacts.get_delete_ne.
Qed.

Lemma registry_wf_listener id promise r :
  has id (collectionsStore r) = true →
  registry_wf r → registry_wf (firstCommitListener id promise r).
Proof.
  intros Hid [Hwf1 Hwf2]. unfold firstCommitListener.
  destruct (has id (loadingCollections r)); [|done]. split; simpl.
  - intros q p Hq. destruct (decide (q = promise)) as [-> | Hne].
    + apply list_lookup_insert_Some in Hq as [(_ & <- & _) | [? _]]; done.
    + rewrite list_lookup_insert_ne in Hq by done. by apply (Hwf1 q).
  - intros id' Hid'. by apply Hwf2, (has_delete _ id).
Qed.

Lemma registry_wf_step stringify r ev :
  registry_wf r → registry_wf (registry_step stringify r ev).
Proof.
  intros Hwf. destruct ev as [id cfg start | id e]; simpl.
  - destruct (JsMap.get id (loadingCollections r)) as [p|] eqn:Hl.
    { unfold preloadCollection. rewrite Hl.
      by destruct (has id (collectionsStore r) && negb (has id (loadingCollections r))). }
    destruct (JsMap.get id (collectionsStore r)) as [c|] eqn:Hc.
    { by rewrite (preload_known id cfg start r c None Hc Hl). }
    rewrite (preload_new id cfg start r Hc Hl).
    destruct (sync cfg); [|done].
    destruct (start (new_collection cfg)) as [c1|e]; [|done].
    destruct Hwf as [Hwf1 Hwf2]. split; simpl.
    + intros q p Hq. apply lookup_app_Some in Hq as [Hq | [_ Hq]].
      * by apply has_set, (Hwf1 q).
      * apply list_lookup_singleton_Some in Hq as [_ <-]. simpl.
        apply has_get. by rewrite JsMapFacts.get_set_eq.
    + intros id' Hid'. destruct (decide (id = id')) as [<- | Hne].
      * apply has_get. by rewrite JsMapFacts.get_set_eq.
      * apply has_set, Hwf2. apply has_get in Hid'. apply has_get.
        by rewrite JsMapFacts.get_set_ne in Hid'.
  - unfold collection_event. destruct (JsMap.get id (collectionsStore r)) as [c|] eqn:Hc; [|done].
    set (r0 := mkRegistry _ _ _).
    assert (Hwf0 : registry_wf r0 ∧ has id (collectionsStore r0) = true).
    { destruct Hwf as [Hwf1 Hwf2]. split; [split|]; simpl.
      - intros q p Hq. by apply has_set, (Hwf1 q).
      - intros id' Hid'. by apply has_set, Hwf2.
      - apply has_get. by rewrite JsMapFacts.get_set_eq. }
    clearbody r0. revert r0 Hwf0.
    induction (drop _ _) as [|callback called IH]; intros r0 [Hwf0 Hid]; [done|].
    simpl. apply IH.
    destruct callback as [q|q| |]; simpl; try done.
    destruct (promises r0 !! q) as [p|]; [|done].
    destruct (decide _); [|done]. split; [by apply registry_wf_listener|].
    unfold firstCommitListener. by destruct (has id (loadingCollections r0)).
Qed.

(** Every registry reached from the empty one is well formed. *)
Lemma registry_wf_run stringify events :
  registry_wf (registry_run stringify events empty_registry).
Proof.
  assert (Hwf : registry_wf empty_registry) by (split; [intros [|?] ? H | intros ? H]; done).
  revert Hwf. generalize empty_registry.
  induction events as [|ev events IH]; intros r Hwf; [done|].
  simpl. by apply IH, registry_wf_step.
Qed.

Lemma stuck_run stringify id promise events r :
  preload_stuck id promise r →
  preload_stuck id promise (registry_run stringify events r).
Proof.
  revert r. induction events as [|ev events IH]; intros r Hr; [done|].
  simpl. by apply IH, stuck_step.
Qed.







(** X22.  A first commit made before [sync()] returns leaves the promise
    unresolved.  When [preloadCollection] creates the collection and the sync
    source commits before [sync()] returns, the first commit has happened
    before the listener is registered.  The call returns a new promise, and
    then, whatever happens to this and the other collections of the store and
    whatever further calls of [preloadCollection] are made, the promise stays
    unresolved, the collection stays in [loadingCollections] and
    [preloadCollection] keeps returning that promise. *)
Theorem preload_after_early_commit_never_resolves stringify (id : Key)
    (cfg : CollectionConfig) (start : Collection → Outcome Collection) (r : Registry)
    (c1 : Collection) (events : list RegistryEvent) :
  registry_wf r →
  JsMap.get id (collectionsStore r) = None →
  sync cfg ≠ None →
  start (new_collection cfg) = Returned c1 →
  hasReceivedFirstCommit c1 = true →
  let promise := length (promises r) in
  let r' := registry_run stringify events (preloadCollection id cfg start r).2 in
  (preloadCollection id cfg start r).1 = Returned (FirstCommit promise) ∧
  JsMap.get id (loadingCollections r') = Some promise ∧
  promises r' !! promise = Some (mkFirstCommitPromise id false) ∧
  ∀ cfg' start', preloadCollection id cfg' start' r' = (Returned (FirstCommit promise), r').
Proof.
  intros Hwf Hc Hsync Hstart Hflag promise r'.
  destruct (preload_created id cfg start r c1 Hwf Hc Hsync Hstart) as [Hret Hheld].
  split; [done|].
  destruct (stuck_run stringify id promise events (preloadCollection id cfg start r).2)
    as (c & Hr & Hflag').
  { eexists. split; [exact Hheld | done]. }
  fold r' in Hr. destruct Hr as (Hc' & Hl' & Hp' & _).
  repeat (split; [done|]). intros cfg' start'.
  by apply (preload_known id cfg' start' r' c (Some promise)).
Qed.

Lemma preload_after_early_commit_never_resolves_witness :
  let r' := registry_run no_stringify
              [OnCollection "todos" EBegin; OnCollection "todos" (EWrite insert_k2_x1);
               OnCollection "todos" ECommit]
              (preloadCollection "todos" example_config eager_start empty_registry).2 in
  promises r' !! 0 = Some (mkFirstCommitPromise "todos" false) ∧
  (preloadCollection "todos" example_config eager_start r').1 = Returned (FirstCommit 0).
Proof.
  assert (Hwf : registry_wf empty_registry) by (split; [intros [|?] ? H | intros ? H]; done).
  destruct (preload_after_early_commit_never_resolves no_stringify "todos" example_config
              eager_start empty_registry _
              [OnCollection "todos" EBegin; OnCollection "todos" (EWrite insert_k2_x1);
               OnCollection "todos" ECommit]
              Hwf eq_refl ltac:(done) eq_refl eq_refl) as (_ & _ & Hp & Hre).
  split; [exact Hp|]. by rewrite Hre.
Defined.
